(** * Terminal Jeopardy: a shallow embedding of [jeopardy_game.py]

    The development follows the Python module top to bottom:
    - [Py]: the built-in operations the module relies on (string methods,
      indexing, exceptions, loops);
    - [Double]: the IEEE doubles in which Python computes the similarity
      ratio;
    - [SequenceMatcher]: the part of CPython's [difflib.SequenceMatcher]
      that [check_answer] calls;
    - [JeopardyGame]: the class itself, its methods as functions over an
      explicit game state and an explicit outside world.  The lines of the
      game are printed by the [rich] library, which is a parameter of the
      development (the class [Library]): the methods hand it the text that
      the source builds, and it prints the text or raises.

    Conventions.  A Python [str] is a list of characters, a character being
    a code point below 256 (the type [ascii], read as Latin-1); on these
    code points [str.lower], [str.strip] and [str.split] are modelled
    exactly.  Python integers are [Z].  A computation that may raise or loop
    returns an [outcome]. *)

From Stdlib Require Import ZArith QArith Ascii String List Lia.
From Stdlib Require Import DecimalString DecimalZ.
From Stdlib Require Import Floats.SpecFloat.
From stdpp Require Import base option list gmap sets strings numbers sorting.

Abbreviation str := (list ascii).

(** A string literal of the source, as a list of characters. *)
Definition lit (s : string) : str := list_ascii_of_string s.

(* ================================================================== *)
(** * Python built-ins *)
(* ================================================================== *)

Module Py.

(** Exceptions that can occur in the module.  All of them are subclasses of
    Python's [Exception]; the first three are raised by the [requests]
    library, [MarkupError] by the [rich] library, the others by the
    interpreter.  [WithMessage e message] is an exception of the class of
    [e] that carries the message [message]; a class alone is an exception
    whose message is not recorded. *)
Inductive exn : Type :=
  | RequestException   (* requests.post: connection refused, timeout, ... *)
  | HTTPError          (* Response.raise_for_status *)
  | JSONDecodeError    (* Response.json *)
  | KeyError
  | TypeError
  | AttributeError
  | IndexError
  | ValueError
  | MarkupError        (* rich.errors.MarkupError *)
  | WithMessage (e : exn) (message : str).

(** [str(e)]: the message of the exception, empty when the exception was
    raised without one.  The exceptions that the interpreter raises inside
    the [try] block of [generate_question], the only place where [str] is
    applied to an exception, carry their message. *)
Definition str_of_exn (e : exn) : str :=
  match e with
  | WithMessage _ message => message
  | _ => []
  end.

(** The result of running a piece of Python: a value, an exception that
    propagates, or no result at all because a loop did not finish within
    its allotted number of iterations. *)
Inductive outcome (A : Type) : Type :=
  | Ok (a : A)
  | Raise (e : exn)
  | Diverge.
Arguments Ok {A} a.
Arguments Raise {A} e.
Arguments Diverge {A}.

#[global] Instance outcome_ret : MRet outcome := @Ok.
#[global] Instance outcome_bind : MBind outcome := λ A B f m,
  match m with
  | Ok a => f a
  | Raise e => Raise e
  | Diverge => Diverge
  end.

(** [while cond: body] over the loop's variables [s].  [fuel] bounds the
    number of evaluations of the condition. *)
Fixpoint while {St : Type} (fuel : nat) (cond : St → outcome bool)
    (body : St → outcome St) (s : St) : outcome St :=
  match fuel with
  | O => Diverge
  | S fuel' =>
      c ← cond s;
      if c : bool then s' ← body s; while fuel' cond body s' else mret s
  end.

(** [for x in xs: body] over the loop's variables [s], without [break]. *)
Fixpoint for_each {A St : Type} (xs : list A) (body : A → St → outcome St)
    (s : St) : outcome St :=
  match xs with
  | [] => mret s
  | x :: xs' => s' ← body x s; for_each xs' body s'
  end.

(** [len(l)] *)
Definition len {A : Type} (l : list A) : Z := Z.of_nat (length l).

(** [l[i]]: a negative index counts from the end, an index out of range
    raises [IndexError]. *)
Definition getitem {A : Type} (l : list A) (i : Z) : outcome A :=
  let i' := if (i <? 0)%Z then (i + len l)%Z else i in
  if (i' <? 0)%Z then Raise IndexError
  else match l !! Z.to_nat i' with
       | Some x => Ok x
       | None => Raise IndexError
       end.

(** [range(lo, hi)] *)
Definition range (lo hi : Z) : list Z := seqZ lo (hi - lo).

(** [enumerate(l)] *)
Definition enumerate {A : Type} (l : list A) : list (Z * A) :=
  zip (range 0 (len l)) l.

(** [c.isspace()] for a code point below 256: TAB, LF, VT, FF, CR,
    FS, GS, RS, US, SPACE, NEL (0x85) and NBSP (0xA0). *)
Definition isspace (c : ascii) : bool :=
  let n := N_of_ascii c in
  ((9 <=? n) && (n <=? 13) || (28 <=? n) && (n <=? 32)
   || (n =? 133) || (n =? 160))%N.

(** [c.lower()] for a code point below 256: A-Z, and the Latin-1 capitals
    0xC0-0xD6 and 0xD8-0xDE, move up by 32; everything else is fixed. *)
Definition lower_char (c : ascii) : ascii :=
  let n := N_of_ascii c in
  if ((65 <=? n) && (n <=? 90) || (192 <=? n) && (n <=? 214)
      || (216 <=? n) && (n <=? 222))%N
  then ascii_of_N (n + 32) else c.

(** [s.lower()] *)
Definition lower (s : str) : str := lower_char <$> s.

(** [s.lstrip()], [s.rstrip()], [s.strip()] *)
Fixpoint lstrip (s : str) : str :=
  match s with
  | [] => []
  | c :: s' => if isspace c then lstrip s' else s
  end.

Definition rstrip (s : str) : str := reverse (lstrip (reverse s)).

Definition strip (s : str) : str := rstrip (lstrip s).

(** [s.split()]: the maximal runs of non-whitespace characters, in order.
    [cur] is the run being read. *)
Fixpoint split_from (cur : str) (s : str) : list str :=
  match s with
  | [] => match cur with [] => [] | _ => [cur] end
  | c :: s' =>
      if isspace c
      then match cur with
           | [] => split_from [] s'
           | _ => cur :: split_from [] s'
           end
      else split_from (cur ++ [c]) s'
  end.

Definition split (s : str) : list str := split_from [] s.

(** [s.split(sep)] for a separator of one character: the pieces between
    the occurrences of [sep], empty pieces included. *)
Fixpoint split_sep_from (sep : ascii) (cur : str) (s : str) : list str :=
  match s with
  | [] => [cur]
  | c :: s' =>
      if decide (c = sep) then cur :: split_sep_from sep [] s'
      else split_sep_from sep (cur ++ [c]) s'
  end.

Definition split_sep (sep : ascii) (s : str) : list str :=
  split_sep_from sep [] s.

(** [s.startswith(p)] *)
Fixpoint startswith (p s : str) : bool :=
  match p, s with
  | [], _ => true
  | _ :: _, [] => false
  | x :: p', y :: s' => bool_decide (x = y) && startswith p' s'
  end.

(** [s.replace(old, new)] for a non-empty [old]: the occurrences of [old]
    are found left to right, without overlap.  [skip] counts the characters
    of the occurrence just replaced that are still to be passed over. *)
Fixpoint replace_from (old new : str) (skip : nat) (s : str) : str :=
  match s with
  | [] => []
  | c :: s' =>
      match skip with
      | S n => replace_from old new n s'
      | O =>
          if startswith old s
          then new ++ replace_from old new (length old - 1) s'
          else c :: replace_from old new 0 s'
      end
  end.

Definition replace (old new s : str) : str := replace_from old new 0 s.

(** [sub in s] for strings: [sub] occurs somewhere in [s]. *)
Definition contains (sub s : str) : Prop := ∃ pre post, s = pre ++ sub ++ post.

(** [str(n)] for an integer: its decimal numeral. *)
Definition str_of_int (n : Z) : str :=
  lit (NilZero.string_of_int (Z.to_int n)).

(** [int(s)] on a decimal numeral as [str] writes it; any other text
    raises [ValueError].  (Python's [int] also accepts blanks, [+] and
    underscores; the module only applies it to results of [str].) *)
Definition int_of_str (s : str) : outcome Z :=
  match NilZero.int_of_string (string_of_list_ascii s) with
  | Some d => Ok (Z.of_int d)
  | None => Raise ValueError
  end.

End Py.
Export Py.

(* ================================================================== *)
(** * Python's [float] *)
(* ================================================================== *)

(** IEEE 754 binary64 numbers, with the operations of the standard
    library's specification of floating-point arithmetic. *)

Module Double.

Definition prec : Z := 53.
Definition emax : Z := 1024.

(** [float(n)] for an integer, and an integer operand of [*] or [/]. *)
Definition of_int (n : Z) : spec_float := binary_normalize prec emax n 0 false.

Definition mul : spec_float → spec_float → spec_float := SFmul prec emax.
Definition div : spec_float → spec_float → spec_float := SFdiv prec emax.

(** [x < y] *)
Definition ltb : spec_float → spec_float → bool := SFltb.

(** The literal [0.8]: the double nearest to 4/5, [0x1.999999999999ap-1]. *)
Definition f08 : spec_float := S754_finite false 7205759403792794 (-53).

End Double.

(* ================================================================== *)
(** * [difflib.SequenceMatcher] *)
(* ================================================================== *)

(** The methods of CPython's [difflib.SequenceMatcher] reached from
    [SequenceMatcher(None, a, b).ratio()]: the constructor with
    [isjunk=None] and [autojunk=True], [__chain_b], [find_longest_match],
    [get_matching_blocks], [ratio] and [_calculate_ratio].  The sequences
    are strings, their elements characters. *)

Module SequenceMatcher.

Local Open Scope Z_scope.

(** The named tuple [Match(a, b, size)]. *)
Abbreviation Match := (Z * Z * Z)%type.

Record t : Type := {
  a : str;
  b : str;
  b2j : gmap ascii (list Z);   (* element of b -> its indices, increasing *)
  bjunk : gset ascii;
  bpopular : gset ascii
}.

(** [__chain_b].  With [isjunk=None] the junk set stays empty; with
    [autojunk] and at least 200 elements, the elements that occur more
    than [n // 100 + 1] times are dropped from [b2j]. *)
Definition chain_b (b : str) : gmap ascii (list Z) * gset ascii * gset ascii :=
  let b2j : gmap ascii (list Z) :=
    foldl (λ (b2j : gmap ascii (list Z)) '(i, elt),
             <[elt := default [] (b2j !! elt) ++ [i]]> b2j)
          ∅ (enumerate b) in
  let junk : gset ascii := ∅ in
  let n := len b in
  if n >=? 200 then
    let ntest := n / 100 + 1 in
    let popular : gset ascii :=
      map_fold (λ elt (idxs : list Z) (popular : gset ascii),
                  if len idxs >? ntest then {[elt]} ∪ popular else popular)
               ∅ b2j in
    let b2j := set_fold (λ elt (b2j : gmap ascii (list Z)), delete elt b2j)
                        b2j popular in
    (b2j, junk, popular)
  else (b2j, junk, ∅).

(** [SequenceMatcher(None, a, b)] *)
Definition make (a b : str) : t :=
  let '(b2j, junk, popular) := chain_b b in
  {| a := a; b := b; b2j := b2j; bjunk := junk; bpopular := popular |}.

(** The inner loop of [find_longest_match], over the indices [js] of the
    element [a[i]] in [b]: [continue] below [blo], [break] from [bhi] on. *)
Fixpoint match_row (js : list Z) (i blo bhi : Z) (j2len newj2len : gmap Z Z)
    (best : Match) : gmap Z Z * Match :=
  match js with
  | [] => (newj2len, best)
  | j :: js' =>
      if j <? blo then match_row js' i blo bhi j2len newj2len best
      else if j >=? bhi then (newj2len, best)
      else
        let k := default 0 (j2len !! (j - 1)) + 1 in
        let newj2len := <[j := k]> newj2len in
        let best := if k >? best.2 then (i - k + 1, j - k + 1, k) else best in
        match_row js' i blo bhi j2len newj2len best
  end.

Section find_longest_match.
Variable self : t.
Variables alo ahi blo bhi : Z.

Definition isbjunk (c : ascii) : bool := bool_decide (c ∈ bjunk self).

(** The condition of the loops that extend the match to the left,
    [besti > alo and bestj > blo and <test>(b[bestj-1])
     and a[besti-1] == b[bestj-1]],
    where the test is [not isbjunk] in the first loop ([junk = false]) and
    [isbjunk] in the third ([junk = true]). *)
Definition can_grow_left (junk : bool) (m : Match) : outcome bool :=
  let '(besti, bestj, bestsize) := m in
  if (besti >? alo) && (bestj >? blo) then
    bj ← getitem (b self) (bestj - 1);
    if bool_decide (isbjunk bj = junk) then
      ai ← getitem (a self) (besti - 1);
      bj' ← getitem (b self) (bestj - 1);
      mret (bool_decide (ai = bj'))
    else mret false
  else mret false.

Definition grow_left (m : Match) : outcome Match :=
  let '(besti, bestj, bestsize) := m in
  mret (besti - 1, bestj - 1, bestsize + 1).

(** The condition of the loops that extend the match to the right,
    [besti+bestsize < ahi and bestj+bestsize < bhi
     and <test>(b[bestj+bestsize])
     and a[besti+bestsize] == b[bestj+bestsize]],
    with [not isbjunk] in the second loop and [isbjunk] in the fourth. *)
Definition can_grow_right (junk : bool) (m : Match) : outcome bool :=
  let '(besti, bestj, bestsize) := m in
  if (besti + bestsize <? ahi) && (bestj + bestsize <? bhi) then
    bj ← getitem (b self) (bestj + bestsize);
    if bool_decide (isbjunk bj = junk) then
      ai ← getitem (a self) (besti + bestsize);
      bj' ← getitem (b self) (bestj + bestsize);
      mret (bool_decide (ai = bj'))
    else mret false
  else mret false.

Definition grow_right (m : Match) : outcome Match :=
  let '(besti, bestj, bestsize) := m in
  mret (besti, bestj, bestsize + 1).

(** The outer loop: one row of the table of match lengths per [i]. *)
Definition scan_rows (st : gmap Z Z * Match) : outcome (gmap Z Z * Match) :=
  for_each (range alo ahi)
    (λ i '(j2len, best),
       ai ← getitem (a self) i;
       let js := default [] (b2j self !! ai) in
       mret (match_row js i blo bhi j2len ∅ best))
    st.

(** [find_longest_match(alo, ahi, blo, bhi)].  The four [while] loops
    move one end of the match by one position per iteration, which
    bounds their length. *)
Definition find_longest_match : outcome Match :=
  '(_, best) ← scan_rows (∅, (alo, blo, 0));
  best ← while (S (Z.to_nat (best.1.1 - alo)))
               (can_grow_left false) grow_left best;
  best ← while (S (Z.to_nat (ahi - (best.1.1 + best.2))))
               (can_grow_right false) grow_right best;
  best ← while (S (Z.to_nat (best.1.1 - alo)))
               (can_grow_left true) grow_left best;
  best ← while (S (Z.to_nat (ahi - (best.1.1 + best.2))))
               (can_grow_right true) grow_right best;
  mret best.
End find_longest_match.

(** Tuples of integers compare lexicographically. *)
Definition Match_leb (x y : Match) : bool :=
  let '(i1, j1, k1) := x in
  let '(i2, j2, k2) := y in
  (i1 <? i2) || (i1 =? i2) && ((j1 <? j2) || (j1 =? j2) && (k1 <=? k2)).

Definition Match_le (x y : Match) : Prop := Is_true (Match_leb x y).

#[global] Instance Match_le_dec (x y : Match) : Decision (Match_le x y) := _.

(** One turn of the [while queue:] loop.  The queue is a stack: its last
    element, the one [pop] takes, is kept at the head of the list. *)
Definition split_block (self : t)
    (st : list (Z * Z * Z * Z) * list Match)
    : outcome (list (Z * Z * Z * Z) * list Match) :=
  match st with
  | ([], matching_blocks) => Raise IndexError   (* pop from empty list *)
  | ((alo, ahi, blo, bhi) :: queue, matching_blocks) =>
      x ← find_longest_match self alo ahi blo bhi;
      let '(i, j, k) := x in
      if bool_decide (k ≠ 0) then
        let matching_blocks := matching_blocks ++ [x] in
        let queue :=
          if (alo <? i) && (blo <? j) then (alo, i, blo, j) :: queue
          else queue in
        let queue :=
          if (i + k <? ahi) && (j + k <? bhi) then (i + k, ahi, j + k, bhi) :: queue
          else queue in
        mret (queue, matching_blocks)
      else mret (queue, matching_blocks)
  end.

(** The loop that merges adjacent blocks. *)
Definition merge_adjacent (st : Z * Z * Z * list Match) (blk : Match)
    : Z * Z * Z * list Match :=
  let '(i1, j1, k1, non_adjacent) := st in
  let '(i2, j2, k2) := blk in
  if (i1 + k1 =? i2) && (j1 + k1 =? j2) then (i1, j1, k1 + k2, non_adjacent)
  else
    let non_adjacent :=
      if bool_decide (k1 ≠ 0) then non_adjacent ++ [(i1, j1, k1)]
      else non_adjacent in
    (i2, j2, k2, non_adjacent).

(** [get_matching_blocks()], on an object that has no cached result yet.
    Every turn of the queue loop either finds no block or takes at least one
    element of [a] out of the ranges still queued, so it runs at most
    [2 * len(a) + 1] times. *)
Definition get_matching_blocks (self : t) : outcome (list Match) :=
  let la := len (a self) in
  let lb := len (b self) in
  '(_, matching_blocks) ←
    while (S (S (2 * length (a self))))
          (λ '(queue, _), mret (bool_decide (queue ≠ [])))
          (split_block self)
          ([(0, la, 0, lb)], []);
  let matching_blocks := merge_sort Match_le matching_blocks in
  let '(i1, j1, k1, non_adjacent) :=
    foldl merge_adjacent (0, 0, 0, []) matching_blocks in
  let non_adjacent :=
    if bool_decide (k1 ≠ 0) then non_adjacent ++ [(i1, j1, k1)]
    else non_adjacent in
  mret (non_adjacent ++ [(la, lb, 0)]).

(** [_calculate_ratio(matches, length)].  The quotient is taken exactly.
    Python computes it in doubles, [calculate_ratio_double] below; for two
    strings of fewer than 2^51 characters in all, comparing either with
    [0.8] gives the same result (theorem [similarity_test_in_doubles]). *)
Definition calculate_ratio (matches length : Z) : Q :=
  if bool_decide (length ≠ 0) then (2 * inject_Z matches / inject_Z length)%Q
  else 1%Q.

(** [_calculate_ratio(matches, length)] in doubles:
    [2.0 * matches / length], and [1.0] when the length is 0. *)
Definition calculate_ratio_double (matches length : Z) : spec_float :=
  if bool_decide (length ≠ 0)
  then Double.div (Double.mul (Double.of_int 2) (Double.of_int matches))
                  (Double.of_int length)
  else Double.of_int 1.

(** [sum(triple[-1] for triple in blocks)] *)
Definition matches (blocks : list Match) : Z :=
  foldr (λ triple acc, triple.2 + acc) 0 blocks.

(** [ratio()] *)
Definition ratio (self : t) : outcome Q :=
  blocks ← get_matching_blocks self;
  mret (calculate_ratio (matches blocks) (len (a self) + len (b self))).

End SequenceMatcher.

(* ================================================================== *)
(** * The game *)
(* ================================================================== *)

Module JeopardyGame.

Local Open Scope Z_scope.

(** ** Data *)

(** The dictionary [{"question": ..., "answer": ...}] that
    [generate_question] returns. *)
Record qa_pair : Type := { qa_question : str; qa_answer : str }.

(** A cell of the board:
    [{"question": ..., "answer": ..., "answered": ...}]. *)
Record cell : Type := { question : str; answer : str; answered : bool }.

(** The fields of a [JeopardyGame] object ([self.console] is part of the
    outside world below). *)
Record game : Type := {
  categories : list str;
  points : list Z;
  board : gmap str (gmap Z cell);
  score : Z
}.

(** A value decoded from JSON; a dictionary is given by its items. *)
#[warnings="-register-all"]
Inductive pyvalue : Type :=
  | PyNone
  | PyBool (b : bool)
  | PyInt (n : Z)
  | PyFloat (q : Q)
  | PyStr (s : str)
  | PyList (l : list pyvalue)
  | PyDict (items : list (str * pyvalue)).

(** What [requests.post] hands back: a [Response], whose
    [raise_for_status()] and [json()] return or raise. *)
Record Response : Type := {
  raise_for_status : option exn;      (* [None]: returns normally *)
  json : exn + pyvalue
}.

Inductive post_result : Type :=
  | PostRaised (e : exn)
  | PostReturned (r : Response).

(** The arguments of the call to [requests.post]. *)
Record request : Type := {
  url : str;
  model : str;
  prompt : str;
  stream : bool
}.

(** What the game writes on the terminal. *)
Inductive printed : Type :=
  | ErrorGeneratingQuestion (e : exn)
  | GeneratingQuestionsFor (category : str)
  | NoMoreQuestions
  | QuestionHeader (category : str) (points : Z)
  | QuestionText (question : str)
  | Correct
  | SorryTheCorrectAnswerWas (correct_answer : str).

(** The world outside the object: the generation service, which answers
    the n-th POST as [service n] says, the number of POSTs made so far,
    and the terminal. *)
Record world : Type := {
  service : nat → request → post_result;
  posts : nat;
  console : list printed
}.

(** ** [__init__] *)

Definition init : game := {|
  categories := [lit "Science"; lit "History"; lit "Geography"; lit "Arts";
                 lit "Sports"];
  points := [100; 200; 300; 400; 500];
  board := ∅;
  score := 0
|}.

(** ** Printing through [rich] *)

Definition nl : str := ["010"%char].

(** The text that the source hands to [self.console.print] or [rprint] for
    each line, as its f-strings build it. *)
Definition text_of (line : printed) : str :=
  match line with
  | ErrorGeneratingQuestion e =>
      lit "[red]Error generating question: " ++ str_of_exn e ++ lit "[/red]"
  | GeneratingQuestionsFor category =>
      lit "Generating questions for " ++ category ++ lit "..."
  | NoMoreQuestions => lit "[red]No more questions in this category![/red]"
  | QuestionHeader category points =>
      nl ++ lit "[blue]Question (" ++ category ++ lit " for $"
      ++ str_of_int points ++ lit "):[/blue]"
  | QuestionText question => question
  | Correct => lit "[green]Correct![/green]"
  | SorryTheCorrectAnswerWas correct_answer =>
      lit "[red]Sorry, the correct answer was: " ++ correct_answer
      ++ lit "[/red]"
  end.

(** The lines in which nothing comes from outside the module: the two
    fixed lines of [play_turn], and the progress lines of
    [initialize_board] for the categories of [__init__]. *)
Definition own_lines : list str :=
  text_of NoMoreQuestions :: text_of Correct
  :: (text_of ∘ GeneratingQuestionsFor <$> categories init).

Definition printed_ok (raised : option exn) : bool :=
  match raised with
  | None => true
  | Some _ => false
  end.

(** The [rich] library, as far as the module depends on it.  [rich] reads
    the text it is given as console markup, looks up the styles that the
    tags name and encodes the result for the terminal; each of these steps
    can raise (a closing tag that closes nothing raises [MarkupError]).
    [print_raises text] is the exception that printing [text] raises, if
    any.  All that is assumed of the library is that it prints the module's
    own lines, which are well-formed markup with ASCII text. *)
Class Library : Type := {
  print_raises : str → option exn;
  prints_own_lines :
    forallb (λ text, printed_ok (print_raises text)) own_lines = true
}.

(** ** Methods run on a game and a world *)

Definition M (A : Type) : Type := game * world → outcome A * (game * world).

#[global] Instance M_ret : MRet M := λ A x st, (Ok x, st).
#[global] Instance M_bind : MBind M := λ A B f m st,
  match m st with
  | (Ok x, st') => f x st'
  | (Raise e, st') => (Raise e, st')
  | (Diverge, st') => (Diverge, st')
  end.

(** A computation without effect on the state. *)
Definition lift {A : Type} (o : outcome A) : M A := λ st, (o, st).

Definition get_self : M game := λ st, (Ok st.1, st).

Definition set_board (bd : gmap str (gmap Z cell)) : M unit := λ '(g, w),
  (Ok (), ({| categories := categories g; points := points g;
              board := bd; score := score g |}, w)).

Definition set_score (sc : Z) : M unit := λ '(g, w),
  (Ok (), ({| categories := categories g; points := points g;
              board := board g; score := sc |}, w)).

(** [self.console.print(...)] and [rprint(...)]: the text of the line goes
    to the library, and the exception that the library raises propagates.
    The terminal holds the lines that were printed in full. *)
Definition console_print `{Library} (line : printed) : M unit := λ '(g, w),
  match print_raises (text_of line) with
  | Some e => (Raise e, (g, w))
  | None =>
      (Ok (), (g, {| service := service w; posts := posts w;
                     console := console w ++ [line] |}))
  end.

(** [requests.post(url, json=payload)] *)
Definition requests_post (req : request) : M Response := λ '(g, w),
  let w' := {| service := service w; posts := S (posts w);
               console := console w |} in
  match service w (posts w) req with
  | PostRaised e => (Raise e, (g, w'))
  | PostReturned r => (Ok r, (g, w'))
  end.

(** [time.sleep(seconds)]: time is not part of the state. *)
Definition sleep (seconds : Q) : M unit := mret ().

(** [try: body except Exception as e: handler(e)] *)
Definition try_except {A : Type} (body : M A) (handler : exn → M A) : M A :=
  λ st,
    match body st with
    | (Raise e, st') => handler e st'
    | r => r
    end.

(** [for x in xs: body] inside a method. *)
Fixpoint for_ {A : Type} (xs : list A) (body : A → M unit) : M unit :=
  match xs with
  | [] => mret ()
  | x :: xs' => _ ← body x; for_ xs' body
  end.

(** [d[key]] on a dictionary of the game.  The [KeyError] is raised outside
    any [try] block, and its message is not recorded. *)
Definition dict_getitem `{Countable K} {V : Type} (d : gmap K V) (key : K)
    : outcome V :=
  match d !! key with
  | Some v => Ok v
  | None => Raise KeyError
  end.

(** The name of a value's type, as the interpreter's messages give it. *)
Definition type_name (v : pyvalue) : str :=
  match v with
  | PyNone => lit "NoneType"
  | PyBool _ => lit "bool"
  | PyInt _ => lit "int"
  | PyFloat _ => lit "float"
  | PyStr _ => lit "str"
  | PyList _ => lit "list"
  | PyDict _ => lit "dict"
  end.

(** [v[key]] for a string [key] on a decoded JSON value, with the messages
    of CPython 3.11.  The message of the [KeyError] is [repr(key)], written
    here for a key without quotes, backslashes or control characters, as
    ['response'] is. *)
Definition subscript (v : pyvalue) (key : str) : outcome pyvalue :=
  match v with
  | PyDict items =>
      match list_find (λ kv, kv.1 = key) items with
      | Some (_, (_, x)) => Ok x
      | None => Raise (WithMessage KeyError (lit "'" ++ key ++ lit "'"))
      end
  | PyStr _ =>
      Raise (WithMessage TypeError
               (lit "string indices must be integers, not 'str'"))
  | PyList _ =>
      Raise (WithMessage TypeError
               (lit "list indices must be integers or slices, not str"))
  | _ =>
      Raise (WithMessage TypeError
               (lit "'" ++ type_name v ++ lit "' object is not subscriptable"))
  end.

(** Looking up the string method [strip] on a decoded JSON value. *)
Definition as_str (v : pyvalue) : outcome str :=
  match v with
  | PyStr s => Ok s
  | _ =>
      Raise (WithMessage AttributeError
               (lit "'" ++ type_name v
                ++ lit "' object has no attribute 'strip'"))
  end.

(** ** [generate_question] *)

Definition generation_prompt (category : str) (points : Z) : str :=
  lit "Generate a " ++ category ++ lit " trivia question worth "
  ++ str_of_int points ++ lit " points." ++ nl
  ++ lit "        Respond with only the question on one line, followed by the answer on the next line."
  ++ nl
  ++ lit "        Make it challenging but fair for the points value.".

Definition backup_question (category : str) (points : Z) : qa_pair := {|
  qa_question := lit "This " ++ category ++ lit " question is worth $"
                 ++ str_of_int points;
  qa_answer := lit "backup"
|}.

(** The POST that [generate_question] makes. *)
Definition generation_request (category : str) (points : Z) : request := {|
  url := lit "http://localhost:11434/api/generate";
  model := lit "mistral";
  prompt := generation_prompt category points;
  stream := false
|}.

Definition generate_question `{Library} (category : str) (points : Z)
    : M qa_pair :=
  try_except
    (response ← requests_post (generation_request category points);
     _ ← lift (match raise_for_status response with
               | Some e => Raise e
               | None => Ok ()
               end);
     result ← lift (match json response with
                    | inl e => Raise e
                    | inr v => Ok v
                    end);
     text ← lift (v ← subscript result (lit "response"); as_str v);
     let lines := split_sep "010" (strip text) in
     if len lines >=? 2 then
       question ← lift (getitem lines 0);
       let question := strip question in
       answer ← lift (getitem lines 1);
       let answer := strip answer in
       let answer :=
         strip (replace (lit "a:") [] (replace (lit "answer:") [] (lower answer))) in
       mret {| qa_question := question; qa_answer := answer |}
     else
       mret (backup_question category points))
    (λ e,
       _ ← console_print (ErrorGeneratingQuestion e);
       mret (backup_question category points)).

(** ** [check_answer] *)

Definition check_answer (player_answer correct_answer : str) : outcome bool :=
  let player_answer := strip (lower player_answer) in
  let correct_answer := strip (lower correct_answer) in
  if decide (player_answer = correct_answer) then mret true
  else
    similarity ← SequenceMatcher.ratio
                   (SequenceMatcher.make player_answer correct_answer);
    if Qlt_le_dec 0.8 similarity then mret true
    else
      let player_words : gset str := list_to_set (split player_answer) in
      let correct_words : gset str := list_to_set (split correct_answer) in
      let important_words : gset str :=
        filter (λ word, len word > 3) correct_words in
      if bool_decide (important_words ≠ ∅)
         && bool_decide (important_words ⊆ player_words)
      then mret true
      else mret false.

(** ** [initialize_board] *)

Definition initialize_board `{Library} : M unit :=
  _ ← set_board ∅;
  self ← get_self;
  for_ (categories self) (λ category,
    _ ← console_print (GeneratingQuestionsFor category);
    self ← get_self;
    _ ← set_board (<[category := ∅]> (board self));
    self ← get_self;
    for_ (points self) (λ points,
      qa ← generate_question category points;
      self ← get_self;
      row ← lift (dict_getitem (board self) category);
      _ ← set_board
            (<[category :=
                 <[points := {| question := qa_question qa;
                                answer := qa_answer qa;
                                answered := false |}]> row]> (board self));
      sleep 0.5))%Q.

(** ** [play_turn] *)

(** What the player enters at the four prompts of a turn.  [Prompt.ask]
    with [choices] only ever returns one of the choices. *)
Record prompts : Type := {
  continue_playing : bool;    (* Confirm.ask("Do you want to continue playing?") *)
  chosen_category : str;      (* Prompt.ask("Choose a category", choices=...) *)
  chosen_points : str;        (* Prompt.ask("Choose points", choices=...) *)
  your_answer : str           (* Prompt.ask("Your answer") *)
}.

(** [[str(p) for p, q in row.items() if not q["answered"]]] *)
Definition available_points (row : gmap Z cell) : list str :=
  (λ pq : Z * cell, str_of_int pq.1)
    <$> filter (λ pq : Z * cell, answered pq.2 = false) (map_to_list row).

Definition play_turn `{Library} (user : prompts) : M bool :=
  if negb (continue_playing user) then mret false
  else
    let category := chosen_category user in
    self ← get_self;
    row ← lift (dict_getitem (board self) category);
    match available_points row with
    | [] =>
        _ ← console_print NoMoreQuestions;
        mret true
    | _ =>
        points ← lift (int_of_str (chosen_points user));
        c ← lift (row ← dict_getitem (board self) category;
                  dict_getitem row points);
        let question := question c in
        let correct_answer := lower (answer c) in
        _ ← console_print (QuestionHeader category points);
        _ ← console_print (QuestionText question);
        let player_answer := lower (your_answer user) in
        ok ← lift (check_answer player_answer correct_answer);
        _ ← (if ok : bool then
               self ← get_self;
               _ ← set_score (score self + points);
               console_print Correct
             else
               self ← get_self;
               _ ← set_score (score self - points);
               _ ← console_print (SorryTheCorrectAnswerWas correct_answer);
               sleep 2);
        self ← get_self;
        row ← lift (dict_getitem (board self) category);
        c ← lift (dict_getitem row points);
        _ ← set_board
              (<[category :=
                   <[points := {| question := JeopardyGame.question c;
                                  answer := answer c;
                                  answered := true |}]> row]> (board self));
        _ ← sleep 2;
        mret true
    end.

(** ** The terminal of a whole game *)

(** A [rich.table.Table]: its title, its columns and its rows of cells. *)
Record Column : Type := { header : str; justify : str }.

Record Table : Type := {
  title : str;
  columns : list Column;
  rows : list (list str)
}.

(** [table.add_column(header, justify=justify)] *)
Definition add_column (header justify : str) (table : Table) : Table :=
  {| title := title table;
     columns := columns table
                ++ [{| header := header; justify := justify |}];
     rows := rows table |}.

(** [table.add_row], called with the cells of [row] *)
Definition add_row (row : list str) (table : Table) : Table :=
  {| title := title table; columns := columns table;
     rows := rows table ++ [row] |}.

(** What the terminal receives in the course of a game: the lines of the
    methods above, and what [display_board] and [play_game] write. *)
Inductive shown : Type :=
  | Line (line : printed)
  | Clear                          (* self.console.clear() *)
  | BoardTable (table : Table)     (* self.console.print(table) *)
  | CurrentScore (score : Z)
  | Welcome
  | InitializingGameBoard
  | ThanksForPlaying
  | GameOver (score : Z).

(** A game in progress: the object, the generation service with the number
    of POSTs made so far, and the terminal. *)
Record session : Type := {
  current : game;
  backend : nat → request → post_result;
  requests_made : nat;
  terminal : list shown
}.

Definition G (A : Type) : Type := session → outcome A * session.

#[global] Instance G_ret : MRet G := λ A x s, (Ok x, s).
#[global] Instance G_bind : MBind G := λ A B f m s,
  match m s with
  | (Ok x, s') => f x s'
  | (Raise e, s') => (Raise e, s')
  | (Diverge, s') => (Diverge, s')
  end.

Definition get_current : G game := λ s, (Ok (current s), s).

Definition show (x : shown) : G unit := λ s,
  (Ok (), {| current := current s; backend := backend s;
             requests_made := requests_made s;
             terminal := terminal s ++ [x] |}).

(** A computation on values alone, which leaves the session as it is. *)
Definition computed {A : Type} (o : outcome A) : G A := λ s, (o, s).

(** A call of one of the methods above.  The method runs on the object and
    the service of the session; the lines it prints go to the terminal. *)
Definition method {A : Type} (m : M A) : G A := λ s,
  let '(r, (g, w)) :=
    m (current s, {| service := backend s; posts := requests_made s;
                     console := [] |}) in
  (r, {| current := g; backend := service w; requests_made := posts w;
         terminal := terminal s ++ (Line <$> console w) |}).

(** ** [display_board] *)

Definition display_board : G unit :=
  self ← get_current;
  let table :=
    {| title := lit "Jeopardy Board"; columns := []; rows := [] |} in
  let table :=
    foldl (λ table category, add_column category (lit "center") table)
      table (categories self) in
  table ← computed
    (for_each (points self) (λ points table,
       row ← for_each (categories self) (λ category row,
                r ← dict_getitem (board self) category;
                q ← dict_getitem r points;
                if answered q then mret (row ++ [lit "[dim]----[/dim]"])
                else mret (row ++ [lit "$" ++ str_of_int points])) [];
       mret (add_row row table)) table);
  _ ← show Clear;
  _ ← show (BoardTable table);
  show (CurrentScore (score self)).

(** ** [play_game] *)

(** [all(question["answered"] for category in self.board.values()
         for question in category.values())] *)
Definition all_answered (bd : gmap str (gmap Z cell)) : bool :=
  forallb (λ question : cell, answered question)
    (category ← (map_to_list bd).*2; (map_to_list category).*2).

(** The loop [while True] of [play_game].  [user turn self] is what the
    player enters at the prompts of the turn number [turn], the game being
    [self] at that moment; [fuel] bounds the number of iterations. *)
Fixpoint game_loop `{Library} (fuel : nat) (user : nat → game → prompts)
    (turn : nat) : G unit :=
  match fuel with
  | O => λ s, (Diverge, s)
  | S fuel' =>
      _ ← display_board;
      self ← get_current;
      if all_answered (board self) then mret ()
      else
        continue ← method (play_turn (user turn self));
        if negb continue then show ThanksForPlaying
        else game_loop fuel' user (S turn)
  end.

Definition play_game `{Library} (fuel : nat) (user : nat → game → prompts)
    : G unit :=
  _ ← show Clear;
  _ ← show Welcome;
  _ ← show InitializingGameBoard;
  _ ← method initialize_board;
  _ ← game_loop fuel user 0;
  self ← get_current;
  show (GameOver (score self)).

End JeopardyGame.

Import SequenceMatcher JeopardyGame.

(* ================================================================== *)
(** * What the specification says *)
(* ================================================================== *)

(** These definitions follow the wording of the specification, not the
    code; the theorems below compare the two. *)

Module Spec.

Local Open Scope Z_scope.

(** Lowercase, then strip leading and trailing whitespace. *)
Definition normalize (s : str) : str := strip (lower s).

(** The set of words of a string. *)
Definition words (s : str) : gset str := list_to_set (split s).

(** The words longer than three characters. *)
Definition important_words (s : str) : gset str :=
  filter (λ word, len word > 3) (words s).

(** The similarity ratio [2 * M / T] is above [threshold], where [M] is the
    number of characters in the matching blocks and [T] the total length of
    both strings. *)
Definition ratio_exceeds (a b : str) (threshold : Q) : Prop :=
  ∃ blocks,
    get_matching_blocks (make a b) = Ok blocks
    ∧ (threshold < 2 * inject_Z (matches blocks) / inject_Z (len a + len b))%Q.

(** The three ways an answer is accepted. *)
Definition accepts (player_answer correct_answer : str) : Prop :=
  let a := normalize player_answer in
  let b := normalize correct_answer in
  a = b
  ∨ ratio_exceeds a b 0.8
  ∨ (important_words b ≠ ∅ ∧ important_words b ⊆ words a).

(** The text of a response has at least two lines. *)
Definition two_lines (text : str) : Prop :=
  len (split_sep "010" (strip text)) >= 2.

(** The ways the generation call fails: network error, HTTP error status,
    malformed response, response of fewer than two lines. *)
Inductive generation_fails : post_result → Prop :=
  | network_error e : generation_fails (PostRaised e)
  | http_error_status r e :
      raise_for_status r = Some e → generation_fails (PostReturned r)
  | body_not_json r e :
      json r = inl e → generation_fails (PostReturned r)
  | no_response_text r v :
      json r = inr v →
      (∀ text, subscript v (lit "response") ≠ Ok (PyStr text)) →
      generation_fails (PostReturned r)
  | fewer_than_two_lines r v text :
      json r = inr v →
      subscript v (lit "response") = Ok (PyStr text) →
      ¬ two_lines text →
      generation_fails (PostReturned r).

(** A response that parses: status fine, a JSON object with a text of at
    least two lines under ["response"]. *)
Definition generation_succeeds (reply : post_result) (text : str) : Prop :=
  ∃ r v,
    reply = PostReturned r
    ∧ raise_for_status r = None
    ∧ json r = inr v
    ∧ subscript v (lit "response") = Ok (PyStr text)
    ∧ two_lines text.

(** [s] without the prefix [p], if it starts with it. *)
Definition removeprefix (p s : str) : str :=
  if startswith p s then drop (length p) s else s.

(** The stored answer as the specification describes it: the line
    lowercased, a leading ["answer:"] or ["a:"] removed, trimmed. *)
Definition normalized_answer (line : str) : str :=
  let line := lower (strip line) in
  let line :=
    if startswith (lit "answer:") line then removeprefix (lit "answer:") line
    else removeprefix (lit "a:") line in
  strip line.

(** The pair that [generate_question] returns when it makes the [k]-th
    POST counted from the world [w]. *)
Definition question_source `{Library} (w : world) (k : nat)
    (category : str) (points : Z) : outcome qa_pair :=
  (generate_question category points
     (init, {| service := service w; posts := posts w + k;
               console := [] |})).1.

(** All the cells of a board, and the cell at a place. *)
Definition board_cells (bd : gmap str (gmap Z cell)) : list cell :=
  row ← (map_to_list bd).*2; (map_to_list row).*2.

Definition cell_at (bd : gmap str (gmap Z cell)) (category : str)
    (points : Z) : option cell :=
  row ← bd !! category; row !! points.

(** A cell once it has been played. *)
Definition played (c : cell) : cell :=
  {| question := question c; answer := answer c; answered := true |}.

(** A game with the five categories and five point values of [__init__]. *)
Definition reference_game (bd : gmap str (gmap Z cell)) (sc : Z) : game :=
  {| categories := categories init; points := points init;
     board := bd; score := sc |}.

End Spec.
Import Spec.

(* ================================================================== *)
(** * Invariants used in the proofs *)
(* ================================================================== *)

Module Inv.

Local Open Scope Z_scope.

(** The best match so far lies inside both windows. *)
Definition good_best (alo ahi blo bhi : Z) (m : Match) : Prop :=
  alo ≤ m.1.1 ∧ m.1.1 + m.2 ≤ ahi ∧ blo ≤ m.1.2 ∧ m.1.2 + m.2 ≤ bhi
  ∧ 0 ≤ m.2.

(** [j2len] before row [i]: a match that ends at [a[i-1]] and [b[j]]
    starts neither before [alo] nor before [blo]. *)
Definition good_row (alo blo i : Z) (j2len : gmap Z Z) : Prop :=
  ∀ j k, j2len !! j = Some k → 1 ≤ k ∧ k ≤ i - alo ∧ k ≤ j - blo + 1.

(** A queued pair of windows lies inside the two sequences. *)
Definition good_range (self : SequenceMatcher.t) (r : Z * Z * Z * Z) : Prop :=
  (0 ≤ r.1.1.1 ∧ r.1.1.1 ≤ r.1.1.2 ∧ r.1.1.2 ≤ len (a self))
  ∧ (0 ≤ r.1.2 ∧ r.1.2 ≤ r.2 ∧ r.2 ≤ len (b self)).

(** The variant of the queue loop. *)
Definition weight (r : Z * Z * Z * Z) : nat :=
  S (2 * Z.to_nat (r.1.1.2 - r.1.1.1)).

Definition queue_weight (queue : list (Z * Z * Z * Z)) : nat :=
  sum_list (weight <$> queue).

(** Total width of the queued windows, on the side of [a] and of [b]. *)
Definition width_a (queue : list (Z * Z * Z * Z)) : Z :=
  foldr (λ r acc, (r.1.1.2 - r.1.1.1) + acc) 0 queue.

Definition width_b (queue : list (Z * Z * Z * Z)) : Z :=
  foldr (λ r acc, (r.2 - r.1.2) + acc) 0 queue.

(** The blocks found and the windows still queued share the sequences. *)
Definition shares (self : SequenceMatcher.t)
    (st : list (Z * Z * Z * Z) * list Match) : Prop :=
  Forall (good_range self) st.1
  ∧ 0 ≤ matches st.2
  ∧ matches st.2 + width_a st.1 ≤ len (a self)
  ∧ matches st.2 + width_b st.1 ≤ len (b self).

(** A double obtained by rounding a mantissa [Q0] of 53 digits at exponent
    [E]: the mantissa stays or goes up by one, and [2^53] becomes [2^52]
    at the next exponent. *)
Definition rounded (Q0 E : Z) (z : spec_float) : Prop :=
  ∃ m', (z = S754_finite false m' E ∧ (Zpos m' = Q0 ∨ Zpos m' = Q0 + 1)
         ∧ Zpos m' < 2 ^ 53)
        ∨ (z = S754_finite false m' (E + 1) ∧ Zpos m' = 2 ^ 52
           ∧ Q0 + 1 = 2 ^ 53).

(** [w'] is [w] after one more POST. *)
Definition one_post (w w' : world) : Prop :=
  service w' = service w ∧ posts w' = S (posts w).

Definition with_board (g : game) (bd : gmap str (gmap Z cell)) : game :=
  {| categories := categories g; points := points g; board := bd;
     score := score g |}.

Definition new_cell (qa : qa_pair) : cell :=
  {| question := qa_question qa; answer := qa_answer qa; answered := false |}.

(** The pair of the [k]-th call, as a total function. *)
Definition qa_at `{Library} (w : world) (k : nat) (category : str)
    (points : Z) : qa_pair :=
  match question_source w k category points with
  | Ok qa => qa
  | _ => backup_question category points
  end.

(** The row and the board that the loops of [initialize_board] build, when
    the [k]-th call of the question source returns [f k category points]. *)
Fixpoint row_after (f : nat → str → Z → qa_pair) (k : nat) (category : str)
    (ps : list Z) (row : gmap Z cell) : gmap Z cell :=
  match ps with
  | [] => row
  | p :: ps' =>
      row_after f (S k) category ps' (<[p := new_cell (f k category p)]> row)
  end.

Fixpoint board_after (f : nat → str → Z → qa_pair) (k : nat) (cs : list str)
    (ps : list Z) (bd : gmap str (gmap Z cell)) : gmap str (gmap Z cell) :=
  match cs with
  | [] => bd
  | c :: cs' =>
      board_after f (k + length ps) cs' ps (<[c := row_after f k c ps ∅]> bd)
  end.


(** The number of characters in the matching blocks of two strings. *)
Definition matched (a b : str) : Z :=
  match get_matching_blocks (make a b) with
  | Ok blocks => matches blocks
  | _ => 0
  end.

(** The word rule of [check_answer], on two normalized strings. *)
Definition word_rule (a b : str) : bool :=
  bool_decide (important_words b ≠ ∅)
  && bool_decide (important_words b ⊆ words a).

(** The game and the world after a turn played on the cell [c] found at
    [category] and [p] in the row [row], [ok] telling whether the answer
    was accepted. *)
Definition after_turn (g : game) (w : world) (category : str) (p : Z)
    (row : gmap Z cell) (c : cell) (ok : bool) : game * world :=
  ({| categories := categories g; points := points g;
      board := <[category := <[p := played c]> row]> (board g);
      score := if ok then score g + p else score g - p |},
   {| service := service w; posts := posts w;
      console := console w
                 ++ [QuestionHeader category p; QuestionText (question c);
                     if ok then Correct
                     else SorryTheCorrectAnswerWas (lower (answer c))] |}).

(** A cell keeps its question and its answer, and stays answered if it
    was. *)
Definition cell_kept (c c' : cell) : Prop :=
  question c' = question c ∧ answer c' = answer c
  ∧ (answered c = true → answered c' = true).

(** The board has a cell for every category and point value of the game. *)
Definition grid_complete (g : game) : Prop :=
  ∀ category points,
    category ∈ categories g → points ∈ JeopardyGame.points g →
    is_Some (cell_at (board g) category points).

(** The text of a place in the table. *)
Definition table_entry (bd : gmap str (gmap Z cell)) (points : Z)
    (category : str) : str :=
  match cell_at bd category points with
  | Some q =>
      if answered q then lit "[dim]----[/dim]"
      else lit "$" ++ str_of_int points
  | None => []
  end.

(** The table of a game. *)
Definition board_table (g : game) : Table :=
  {| title := lit "Jeopardy Board";
     columns := (λ category, {| header := category; justify := lit "center" |})
                <$> categories g;
     rows := (λ points, table_entry (board g) points <$> categories g)
             <$> JeopardyGame.points g |}.

(** The two loops of [display_board], from a row and a table under
    construction. *)
Definition entry_loop (bd : gmap str (gmap Z cell)) (points : Z)
    (cs : list str) (row : list str) : outcome (list str) :=
  for_each cs (λ category row,
    r ← dict_getitem bd category;
    q ← dict_getitem r points;
    if answered q then mret (row ++ [lit "[dim]----[/dim]"])
    else mret (row ++ [lit "$" ++ str_of_int points])) row.

Definition row_loop (bd : gmap str (gmap Z cell)) (cs : list str)
    (ps : list Z) (table : Table) : outcome Table :=
  for_each ps (λ points table,
    row ← entry_loop bd points cs [];
    mret (add_row row table)) table.

(** The session after some more output. *)
Definition showing (s : session) (out : list shown) : session :=
  {| current := current s; backend := backend s;
     requests_made := requests_made s; terminal := terminal s ++ out |}.

(** The world that a method called from a session runs in. *)
Definition world_of (s : session) : world :=
  {| service := backend s; posts := requests_made s; console := [] |}.

(** From [s] to [s']: no POST, the same two lists, more output, and the
    grid kept. *)
Definition session_kept (s s' : session) : Prop :=
  backend s' = backend s
  ∧ requests_made s' = requests_made s
  ∧ categories (current s') = categories (current s)
  ∧ points (current s') = points (current s)
  ∧ (∃ out, terminal s' = terminal s ++ out)
  ∧ ∀ category p,
      option_Forall2 cell_kept (cell_at (board (current s)) category p)
        (cell_at (board (current s')) category p).

(** The board has a row for every category, with a cell for every point
    value. *)
Definition rows_complete (g : game) : Prop :=
  ∀ category, category ∈ categories g →
    ∃ row, board g !! category = Some row
           ∧ ∀ p, p ∈ points g → is_Some (row !! p).

(** The board of a game in progress: complete rows, for the game's
    categories only. *)
Definition playable (g : game) : Prop :=
  rows_complete g ∧ ∀ category, is_Some (board g !! category) →
                                category ∈ categories g.

(** The number of cells still to be played. *)
Definition remaining (bd : gmap str (gmap Z cell)) : nat :=
  length (filter (λ q, answered q = false) (board_cells bd)).

(** [sub in s], computed. *)
Fixpoint occurs (sub s : str) : bool :=
  startswith sub s
  || match s with
     | [] => false
     | _ :: s' => occurs sub s'
     end.

(** The game with another score, and the world after some more lines. *)
Definition with_score (g : game) (sc : Z) : game :=
  {| categories := categories g; points := points g; board := board g;
     score := sc |}.

Definition printing (w : world) (lines : list printed) : world :=
  {| service := service w; posts := posts w;
     console := console w ++ lines |}.

(** The world after one POST. *)
Definition posted (w : world) : world :=
  {| service := service w; posts := S (posts w); console := console w |}.

(** What a run of a method from the state [st] has kept, whatever its
    outcome [r]: the service, the two lists and the score; it has made at
    most [n] POSTs, and exactly [n] when it returned. *)
Definition advanced (n : nat) (st : game * world)
    (r : outcome unit * (game * world)) : Prop :=
  service r.2.2 = service st.2
  ∧ categories r.2.1 = categories st.1
  ∧ points r.2.1 = points st.1
  ∧ score r.2.1 = score st.1
  ∧ (posts st.2 ≤ posts r.2.2 ≤ posts st.2 + n)%nat
  ∧ (r.1 = Ok () → posts r.2.2 = (posts st.2 + n)%nat).

End Inv.
Import Inv.

(* ================================================================== *)
(** * Conditions on the service and on the player *)
(* ================================================================== *)

Module Conditions.

Local Open Scope Z_scope.

(** The exception that a failed generation call raises inside the [try]
    block of [generate_question]: by [requests.post], by
    [raise_for_status], by [json], by the subscript [result['response']]
    or by the call of [strip] on a value that is not a string. *)
Inductive generation_raises : post_result → exn → Prop :=
  | post_raises e : generation_raises (PostRaised e) e
  | status_raises r e :
      raise_for_status r = Some e → generation_raises (PostReturned r) e
  | json_raises r e :
      raise_for_status r = None → json r = inl e →
      generation_raises (PostReturned r) e
  | subscript_raises r v e :
      raise_for_status r = None → json r = inr v →
      subscript v (lit "response") = Raise e →
      generation_raises (PostReturned r) e
  | strip_raises r v x e :
      raise_for_status r = None → json r = inr v →
      subscript v (lit "response") = Ok x →
      as_str x = Raise e →
      generation_raises (PostReturned r) e.

(** Printing [text] returns. *)
Definition prints `{Library} (text : str) : Prop := print_raises text = None.

(** The progress line of each of the categories prints. *)
Definition progress_prints `{Library} (cs : list str) : Prop :=
  ∀ category, category ∈ cs →
    prints (text_of (GeneratingQuestionsFor category)).

(** The calls of [generate_question] that [initialize_board] makes on the
    game [g], started in the world [w], return: the call for the [i]-th
    category and the [j]-th point value is the call number
    [i * len(points) + j]. *)
Definition source_returns `{Library} (g : game) (w : world) : Prop :=
  ∀ i j category p,
    categories g !! i = Some category → points g !! j = Some p →
    ∃ qa, question_source w (i * length (points g) + j) category p = Ok qa.

(** The lines of a turn on the cell [c] print: the header, the question,
    and the line that gives the correct answer. *)
Definition cell_prints `{Library} (category : str) (p : Z) (c : cell)
    : Prop :=
  prints (text_of (QuestionHeader category p))
  ∧ prints (text_of (QuestionText (question c)))
  ∧ prints (text_of (SorryTheCorrectAnswerWas (lower (answer c)))).

(** Every cell of the board can be played without the library raising. *)
Definition board_prints `{Library} (bd : gmap str (gmap Z cell)) : Prop :=
  ∀ category p c, cell_at bd category p = Some c → cell_prints category p c.

(** The pairs that the calls of [initialize_board] return make cells whose
    lines print. *)
Definition source_prints `{Library} (g : game) (w : world) : Prop :=
  ∀ i j category p qa,
    categories g !! i = Some category → points g !! j = Some p →
    question_source w (i * length (points g) + j) category p = Ok qa →
    cell_prints category p
      {| question := qa_question qa; answer := qa_answer qa;
         answered := false |}.

(** A game that the library lets through from the first line to the last:
    the progress lines print, the calls of [generate_question] return, the
    lines of every cell print, and so do the categories, which head the
    columns of the table. *)
Definition prints_safely `{Library} (g : game) (w : world) : Prop :=
  progress_prints (categories g)
  ∧ (∀ category, category ∈ categories g → prints category)
  ∧ source_returns g w
  ∧ source_prints g w.

(** What [rich] guarantees about the entries of a turn that is played: the
    category is one of the game's, and the points are one of the choices
    offered. *)
Definition valid_entries (g : game) (u : prompts) : Prop :=
  continue_playing u = true →
  chosen_category u ∈ categories g
  ∧ ∀ row, board g !! chosen_category u = Some row →
           available_points row ≠ [] →
           chosen_points u ∈ available_points row.

(** The choices offered at "Choose points" for a category. *)
Definition open_points (g : game) (category : str) : list str :=
  match board g !! category with
  | Some row => available_points row
  | None => []
  end.

(** A player who goes on and picks a cell that is still open. *)
Definition picks_open_cell (g : game) (u : prompts) : Prop :=
  continue_playing u = true
  ∧ ∃ row, board g !! chosen_category u = Some row
           ∧ chosen_points u ∈ available_points row.

End Conditions.
Import Conditions.

(** ** A console for the examples *)

(** The tag scanner of [rich.markup.render].  A tag is an opening bracket,
    one of the characters a-z, [#], [/] and [@], then any characters but an
    opening bracket up to the first closing bracket; an odd number of
    backslashes before it makes it plain text.  The name of a tag ends at
    its first [=].  An opening tag is pushed on a stack; a closing tag
    removes the topmost open tag of its name, or the topmost tag when it
    has no name, and raises [MarkupError] when there is none.  Names are
    compared as written, and the styles they stand for are not looked
    up. *)
Module Markup.

Definition tag_start (c : ascii) : bool :=
  let n := N_of_ascii c in
  ((97 <=? n) && (n <=? 122) || (n =? 35) || (n =? 47) || (n =? 64))%N.

(** The characters up to the first closing bracket, when no opening
    bracket comes before it. *)
Fixpoint tag_body (s : str) : option str :=
  match s with
  | [] => None
  | c :: s' =>
      if decide (c = "]"%char) then Some []
      else if decide (c = "["%char) then None
      else (c ::.) <$> tag_body s'
  end.

(** The text of the tag that the characters after an opening bracket
    begin, if they begin one. *)
Definition tag_text (s : str) : option str :=
  match s with
  | c :: _ => if tag_start c then tag_body s else None
  | [] => None
  end.

(** The name of a tag: its text up to the first [=]. *)
Fixpoint tag_name (tag : str) : str :=
  match tag with
  | [] => []
  | c :: s' => if decide (c = "="%char) then [] else c :: tag_name s'
  end.

Fixpoint pop_style (style_name : str) (stack : list str)
    : option (list str) :=
  match stack with
  | [] => None
  | name :: stack' =>
      if decide (name = style_name) then Some stack'
      else (name ::.) <$> pop_style style_name stack'
  end.

(** The stack of open tags after a tag, or the exception raised. *)
Definition apply_tag (tag : str) (stack : list str) : exn + list str :=
  match tag_name tag with
  | "/"%char :: rest =>
      match strip rest with
      | [] =>
          match stack with
          | [] => inl MarkupError
          | _ :: stack' => inr stack'
          end
      | style_name =>
          match pop_style style_name stack with
          | Some stack' => inr stack'
          | None => inl MarkupError
          end
      end
  | name => inr (name :: stack)
  end.

(** The scan of a text.  [stack] holds the names of the open tags, the
    last one first; [escaped] tells whether an odd number of backslashes
    has just been read; [skip] counts the characters of the tag just read
    that are still to be passed over. *)
Fixpoint scan (stack : list str) (escaped : bool) (skip : nat) (s : str)
    : option exn :=
  match s with
  | [] => None
  | c :: s' =>
      match skip with
      | S n => scan stack false n s'
      | O =>
          if decide (c = "092"%char) then scan stack (negb escaped) 0 s'
          else if decide (c = "["%char) then
            match tag_text s' with
            | Some tag =>
                if escaped then scan stack false (S (length tag)) s'
                else
                  match apply_tag tag stack with
                  | inl e => Some e
                  | inr stack' => scan stack' false (S (length tag)) s'
                  end
            | None => scan stack false 0 s'
            end
          else scan stack false 0 s'
      end
  end.

Definition render_raises (markup : str) : option exn := scan [] false 0 markup.

End Markup.

(** A library that raises [MarkupError] on a closing tag that closes
    nothing, and prints every other text. *)
Definition markup_console : Library :=
  {| print_raises := Markup.render_raises; prints_own_lines := eq_refl |}.

(** ** Inputs of the examples *)

Module Examples.

Local Open Scope Z_scope.

(** A service that answers every POST with the text [text]. *)
Definition replying (text : str) : world := {|
  service := λ _ _,
    PostReturned {| raise_for_status := None;
                    json := inr (PyDict [(lit "response", PyStr text)]) |};
  posts := 0;
  console := []
|}.

(** A service that cannot be reached. *)
Definition unreachable : world := {|
  service := λ _ _, PostRaised RequestException;
  posts := 0;
  console := []
|}.

Definition paris_text : str :=
  lit "What is the capital of France?" ++ nl ++ lit "Paris".

Definition panama_text : str :=
  lit "Which Central American country has a canal joining two oceans?"
  ++ nl ++ lit "Panama: Canal".

Definition paris_cell : cell :=
  {| question := lit "What is the capital of France?";
     answer := lit "paris"; answered := false |}.

Definition paris_row : gmap Z cell := {[ 100 := paris_cell ]}.

Definition paris_game : game :=
  {| categories := categories init; points := points init;
     board := {[ lit "Geography" := paris_row ]}; score := 0 |}.

Definition paris_turn : prompts :=
  {| continue_playing := true; chosen_category := lit "Geography";
     chosen_points := lit "100"; your_answer := lit "Paris" |}.


(** A response with an empty line between the question and the answer. *)
Definition blank_line_text : str :=
  lit "What is the capital of France?" ++ nl ++ nl ++ lit "Paris".

(** A game whose only cell has been played. *)
Definition played_game : game :=
  {| categories := categories init; points := points init;
     board := {[ lit "Geography" := {[ 100 := played paris_cell ]} ]};
     score := 100 |}.


(** The session that starts with a game and a world, nothing written. *)
Definition start (g : game) (w : world) : session :=
  {| current := g; backend := service w; requests_made := posts w;
     terminal := [] |}.

(** A player who picks the first open cell, in the order of the game's
    lists, and answers [text]; with nothing left to pick they decline. *)
Definition first_open (text : str) (g : game) : prompts :=
  match list_find (λ category, open_points g category ≠ []) (categories g) with
  | Some (_, category) =>
      {| continue_playing := true; chosen_category := category;
         chosen_points := default [] (head (open_points g category));
         your_answer := text |}
  | None =>
      {| continue_playing := false; chosen_category := [];
         chosen_points := []; your_answer := text |}
  end.

(** A player who declines. *)
Definition declining : prompts :=
  {| continue_playing := false; chosen_category := []; chosen_points := [];
     your_answer := [] |}.

(** A response whose answer carries the prefix. *)
Definition prefixed_text : str :=
  lit "What is the capital of France?" ++ nl ++ lit "Answer: Paris".

(** The exception that [raise_for_status] raises on an error status whose
    reason phrase, which the server chooses, holds a closing tag (the
    status line 404 [/b]). *)
Definition bad_status : exn :=
  WithMessage HTTPError
    (lit "404 Client Error: [/b] for url: "
     ++ lit "http://localhost:11434/api/generate").

(** A service that answers every POST with that status. *)
Definition rejecting : world := {|
  service := λ _ _,
    PostReturned {| raise_for_status := Some bad_status;
                    json := inl JSONDecodeError |};
  posts := 0;
  console := []
|}.

(** A question about markup, as the service may well generate it. *)
Definition bbcode_text : str :=
  lit "Which BBCode tag ends bold text?" ++ nl ++ lit "[/b]".

Definition bbcode_cell : cell :=
  {| question := lit "Which BBCode tag ends bold text?";
     answer := lit "[/b]"; answered := false |}.

Definition bbcode_row : gmap Z cell := {[ 100 := bbcode_cell ]}.

Definition bbcode_game : game :=
  {| categories := categories init; points := points init;
     board := {[ lit "Science" := bbcode_row ]}; score := 0 |}.

(** A player who picks that cell and answers with a word. *)
Definition bbcode_turn : prompts :=
  {| continue_playing := true; chosen_category := lit "Science";
     chosen_points := lit "100"; your_answer := lit "bold" |}.

(** The exception that [requests.post] raises when the port is closed,
    with a message as [requests] words it. *)
Definition connection_refused : exn :=
  WithMessage RequestException
    (lit "HTTPConnectionPool(host='localhost', port=11434): "
     ++ lit "Max retries exceeded with url: /api/generate "
     ++ lit "(Caused by NewConnectionError('Failed to establish "
     ++ lit "a new connection: [Errno 111] Connection refused'))").

Definition refused : world := {|
  service := λ _ _, PostRaised connection_refused;
  posts := 0;
  console := []
|}.

(** The pair that the response about Paris gives. *)
Definition paris_pair : qa_pair :=
  {| qa_question := lit "What is the capital of France?";
     qa_answer := lit "paris" |}.

(** A response whose question holds a closing tag. *)
Definition closing_tag_text : str :=
  lit "Is [/b] a tag?" ++ nl ++ lit "Yes".

End Examples.
Import Examples.

(* ================================================================== *)
(** * Loops and indexing *)
(* ================================================================== *)

Local Open Scope Z_scope.

(** A [while] loop whose body keeps an invariant and decreases a variant
    returns normally when given more fuel than the variant, with the
    invariant established and the condition false. *)
Lemma while_variant {St : Type} (I : St → Prop) (V : St → nat)
    (cond : St → outcome bool) (body : St → outcome St) :
  (∀ s, I s → ∃ c, cond s = Ok c ∧
      (c = true → ∃ s', body s = Ok s' ∧ I s' ∧ (V s' < V s)%nat)) →
  ∀ fuel s, I s → (V s < fuel)%nat →
  ∃ s', while fuel cond body s = Ok s' ∧ I s' ∧ cond s' = Ok false.
Proof.
  intros Hstep fuel. induction fuel as [|fuel IH]; intros s Hs Hv; [lia|].
  destruct (Hstep s Hs) as (c & Hc & Hbody). simpl. rewrite Hc. simpl.
  destruct c.
  - destruct (Hbody eq_refl) as (s' & Hb & Hs' & Hlt). rewrite Hb. simpl.
    apply IH; [done | lia].
  - exists s. done.
Qed.

#[local] Arguments while : simpl never.

Lemma getitem_ok {A : Type} (l : list A) (i : Z) :
  0 ≤ i < len l → ∃ x, getitem l i = Ok x ∧ l !! Z.to_nat i = Some x.
Proof.
  intros Hi. unfold getitem, len in *.
  destruct (Z.ltb_spec i 0); [lia|].
  destruct (Z.ltb_spec i 0); [lia|].
  destruct (l !! Z.to_nat i) as [x|] eqn:E; [eauto|].
  apply lookup_ge_None in E. lia.
Qed.

Lemma len_nil_iff {A : Type} (l : list A) : len l = 0 ↔ l = [].
Proof. unfold len. destruct l; simpl; split; intros; try done; lia. Qed.

(* ================================================================== *)
(** * [find_longest_match] stays inside its windows *)
(* ================================================================== *)

Section find_longest_match_facts.
Variable self : SequenceMatcher.t.
Variables alo ahi blo bhi : Z.
Hypothesis Ha : 0 ≤ alo ∧ alo ≤ ahi ∧ ahi ≤ len (a self).
Hypothesis Hb : 0 ≤ blo ∧ blo ≤ bhi ∧ bhi ≤ len (b self).

Lemma match_row_good js i j2len newj2len best :
  alo ≤ i < ahi →
  good_row alo blo i j2len →
  good_row alo blo (i + 1) newj2len →
  good_best alo ahi blo bhi best →
  good_row alo blo (i + 1) (match_row js i blo bhi j2len newj2len best).1
  ∧ good_best alo ahi blo bhi
      (match_row js i blo bhi j2len newj2len best).2.
Proof.
  intros Hi Hrow. revert newj2len best.
  induction js as [|j js IH]; intros newj2len best Hnew Hbest; simpl; [done|].
  destruct (Z.ltb_spec j blo); [by apply IH|].
  destruct (Z.geb_spec j bhi); [done|].
  assert (Hk : 1 ≤ default 0 (j2len !! (j - 1)) + 1
               ∧ default 0 (j2len !! (j - 1)) + 1 ≤ i + 1 - alo
               ∧ default 0 (j2len !! (j - 1)) + 1 ≤ j - blo + 1).
  { destruct (j2len !! (j - 1)) as [k0|] eqn:E; simpl; [|lia].
    destruct (Hrow _ _ E) as (? & ? & ?). lia. }
  set (k := default 0 (j2len !! (j - 1)) + 1) in *.
  apply IH.
  - intros j' k'. rewrite lookup_insert. case_decide; [|by apply Hnew].
    intros [= <-]. lia.
  - destruct (Z.gtb_spec k best.2); [|done].
    unfold good_best; simpl. lia.
Qed.

Lemma scan_rows_from n : ∀ i j2len best,
  alo ≤ i → i + Z.of_nat n ≤ ahi →
  good_row alo blo i j2len → good_best alo ahi blo bhi best →
  ∃ st, for_each (seqZ i (Z.of_nat n))
          (λ i '(j2len, best),
             ai ← getitem (a self) i;
             let js := default [] (b2j self !! ai) in
             mret (match_row js i blo bhi j2len ∅ best))
          (j2len, best) = Ok st
        ∧ good_best alo ahi blo bhi st.2.
Proof.
  induction n as [|n IH]; intros i j2len best Hi Hn Hrow Hbest.
  - simpl. eauto.
  - rewrite seqZ_cons by lia. simpl.
    destruct (getitem_ok (a self) i) as (ai & -> & _); [lia|]. simpl.
    destruct (match_row_good (default [] (b2j self !! ai)) i j2len ∅ best)
      as [Hr' Hb']; [lia | done | | done |].
    { intros j k. by rewrite lookup_empty. }
    destruct (match_row _ _ _ _ _ _ _) as [j2len' best'] eqn:E.
    replace (Z.pred (Z.of_nat (S n))) with (Z.of_nat n) by lia.
    apply IH; [lia | lia | | done].
    replace (Z.succ i) with (i + 1) by lia. done.
Qed.

Lemma scan_rows_good :
  ∃ st, scan_rows self alo ahi blo bhi (∅, (alo, blo, 0)) = Ok st
        ∧ good_best alo ahi blo bhi st.2.
Proof.
  unfold scan_rows, range.
  replace (ahi - alo) with (Z.of_nat (Z.to_nat (ahi - alo))) by lia.
  apply scan_rows_from; [lia | lia | | unfold good_best; simpl; lia].
  intros j k. by rewrite lookup_empty.
Qed.

Lemma can_grow_left_ok junk m :
  good_best alo ahi blo bhi m →
  ∃ c, can_grow_left self alo blo junk m = Ok c
       ∧ (c = true → alo < m.1.1 ∧ blo < m.1.2).
Proof.
  destruct m as [[i j] k]. unfold good_best, can_grow_left; simpl.
  intros (? & ? & ? & ? & ?).
  destruct (Z.gtb_spec i alo); simpl; [|by exists false].
  destruct (Z.gtb_spec j blo); simpl; [|by exists false].
  destruct (getitem_ok (b self) (j - 1)) as (bj & -> & _); [lia|]. simpl.
  case_bool_decide; [|by exists false].
  destruct (getitem_ok (a self) (i - 1)) as (ai & -> & _); [lia|]. simpl.
  eexists; split; [done|]. lia.
Qed.

Lemma can_grow_right_ok junk m :
  good_best alo ahi blo bhi m →
  ∃ c, can_grow_right self ahi bhi junk m = Ok c
       ∧ (c = true → m.1.1 + m.2 < ahi ∧ m.1.2 + m.2 < bhi).
Proof.
  destruct m as [[i j] k]. unfold good_best, can_grow_right; simpl.
  intros (? & ? & ? & ? & ?).
  destruct (Z.ltb_spec (i + k) ahi); simpl; [|by exists false].
  destruct (Z.ltb_spec (j + k) bhi); simpl; [|by exists false].
  destruct (getitem_ok (b self) (j + k)) as (bj & -> & _); [lia|]. simpl.
  case_bool_decide; [|by exists false].
  destruct (getitem_ok (a self) (i + k)) as (ai & -> & _); [lia|]. simpl.
  eexists; split; [done|]. lia.
Qed.

Lemma grow_left_loop junk m :
  good_best alo ahi blo bhi m →
  ∃ m', while (S (Z.to_nat (m.1.1 - alo))) (can_grow_left self alo blo junk)
          grow_left m = Ok m'
        ∧ good_best alo ahi blo bhi m'.
Proof.
  intros Hm.
  destruct (while_variant (good_best alo ahi blo bhi)
              (λ m, Z.to_nat (m.1.1 - alo))
              (can_grow_left self alo blo junk) grow_left) with
    (fuel := S (Z.to_nat (m.1.1 - alo))) (s := m) as (m' & ? & ? & _);
    [ | done | lia | by eauto].
  intros s Hs. destruct (can_grow_left_ok junk s Hs) as (c & Hc & Hgt).
  exists c. split; [done|]. intros ->. destruct (Hgt eq_refl).
  destruct s as [[i j] k]. unfold good_best in *; simpl in *.
  eexists; split; [done|]. simpl. lia.
Qed.

Lemma grow_right_loop junk m :
  good_best alo ahi blo bhi m →
  ∃ m', while (S (Z.to_nat (ahi - (m.1.1 + m.2))))
          (can_grow_right self ahi bhi junk) grow_right m = Ok m'
        ∧ good_best alo ahi blo bhi m'.
Proof.
  intros Hm.
  destruct (while_variant (good_best alo ahi blo bhi)
              (λ m, Z.to_nat (ahi - (m.1.1 + m.2)))
              (can_grow_right self ahi bhi junk) grow_right) with
    (fuel := S (Z.to_nat (ahi - (m.1.1 + m.2)))) (s := m) as (m' & ? & ? & _);
    [ | done | lia | by eauto].
  intros s Hs. destruct (can_grow_right_ok junk s Hs) as (c & Hc & Hgt).
  exists c. split; [done|]. intros ->. destruct (Hgt eq_refl).
  destruct s as [[i j] k]. unfold good_best in *; simpl in *.
  eexists; split; [done|]. simpl. lia.
Qed.

(** [find_longest_match] returns, and its block lies inside both windows. *)
Lemma find_longest_match_good :
  ∃ m, find_longest_match self alo ahi blo bhi = Ok m
       ∧ good_best alo ahi blo bhi m.
Proof.
  unfold find_longest_match.
  destruct scan_rows_good as ([j2len m0] & -> & H0). simpl in *.
  destruct (grow_left_loop false m0 H0) as (m1 & -> & H1). simpl.
  destruct (grow_right_loop false m1 H1) as (m2 & -> & H2). simpl.
  destruct (grow_left_loop true m2 H2) as (m3 & -> & H3). simpl.
  destruct (grow_right_loop true m3 H3) as (m4 & -> & H4). simpl.
  eauto.
Qed.

End find_longest_match_facts.

(* ================================================================== *)
(** * [get_matching_blocks] and [ratio] return *)
(* ================================================================== *)

Section matching_blocks_facts.
Variable self : SequenceMatcher.t.

Lemma queue_weight_cons r queue :
  queue_weight (r :: queue) = (weight r + queue_weight queue)%nat.
Proof. reflexivity. Qed.

(** One turn of the queue loop keeps the windows inside the sequences and
    lowers the variant. *)
Lemma split_block_ok r queue blocks :
  good_range self r → Forall (good_range self) queue →
  ∃ st, split_block self (r :: queue, blocks) = Ok st
        ∧ Forall (good_range self) st.1
        ∧ (queue_weight st.1 < queue_weight (r :: queue))%nat.
Proof.
  destruct r as [[[alo ahi] blo] bhi]. intros [Hra Hrb] Hq. simpl in Hra, Hrb.
  unfold split_block.
  destruct (find_longest_match_good self alo ahi blo bhi Hra Hrb)
    as ([[i j] k] & -> & Hm).
  unfold good_best in Hm. simpl in Hm.
  cbn [mbind outcome_bind mret outcome_ret].
  case_bool_decide as Hk.
  2:{ eexists; split; [done|]. split; [done|].
      rewrite queue_weight_cons. unfold weight. simpl. lia. }
  destruct (Z.ltb_spec alo i), (Z.ltb_spec blo j),
           (Z.ltb_spec (i + k) ahi), (Z.ltb_spec (j + k) bhi);
    cbn [andb]; (eexists; split; [done|]); cbn [fst];
    rewrite ?queue_weight_cons; unfold weight; cbn [fst snd];
    (split; [ repeat (apply Forall_cons; split;
                      [unfold good_range; cbn [fst snd]; lia|]); done
            | lia ]).
Qed.

Lemma queue_loop_ok :
  ∃ st, while (S (S (2 * length (a self))))
          (λ '(queue, _), mret (bool_decide (queue ≠ [])))
          (split_block self)
          ([(0, len (a self), 0, len (b self))], []) = Ok st.
Proof.
  destruct (while_variant (λ st, Forall (good_range self) st.1)
              (λ st, queue_weight st.1)
              (λ '(queue, _), mret (bool_decide (queue ≠ [])))
              (split_block self)) with
    (fuel := S (S (2 * length (a self))))
    (s := ([(0, len (a self), 0, len (b self))], @nil Match))
    as (st & ? & _); [ | | | by eauto].
  - intros [queue blocks] Hq. eexists; split; [done|].
    intros Hne. apply bool_decide_eq_true in Hne.
    destruct queue as [|r queue]; [done|].
    apply Forall_cons in Hq as [Hr Hq].
    destruct (split_block_ok r queue blocks Hr Hq) as (st & ? & ? & ?).
    eauto.
  - apply Forall_singleton. unfold good_range, len; simpl. lia.
  - unfold queue_weight, weight, len; simpl. lia.
Qed.

Lemma get_matching_blocks_ok :
  ∃ blocks, get_matching_blocks self = Ok blocks.
Proof.
  unfold get_matching_blocks.
  destruct queue_loop_ok as ([queue blocks] & ->). simpl.
  destruct (foldl merge_adjacent _ _) as [[[i1 j1] k1] non_adjacent].
  eauto.
Qed.

Lemma ratio_ok : ∃ q, ratio self = Ok q.
Proof.
  unfold ratio. destruct get_matching_blocks_ok as (blocks & ->).
  simpl. eauto.
Qed.

End matching_blocks_facts.

Lemma make_a a b : SequenceMatcher.a (make a b) = a.
Proof. unfold make. by destruct (chain_b b) as [[??]?]. Qed.

Lemma make_b a b : SequenceMatcher.b (make a b) = b.
Proof. unfold make. by destruct (chain_b b) as [[??]?]. Qed.

(** Against an empty second sequence there is no matching block. *)
Lemma get_matching_blocks_empty_b a :
  get_matching_blocks (make a []) = Ok [(len a, 0, 0)].
Proof.
  unfold get_matching_blocks.
  change (make a []) with
    {| SequenceMatcher.a := a; b := []; b2j := ∅; bjunk := ∅; bpopular := ∅ |}.
  set (self := {| SequenceMatcher.a := a |}).
  cbn [SequenceMatcher.a SequenceMatcher.b self].
  change (len (@nil ascii)) with 0.
  unfold while at 1; fold (@while (list (Z * Z * Z * Z) * list Match)).
  cbn [mbind outcome_bind mret outcome_ret].
  rewrite bool_decide_eq_true_2 by done.
  unfold split_block.
  destruct (find_longest_match_good self 0 (len a) 0 0)
    as ([[i j] k] & -> & Hm).
  { unfold len; simpl; lia. }
  { unfold len; simpl; lia. }
  unfold good_best in Hm; simpl in Hm.
  assert (k = 0) as -> by lia.
  cbn [mbind outcome_bind mret outcome_ret].
  rewrite bool_decide_eq_false_2 by (intros ?; done).
  unfold while at 1; fold (@while (list (Z * Z * Z * Z) * list Match)).
  cbn [mbind outcome_bind mret outcome_ret].
  rewrite bool_decide_eq_false_2 by (intros ?; done).
  reflexivity.
Qed.


(* ================================================================== *)
(** * The matching blocks cover at most each string *)
(* ================================================================== *)

Lemma matches_app l1 l2 : matches (l1 ++ l2) = matches l1 + matches l2.
Proof.
  induction l1 as [|x l1 IH]; simpl; [done|].
  unfold matches in *. simpl. rewrite IH. lia.
Qed.

Lemma matches_Permutation l1 l2 : l1 ≡ₚ l2 → matches l1 = matches l2.
Proof.
  unfold matches. induction 1; simpl; lia.
Qed.

Lemma matches_singleton x : matches [x] = x.2.
Proof. unfold matches. simpl. lia. Qed.

Lemma width_a_cons r queue :
  width_a (r :: queue) = r.1.1.2 - r.1.1.1 + width_a queue.
Proof. reflexivity. Qed.

Lemma width_b_cons r queue :
  width_b (r :: queue) = r.2 - r.1.2 + width_b queue.
Proof. reflexivity. Qed.

Lemma split_block_shares self r queue blocks :
  shares self (r :: queue, blocks) →
  ∃ st, split_block self (r :: queue, blocks) = Ok st
        ∧ shares self st
        ∧ (queue_weight st.1 < queue_weight (r :: queue))%nat.
Proof.
  intros (Hq & Hpos & Ha & Hb). cbn [fst snd] in *.
  apply Forall_cons in Hq as [Hr Hq].
  destruct (split_block_ok self r queue blocks Hr Hq) as (st & Hrun & Hq' & Hw).
  exists st. split; [done|]. split; [|done].
  split; [done|].
  destruct r as [[[alo ahi] blo] bhi]. destruct Hr as [Hra Hrb].
  simpl in Hra, Hrb. unfold split_block in Hrun.
  destruct (find_longest_match_good self alo ahi blo bhi Hra Hrb)
    as ([[i j] k] & Hm & Hgood).
  rewrite Hm in Hrun. unfold good_best in Hgood. simpl in Hgood.
  cbn [mbind outcome_bind mret outcome_ret] in Hrun.
  rewrite width_a_cons in Ha. rewrite width_b_cons in Hb.
  cbn [fst snd] in Ha, Hb.
  case_bool_decide as Hk.
  - destruct (Z.ltb_spec alo i), (Z.ltb_spec blo j),
             (Z.ltb_spec (i + k) ahi), (Z.ltb_spec (j + k) bhi);
      cbn [andb] in Hrun; injection Hrun as <-; cbn [fst snd];
      rewrite matches_app, matches_singleton, ?width_a_cons, ?width_b_cons;
      cbn [fst snd]; lia.
  - injection Hrun as <-. cbn [fst snd]. lia.
Qed.

Lemma queue_loop_shares self :
  ∃ st, while (S (S (2 * length (a self))))
          (λ '(queue, _), mret (bool_decide (queue ≠ [])))
          (split_block self)
          ([(0, len (a self), 0, len (b self))], []) = Ok st
        ∧ 0 ≤ matches st.2 ≤ len (a self) ∧ matches st.2 ≤ len (b self).
Proof.
  destruct (while_variant (shares self)
              (λ st, queue_weight st.1)
              (λ '(queue, _), mret (bool_decide (queue ≠ [])))
              (split_block self)) with
    (fuel := S (S (2 * length (a self))))
    (s := ([(0, len (a self), 0, len (b self))], @nil Match))
    as (st & Hrun & (Hq & Hpos & Ha & Hb) & Hexit).
  - intros [queue blocks] Hs. eexists; split; [done|].
    intros Hne. apply bool_decide_eq_true in Hne.
    destruct queue as [|r queue]; [done|].
    destruct (split_block_shares self r queue blocks Hs) as (st & ? & ? & ?).
    eauto.
  - split; [|split; [|split]]; cbn [fst snd].
    + apply Forall_singleton. unfold good_range, len; simpl. lia.
    + done.
    + unfold matches, width_a; simpl. lia.
    + unfold matches, width_b; simpl. lia.
  - unfold queue_weight, weight, len; simpl. lia.
  - exists st. split; [done|].
    destruct st as [queue blocks]. cbn [fst snd] in *.
    injection Hexit as Hexit. apply bool_decide_eq_false in Hexit.
    assert (queue = []) as ->.
    { destruct queue; [done|]. exfalso. by apply Hexit. }
    unfold width_a, width_b in *. simpl in *. lia.
Qed.

Lemma merge_adjacent_total blocks : ∀ st,
  (foldl merge_adjacent st blocks).1.2
  + matches (foldl merge_adjacent st blocks).2
  = st.1.2 + matches st.2 + matches blocks.
Proof.
  induction blocks as [|[[i2 j2] k2] blocks IH]; intros [[[i1 j1] k1] non_adj].
  - unfold matches; simpl. lia.
  - cbn [foldl]. rewrite IH. unfold merge_adjacent.
    destruct (_ && _); [unfold matches; simpl; lia|].
    case_bool_decide; cbn [fst snd]; rewrite ?matches_app;
      unfold matches; simpl; lia.
Qed.

(** The matching blocks cover at most each of the two strings. *)
Lemma matches_bounds self :
  ∃ blocks, get_matching_blocks self = Ok blocks
    ∧ 0 ≤ matches blocks ≤ len (a self) ∧ matches blocks ≤ len (b self).
Proof.
  unfold get_matching_blocks.
  destruct (queue_loop_shares self) as ([queue blocks] & -> & Ha & Hb).
  cbn [mbind outcome_bind fst snd] in *.
  pose proof (merge_adjacent_total (merge_sort Match_le blocks) (0, 0, 0, []))
    as Htot.
  destruct (foldl merge_adjacent _ _) as [[[i1 j1] k1] non_adjacent].
  cbn [fst snd] in Htot.
  rewrite (matches_Permutation _ _ (merge_sort_Permutation _ _)) in Htot.
  eexists. split; [reflexivity|].
  rewrite matches_app.
  assert (matches (if bool_decide (k1 ≠ 0) then non_adjacent ++ [(i1, j1, k1)]
                   else non_adjacent) = matches blocks) as ->.
  { case_bool_decide; rewrite ?matches_app; unfold matches in *; simpl in *; lia. }
  unfold matches at 2 4 6. simpl. lia.
Qed.

(* ================================================================== *)
(** * The comparison with 0.8 in doubles *)
(* ================================================================== *)

Import Double.

(** Number of binary digits. *)
Lemma digits2_pos_size p : digits2_pos p = Pos.size p.
Proof. induction p; simpl; congruence. Qed.

Lemma digits2_pos_bounds p :
  2 ^ (Zpos (digits2_pos p) - 1) ≤ Zpos p < 2 ^ Zpos (digits2_pos p).
Proof.
  rewrite digits2_pos_size. split.
  - pose proof (Pos.size_le p) as H.
    apply Pos2Z.pos_le_pos in H. rewrite Pos2Z.inj_pow in H.
    rewrite (Pos2Z.inj_xO p) in H.
    replace (Zpos (Pos.size p)) with (Z.succ (Zpos (Pos.size p) - 1)) in H by lia.
    rewrite Z.pow_succ_r in H by lia. lia.
  - pose proof (Pos.size_gt p) as H.
    apply Pos2Z.pos_lt_pos in H. by rewrite Pos2Z.inj_pow in H.
Qed.

Lemma digits2_pos_unique p d :
  2 ^ (d - 1) ≤ Zpos p < 2 ^ d → Zpos (digits2_pos p) = d.
Proof.
  intros [Hlo Hhi]. pose proof (digits2_pos_bounds p) as [Hlo' Hhi'].
  assert (0 < d).
  { destruct (Z.lt_ge_cases 0 d) as [|Hd]; [done|].
    destruct (Z.eq_dec d 0) as [->|]; [simpl in Hhi; lia|].
    rewrite Z.pow_neg_r in Hhi by lia. lia. }
  set (d' := Zpos (digits2_pos p)) in *.
  destruct (Z.lt_trichotomy d' d) as [Hlt|[Heq|Hgt]]; [|done|].
  - assert (2 ^ d' ≤ 2 ^ (d - 1)) by (apply Z.pow_le_mono_r; lia). lia.
  - assert (2 ^ d ≤ 2 ^ (d' - 1)) by (apply Z.pow_le_mono_r; lia). lia.
Qed.

Lemma fexp_normal e : -1021 ≤ e → fexp prec emax e = e - 53.
Proof. intros He. unfold fexp, emin, prec, emax. lia. Qed.

(** [round_nearest_even] moves the mantissa up by at most one. *)
Lemma round_nearest_even_cases m l :
  round_nearest_even m l = m ∨ round_nearest_even m l = m + 1.
Proof.
  destruct l as [|[]]; simpl; auto. destruct (Z.even m); auto.
Qed.

Lemma shr_fexp_53 m e l :
  2 ^ 52 ≤ Zpos m < 2 ^ 53 → -1074 ≤ e →
  shr_fexp prec emax (Zpos m) e l = (shr_record_of_loc (Zpos m) l, e).
Proof.
  intros Hm He. unfold shr_fexp. simpl Zdigits2.
  rewrite (digits2_pos_unique m 53) by done.
  rewrite fexp_normal by lia. replace (53 + e - 53 - e) with 0 by lia. done.
Qed.

Lemma finish_rounding m1 Q0 E :
  2 ^ 52 ≤ Q0 < 2 ^ 53 → m1 = Q0 ∨ m1 = Q0 + 1 → -1074 ≤ E ≤ 970 →
  rounded Q0 E
    (let '(mrs'', e'') := shr_fexp prec emax m1 E loc_Exact in
     match shr_m mrs'' with
     | Z0 => S754_zero false
     | Zpos m => if Z.leb e'' (emax - prec) then S754_finite false m e''
                 else S754_infinity false
     | _ => S754_nan
     end).
Proof.
  intros HQ Hm1 HE.
  destruct (Z.eq_dec m1 (2 ^ 53)) as [->|Hne].
  - (* overflow of the mantissa *)
    unfold shr_fexp. change (Zdigits2 (2 ^ 53)) with 54.
    rewrite fexp_normal by lia. replace (54 + E - 53 - E) with 1 by lia.
    simpl. destruct (Z.leb_spec (E + 1) (emax - prec));
      [|unfold emax, prec in *; lia].
    exists (Z.to_pos (2^52)). right. split; [done|]. split; [done|]. lia.
  - assert (Hm : 2 ^ 52 ≤ m1 < 2 ^ 53) by lia.
    destruct m1 as [|m|m]; [lia| |lia].
    rewrite shr_fexp_53 by (done || lia). simpl.
    destruct (Z.leb_spec E (emax - prec)); [|unfold emax, prec in *; lia].
    exists m. left. split; [done|]. split; [done|lia].
Qed.

Lemma binary_round_aux_53 q E l :
  2 ^ 52 ≤ Zpos q < 2 ^ 53 → -1074 ≤ E ≤ 970 →
  rounded (Zpos q) E (binary_round_aux prec emax false (Zpos q) E l).
Proof.
  intros Hq HE. unfold binary_round_aux.
  rewrite shr_fexp_53 by (done || lia).
  apply finish_rounding; [done | | done].
  replace (shr_m (shr_record_of_loc (Zpos q) l)) with (Zpos q)
    by (by destruct l as [|[]]).
  apply round_nearest_even_cases.
Qed.

Lemma binary_round_aux_exact q E :
  2 ^ 52 ≤ Zpos q < 2 ^ 53 → -1074 ≤ E ≤ 970 →
  binary_round_aux prec emax false (Zpos q) E loc_Exact = S754_finite false q E.
Proof.
  intros Hq HE. unfold binary_round_aux.
  rewrite shr_fexp_53 by (done || lia). simpl.
  rewrite shr_fexp_53 by (done || lia). simpl.
  destruct (Z.leb_spec E (emax - prec)); [done|unfold emax, prec in *; lia].
Qed.

Lemma shr_1_half m r s :
  0 < m → shr_m (shr_1 {| shr_m := m; shr_r := r; shr_s := s |}) = m / 2.
Proof.
  intros Hm. destruct m as [|[p|p|]|]; try lia; simpl.
  - rewrite Pos2Z.inj_xI. apply Z.div_unique with 1; lia.
  - rewrite Pos2Z.inj_xO. apply Z.div_unique with 0; lia.
  - done.
Qed.

Lemma binary_round_aux_54 q E l :
  2 ^ 53 ≤ Zpos q < 2 ^ 54 → -1074 ≤ E ≤ 969 →
  rounded (Zpos q / 2) (E + 1) (binary_round_aux prec emax false (Zpos q) E l).
Proof.
  intros Hq HE. unfold binary_round_aux.
  unfold shr_fexp at 1. simpl Zdigits2.
  rewrite (digits2_pos_unique q 54) by done.
  rewrite fexp_normal by lia. replace (54 + E - 53 - E) with 1 by lia.
  cbn [shr SpecFloat.iter_pos].
  assert (Hhalf : 2 ^ 52 ≤ Zpos q / 2 < 2 ^ 53).
  { split.
    - apply Z.div_le_lower_bound; lia.
    - apply Z.div_lt_upper_bound; lia. }
  apply finish_rounding; [done | | lia].
  rewrite <- (shr_1_half (Zpos q) (shr_r (shr_record_of_loc (Zpos q) l))
                (shr_s (shr_record_of_loc (Zpos q) l))) by lia.
  replace {| shr_m := Zpos q; shr_r := _; shr_s := _ |}
    with (shr_record_of_loc (Zpos q) l) by (by destruct l as [|[]]).
  apply round_nearest_even_cases.
Qed.

Lemma iter_xO_pow p k : Zpos (Pos.iter xO p k) = Zpos p * 2 ^ Zpos k.
Proof.
  induction k as [|k IH] using Pos.peano_ind.
  - simpl. lia.
  - rewrite Pos.iter_succ, Pos2Z.inj_xO, IH, Pos2Z.inj_succ.
    rewrite Z.pow_succ_r by lia. lia.
Qed.

(** The double of a positive integer below 2^53: the integer itself, its
    mantissa shifted to 53 digits. *)
Lemma of_int_normal n :
  0 < n < 2 ^ 53 →
  ∃ m u, of_int n = S754_finite false m (- u)
         ∧ Zpos m = n * 2 ^ u ∧ 2 ^ 52 ≤ Zpos m < 2 ^ 53 ∧ 0 ≤ u ≤ 52.
Proof.
  intros Hn. destruct n as [|p|p]; [lia| |lia].
  unfold of_int, binary_normalize, binary_round.
  pose proof (digits2_pos_bounds p) as [Hlo Hhi].
  set (d := Zpos (digits2_pos p)) in *.
  assert (Hd : 1 ≤ d ≤ 53).
  { split; [unfold d; lia|].
    destruct (Z.le_gt_cases d 53) as [|Hgt]; [done|].
    assert (2 ^ 53 ≤ 2 ^ (d - 1)) by (apply Z.pow_le_mono_r; lia). lia. }
  rewrite fexp_normal by lia. unfold shl_align.
  destruct (d + 0 - 53 - 0) as [|k|k] eqn:Hk; [|lia|].
  - assert (d = 53) as Hd53 by lia. rewrite Hd53 in *.
    rewrite binary_round_aux_exact by (lia || (simpl in *; lia)).
    exists p, 0. simpl. split; [done|]. simpl in *. lia.
  - assert (Hpow : 2 ^ Zpos k * 2 ^ (d - 1) = 2 ^ 52).
    { rewrite <- Z.pow_add_r by lia. f_equal. lia. }
    assert (Hpow' : 2 ^ Zpos k * 2 ^ d = 2 ^ 53).
    { rewrite <- Z.pow_add_r by lia. f_equal. lia. }
    assert (0 < 2 ^ Zpos k) by (apply Z.pow_pos_nonneg; lia).
    pose proof (iter_xO_pow p k) as Hm.
    rewrite binary_round_aux_exact by (nia || lia).
    exists (Pos.iter xO p k), (Zpos k).
    replace (d + 0 - 53) with (- Zpos k) by lia.
    split; [done|]. split; [done|]. split; [nia|lia].
Qed.

Lemma iter_pos_iter {A : Type} (f : A → A) n : ∀ x,
  SpecFloat.iter_pos f n x = Pos.iter f x n.
Proof.
  induction n as [n IH|n IH|]; intros x; simpl; [| |done].
  - by rewrite !IH, !Pos.iter_swap.
  - by rewrite !IH.
Qed.

(** Shifting right what was shifted left loses nothing. *)
Lemma shr_iter_xO m k :
  SpecFloat.iter_pos shr_1 k {| shr_m := Zpos (Pos.iter xO m k); shr_r := false;
                      shr_s := false |}
  = {| shr_m := Zpos m; shr_r := false; shr_s := false |}.
Proof.
  rewrite iter_pos_iter.
  induction k as [|k IH] using Pos.peano_ind; [done|].
  rewrite !Pos.iter_succ, <- Pos.iter_swap. exact IH.
Qed.

(** Doubling changes the exponent only. *)
Lemma mul_two m e :
  2 ^ 52 ≤ Zpos m < 2 ^ 53 → -1000 ≤ e ≤ 900 →
  mul (of_int 2) (S754_finite false m e) = S754_finite false m (e + 1).
Proof.
  intros Hm He.
  change (of_int 2) with (S754_finite false 4503599627370496 (-51)).
  unfold mul, SFmul, binary_round_aux. cbn [xorb].
  change (4503599627370496 * m)%positive with (Pos.iter xO m 52).
  unfold shr_fexp at 1. unfold Zdigits2.
  rewrite (digits2_pos_unique _ 105) by (rewrite iter_xO_pow; lia).
  rewrite fexp_normal by lia.
  replace (105 + (-51 + e) - 53 - (-51 + e)) with 52 by lia.
  unfold shr, shr_record_of_loc. rewrite shr_iter_xO.
  cbn [shr_m loc_of_shr_record round_nearest_even].
  rewrite shr_fexp_53 by (done || lia). cbn [shr_record_of_loc shr_m].
  replace (-51 + e + 52) with (e + 1) by lia.
  destruct (Z.leb_spec (e + 1) (emax - prec));
    [done|unfold emax, prec in *; lia].
Qed.

(** The quotient of two doubles with 53-digit mantissas. *)
Lemma div_normal mx ex my ey :
  2 ^ 52 ≤ Zpos mx < 2 ^ 53 → 2 ^ 52 ≤ Zpos my < 2 ^ 53 →
  -60 ≤ ex ≤ 10 → -60 ≤ ey ≤ 10 →
  (Zpos mx < Zpos my →
   rounded (Zpos mx * 2 ^ 53 / Zpos my) (ex - ey - 53)
     (div (S754_finite false mx ex) (S754_finite false my ey)))
  ∧ (Zpos my ≤ Zpos mx →
     rounded (Zpos mx * 2 ^ 53 / Zpos my / 2) (ex - ey - 52)
       (div (S754_finite false mx ex) (S754_finite false my ey))).
Proof.
  intros Hx Hy Hex Hey.
  unfold div, SFdiv, SFdiv_core_binary. cbn [xorb]. unfold Zdigits2.
  rewrite (digits2_pos_unique mx 53), (digits2_pos_unique my 53) by done.
  rewrite fexp_normal by lia.
  replace (Z.min (53 + ex - (53 + ey) - 53) (ex - ey)) with (ex - ey - 53)
    by lia.
  replace (ex - ey - (ex - ey - 53)) with 53 by lia.
  rewrite Z.shiftl_mul_pow2 by lia.
  set (q := Zpos mx * 2 ^ 53 / Zpos my).
  assert (Hqr : Z.div_eucl (Zpos mx * 2 ^ 53) (Zpos my)
                = (q, (Zpos mx * 2 ^ 53) mod Zpos my)).
  { unfold q, Z.div, Z.modulo. by destruct (Z.div_eucl _ _). }
  rewrite Hqr.
  assert (Hlo : 2 ^ 52 ≤ q).
  { apply Z.div_le_lower_bound; [lia|]. nia. }
  assert (Hhi : q < 2 ^ 54).
  { apply Z.div_lt_upper_bound; [lia|]. nia. }
  destruct q as [|q0|q0] eqn:Hq; [lia| |lia]. rewrite <- Hq in *. subst q.
  split; intros Hcmp.
  - rewrite Hq. apply binary_round_aux_53; [|lia]. rewrite <- Hq. split; [done|].
    apply Z.div_lt_upper_bound; [lia|]. nia.
  - rewrite Hq. replace (ex - ey - 52) with (ex - ey - 53 + 1) by lia.
    apply binary_round_aux_54; [|lia]. rewrite <- Hq. split; [|done].
    apply Z.div_le_lower_bound; [lia|]. nia.
Qed.


Lemma ltb_f08_finite m e :
  ltb f08 (S754_finite false m e)
  = match -53 ?= e with
    | Lt => true
    | Gt => false
    | Eq => match (7205759403792794 ?= m)%positive with
            | Lt => true
            | _ => false
            end
    end.
Proof.
  unfold ltb, SFltb, f08, SFcompare. destruct (-53 ?= e); reflexivity.
Qed.

Lemma pos_compare_lt (c m : positive) :
  Zpos c < Zpos m → (c ?= m)%positive = Lt.
Proof. intros H. exact H. Qed.

Lemma pos_compare_ge (c m : positive) :
  Zpos m ≤ Zpos c → (c ?= m)%positive ≠ Lt.
Proof. intros H Hc. change (Zpos c < Zpos m) in Hc. lia. Qed.

Lemma ltb_f08_above m e :
  -53 < e ∨ (e = -53 ∧ 7205759403792794 < Zpos m) →
  ltb f08 (S754_finite false m e) = true.
Proof.
  intros H. rewrite ltb_f08_finite.
  destruct (Z.compare_spec (-53) e) as [He|He|He].
  - rewrite pos_compare_lt; [reflexivity|]. lia.
  - reflexivity.
  - exfalso. lia.
Qed.

Lemma ltb_f08_below m e :
  e < -53 ∨ (e = -53 ∧ Zpos m ≤ 7205759403792794) →
  ltb f08 (S754_finite false m e) = false.
Proof.
  intros H. rewrite ltb_f08_finite.
  destruct (Z.compare_spec (-53) e) as [He|He|He].
  - assert (Hc : (7205759403792794 ?= m)%positive ≠ Lt).
    { apply pos_compare_ge. lia. }
    destruct (7205759403792794 ?= m)%positive; [reflexivity|congruence|reflexivity].
  - exfalso. lia.
  - reflexivity.
Qed.

Lemma ltb_rounded Q0 E z :
  rounded Q0 E z →
  (E < -53 → ltb f08 z = false)
  ∧ (-53 < E → ltb f08 z = true)
  ∧ (E = -53 → 7205759403792794 < Q0 → ltb f08 z = true)
  ∧ (E = -53 → Q0 < 7205759403792794 → ltb f08 z = false).
Proof.
  intros (m' & [(-> & Hm & Hlt)|(-> & Hm & Hov)]).
  - split; [|split; [|split]]; intros.
    + apply ltb_f08_below. lia.
    + apply ltb_f08_above. lia.
    + apply ltb_f08_above. lia.
    + apply ltb_f08_below. lia.
  - change (2 ^ 52) with 4503599627370496 in Hm.
    change (2 ^ 53) with 9007199254740992 in Hov.
    split; [|split; [|split]]; intros.
    + apply ltb_f08_below. lia.
    + apply ltb_f08_above. lia.
    + apply ltb_f08_above. lia.
    + exfalso. lia.
Qed.


(** The integer part of [2^54 * M / T] decides the comparison with 0.8 when
    [T] is below 2^51. *)
Lemma floor_vs_f08 M T Q0 :
  0 ≤ M → 0 < T < 2251799813685248 →
  Q0 = 18014398509481984 * M / T →
  (Q0 < 7205759403792794 → ¬ 2 * T < 5 * M)
  ∧ (7205759403792794 < Q0 → 2 * T < 5 * M)
  ∧ Q0 ≠ 7205759403792794.
Proof.
  intros HM HT HQ0.
  assert (Hfloor : T * Q0 ≤ 18014398509481984 * M
                   ∧ 18014398509481984 * M < T * Q0 + T).
  { rewrite HQ0.
    pose proof (Z.mod_pos_bound (18014398509481984 * M) T).
    pose proof (Z.div_mod (18014398509481984 * M) T).
    lia. }
  destruct Hfloor as [Hlo Hhi].
  split; [|split].
  - intros Hc.
    assert (T * Q0 + T ≤ T * 7205759403792794).
    { replace (T * Q0 + T) with (T * (Q0 + 1)) by ring.
      apply Z.mul_le_mono_nonneg_l; lia. }
    lia.
  - intros Hc.
    assert (T * 7205759403792795 ≤ T * Q0).
    { apply Z.mul_le_mono_nonneg_l; lia. }
    lia.
  - intros ->. lia.
Qed.

Lemma double_comparison M T :
  0 ≤ M < 2 ^ 51 → 0 < T < 2 ^ 51 →
  ltb f08 (calculate_ratio_double M T) = bool_decide (2 * T < 5 * M).
Proof.
  intros HM HT. unfold calculate_ratio_double.
  change (2 ^ 51) with 2251799813685248 in *.
  rewrite bool_decide_eq_true_2 by lia.
  destruct (Z.eq_dec M 0) as [->|HM0].
  { change (div (mul (of_int 2) (of_int 0)) (of_int T))
      with (div (S754_zero false) (of_int T)).
    destruct (of_int_normal T) as (mT & uT & -> & _);
      [change (2 ^ 53) with 9007199254740992; lia|].
    rewrite bool_decide_eq_false_2 by lia. reflexivity. }
  destruct (of_int_normal M) as (mM & uM & -> & HmM & HbM & HuM);
    [change (2 ^ 53) with 9007199254740992; lia|].
  destruct (of_int_normal T) as (mT & uT & -> & HmT & HbT & HuT);
    [change (2 ^ 53) with 9007199254740992; lia|].
  rewrite mul_two by (assumption || lia).
  destruct (div_normal mM (-uM + 1) mT (-uT)) as [Hlt Hge];
    [assumption | assumption | lia | lia |].
  set (z := div _ _) in *.
  assert (HR : 0 < 2 ^ uM) by (apply Z.pow_pos_nonneg; lia).
  assert (HP : 0 < 2 ^ uT) by (apply Z.pow_pos_nonneg; lia).
  change (2 ^ 52) with 4503599627370496 in *.
  change (2 ^ 53) with 9007199254740992 in *.
  assert (Hsame : ∀ Q0, Q0 = 18014398509481984 * M / T →
            rounded Q0 (-53) z →
            ltb f08 z = bool_decide (2 * T < 5 * M)).
  { intros Q0 HQ0 Hr.
    destruct (ltb_rounded Q0 (-53) z Hr) as (_ & _ & Hup & Hdown).
    destruct (floor_vs_f08 M T Q0) as (Hbelow & Habove & Hne);
      [lia | lia | assumption |].
    destruct (Z.lt_trichotomy Q0 7205759403792794) as [Hc|[Hc|Hc]].
    - rewrite Hdown by (reflexivity || assumption).
      rewrite bool_decide_eq_false_2; [reflexivity|auto].
    - contradiction.
    - rewrite Hup by (reflexivity || assumption).
      rewrite bool_decide_eq_true_2; [reflexivity|auto]. }
  assert (Hfalse : (4 * M < T) → bool_decide (2 * T < 5 * M) = false).
  { intros ?. apply bool_decide_eq_false_2. lia. }
  assert (Htrue : (T ≤ 2 * M) → bool_decide (2 * T < 5 * M) = true).
  { intros ?. apply bool_decide_eq_true_2. lia. }
  set (R := 2 ^ uM) in *. set (P := 2 ^ uT) in *.
  destruct (Z.lt_trichotomy (uT + 1) uM) as [Hk|[Hk|Hk]].
  - (* the quotient is below 1/2 *)
    assert (HRP : R = 2 ^ (uM - uT) * P).
    { unfold R, P. rewrite <- Z.pow_add_r by lia. f_equal. lia. }
    destruct (Z.eq_dec uM (uT + 2)) as [Hk2|Hk2].
    + assert (HR4 : R = 4 * P).
      { rewrite HRP. replace (uM - uT) with 2 by lia. reflexivity. }
      destruct (Z.lt_ge_cases (Zpos mM) (Zpos mT)) as [Hcmp|Hcmp].
      * destruct (ltb_rounded _ _ z (Hlt Hcmp)) as (Hz & _); rewrite Hz by lia.
        symmetry. apply Hfalse.
        apply (Z.mul_lt_mono_pos_r P); [assumption|].
        rewrite HmM, HmT, HR4 in Hcmp. lia.
      * apply (Hsame (Zpos mM * 9007199254740992 / Zpos mT / 2)).
        -- rewrite Z.div_div by lia. rewrite HmM, HmT, HR4.
           replace (M * (4 * P) * 9007199254740992)
             with ((18014398509481984 * M) * (P * 2)) by ring.
           replace (T * P * 2) with (T * (P * 2)) by ring.
           rewrite Z.div_mul_cancel_r by lia. reflexivity.
        -- replace (-53) with (- uM + 1 - - uT - 52) by lia. by apply Hge.
    + assert (HR8 : 8 * P ≤ R).
      { rewrite HRP. assert (2 ^ 3 ≤ 2 ^ (uM - uT))
          by (apply Z.pow_le_mono_r; lia).
        change (2 ^ 3) with 8 in *.
        apply Z.mul_le_mono_nonneg_r; lia. }
      assert (ltb f08 z = false) as ->.
      { destruct (Z.lt_ge_cases (Zpos mM) (Zpos mT)) as [Hcmp|Hcmp].
        - destruct (ltb_rounded _ _ z (Hlt Hcmp)) as (Hz & _);
            rewrite Hz by lia; reflexivity.
        - destruct (ltb_rounded _ _ z (Hge Hcmp)) as (Hz & _);
            rewrite Hz by lia; reflexivity. }
      symmetry. apply Hfalse.
      apply (Z.mul_lt_mono_pos_r P); [assumption|].
      assert (M * (8 * P) ≤ M * R) by (apply Z.mul_le_mono_nonneg_l; lia).
      lia.
  - (* the exponents differ by one *)
    assert (HR2 : R = 2 * P).
    { unfold R, P. rewrite <- Hk, Z.pow_add_r by lia. lia. }
    destruct (Z.lt_ge_cases (Zpos mM) (Zpos mT)) as [Hcmp|Hcmp].
    + apply (Hsame (Zpos mM * 9007199254740992 / Zpos mT)).
      * rewrite HmM, HmT, HR2.
        replace (M * (2 * P) * 9007199254740992)
          with ((18014398509481984 * M) * P) by ring.
        rewrite Z.div_mul_cancel_r by lia. reflexivity.
      * replace (-53) with (- uM + 1 - - uT - 53) by lia. by apply Hlt.
    + destruct (ltb_rounded _ _ z (Hge Hcmp)) as (_ & Hz & _); rewrite Hz by lia.
      symmetry. apply Htrue.
      apply (Z.mul_le_mono_pos_r _ _ P); [assumption|].
      rewrite HmM, HmT, HR2 in Hcmp. lia.
  - (* the quotient is at least 1 *)
    assert (HRP : R ≤ P) by (apply Z.pow_le_mono_r; lia).
    assert (ltb f08 z = true) as ->.
    { destruct (Z.lt_ge_cases (Zpos mM) (Zpos mT)) as [Hcmp|Hcmp].
      - destruct (ltb_rounded _ _ z (Hlt Hcmp)) as (_ & Hz & _);
          rewrite Hz by lia; reflexivity.
      - destruct (ltb_rounded _ _ z (Hge Hcmp)) as (_ & Hz & _);
          rewrite Hz by lia; reflexivity. }
    symmetry. apply Htrue.
    apply (Z.mul_le_mono_pos_r _ _ P); [assumption|].
    assert (M * R ≤ M * P) by (apply Z.mul_le_mono_nonneg_l; lia).
    lia.
Qed.

(** The exact comparison, in integers. *)
Lemma exact_comparison M T :
  0 < T → (0.8 < calculate_ratio M T)%Q ↔ 2 * T < 5 * M.
Proof.
  intros HT. unfold calculate_ratio.
  rewrite bool_decide_eq_true_2 by lia.
  destruct T as [|t|t]; [lia| |lia].
  unfold Qlt, Qdiv, Qmult, Qinv, inject_Z. simpl. lia.
Qed.

(** X1.  The similarity ratio that [check_answer] asks for is always
    computed, the loops of the matcher ending within their bounds, and it
    lies between 0 and 1. *)
Lemma ratio_in_unit_interval self :
  ∃ q, ratio self = Ok q ∧ (0 <= q)%Q ∧ (q <= 1)%Q.
Proof.
  unfold ratio. destruct (matches_bounds self) as (blocks & -> & Ha & Hb).
  eexists. split; [reflexivity|]. unfold calculate_ratio.
  case_bool_decide as HT; [|done].
  assert (0 < len (a self) + len (b self)) by (unfold len in *; lia).
  destruct (len (a self) + len (b self)) as [|t|t] eqn:E; [lia| |lia].
  unfold Qle, Qdiv, Qmult, Qinv, inject_Z. simpl. lia.
Qed.

(** X2.  For two strings of fewer than 2^51 characters in all, the test
    [similarity > 0.8] that Python makes in doubles has the result of the
    exact comparison of the model. *)
Theorem similarity_test_in_doubles a b :
  len a + len b < 2 ^ 51 →
  ∃ blocks,
    get_matching_blocks (make a b) = Ok blocks
    ∧ ltb f08 (calculate_ratio_double (matches blocks) (len a + len b))
      = (if Qlt_le_dec 0.8 (calculate_ratio (matches blocks) (len a + len b))
         then true else false).
Proof.
  intros Hlen.
  destruct (matches_bounds (make a b)) as (blocks & Hrun & Ha & Hb).
  exists blocks. split; [done|].
  rewrite make_a in Ha. rewrite make_b in Hb.
  destruct (Z.eq_dec (len a + len b) 0) as [H0|H0].
  { rewrite H0. reflexivity. }
  assert (0 < len a + len b) by (unfold len in *; lia).
  rewrite double_comparison by lia.
  destruct (Qlt_le_dec _ _) as [Hq|Hq].
  - apply exact_comparison in Hq; [|done]. by apply bool_decide_eq_true_2.
  - apply bool_decide_eq_false_2. intros Hlt.
    apply exact_comparison in Hlt; [|done]. by apply Qlt_not_le in Hlt.
Qed.

(* ================================================================== *)
(** * Lowercasing and stripping *)
(* ================================================================== *)

Ltac each_char c :=
  destruct c as [[] [] [] [] [] [] [] []]; vm_compute; reflexivity.

Lemma lower_char_idemp c : lower_char (lower_char c) = lower_char c.
Proof. each_char c. Qed.

Lemma isspace_lower_char c : isspace (lower_char c) = isspace c.
Proof. each_char c. Qed.

Lemma lower_idemp s : lower (lower s) = lower s.
Proof.
  unfold lower. rewrite <- list_fmap_compose. apply list_fmap_ext.
  intros _ c _. apply lower_char_idemp.
Qed.

Lemma lower_reverse s : lower (reverse s) = reverse (lower s).
Proof. apply fmap_reverse. Qed.

Lemma lower_lstrip s : lower (lstrip s) = lstrip (lower s).
Proof.
  induction s as [|c s IH]; [done|]. simpl.
  rewrite isspace_lower_char. by destruct (isspace c).
Qed.

Lemma lower_rstrip s : lower (rstrip s) = rstrip (lower s).
Proof.
  unfold rstrip. by rewrite lower_reverse, lower_lstrip, lower_reverse.
Qed.

Lemma lower_strip s : lower (strip s) = strip (lower s).
Proof. unfold strip. by rewrite lower_rstrip, lower_lstrip. Qed.

Lemma forallb_isspace_lower s :
  forallb isspace (lower s) = forallb isspace s.
Proof.
  induction s as [|ch s IH]; [done|]. simpl.
  by rewrite isspace_lower_char, IH.
Qed.

Lemma forallb_reverse {A : Type} (f : A → bool) l :
  forallb f (reverse l) = forallb f l.
Proof.
  induction l as [|x l IH]; [done|].
  rewrite reverse_cons, forallb_app, IH. simpl.
  destruct (f x), (forallb f l); done.
Qed.

Lemma lstrip_app l1 l2 :
  lstrip (l1 ++ l2)
  = if forallb isspace l1 then lstrip l2 else lstrip l1 ++ l2.
Proof.
  induction l1 as [|c l1 IH]; [done|]. simpl.
  destruct (isspace c); [done|]. done.
Qed.

Lemma lstrip_all_space s : forallb isspace s = true → lstrip s = [].
Proof.
  induction s as [|c s IH]; [done|]. simpl.
  destruct (isspace c); [done|]. done.
Qed.

Lemma lstrip_nil_inv s : lstrip s = [] → forallb isspace s = true.
Proof.
  induction s as [|c s IH]; [done|]. simpl.
  destruct (isspace c); [done|]. done.
Qed.

Lemma forallb_isspace_lstrip s :
  forallb isspace (lstrip s) = forallb isspace s.
Proof.
  induction s as [|c s IH]; [done|]. simpl.
  destruct (isspace c) eqn:E; [done|]. simpl. by rewrite E.
Qed.

Lemma rstrip_cons c t :
  rstrip (c :: t)
  = if forallb isspace t then (if isspace c then [] else [c])
    else c :: rstrip t.
Proof.
  unfold rstrip. rewrite reverse_cons, lstrip_app, forallb_reverse.
  destruct (forallb isspace t).
  - simpl. by destruct (isspace c).
  - by rewrite reverse_app.
Qed.

Lemma lstrip_idemp s : lstrip (lstrip s) = lstrip s.
Proof.
  induction s as [|c s IH]; [done|]. simpl.
  destruct (isspace c) eqn:E; [done|]. simpl. by rewrite E.
Qed.

Lemma rstrip_idemp s : rstrip (rstrip s) = rstrip s.
Proof. unfold rstrip. by rewrite reverse_involutive, lstrip_idemp. Qed.

Lemma lstrip_rstrip s : lstrip (rstrip s) = rstrip (lstrip s).
Proof.
  induction s as [|c s IH]; [done|].
  rewrite rstrip_cons. simpl.
  destruct (forallb isspace s) eqn:Hs.
  - destruct (isspace c) eqn:Hc; simpl.
    + by rewrite (lstrip_all_space s Hs).
    + by rewrite Hc, rstrip_cons, Hs, Hc.
  - destruct (isspace c) eqn:Hc; simpl; rewrite Hc; [done|].
    by rewrite rstrip_cons, Hs.
Qed.

Lemma strip_idemp s : strip (strip s) = strip s.
Proof.
  unfold strip. by rewrite lstrip_rstrip, lstrip_idemp, rstrip_idemp.
Qed.

(** A string strips to nothing exactly when it is all whitespace. *)
Lemma strip_nil_iff s : strip s = [] ↔ forallb isspace s = true.
Proof.
  unfold strip, rstrip. split.
  - intros H. apply (f_equal reverse) in H.
    rewrite reverse_involutive in H. simpl in H.
    apply lstrip_nil_inv in H.
    by rewrite forallb_reverse, forallb_isspace_lstrip in H.
  - intros H. by rewrite (lstrip_all_space s H).
Qed.

Lemma normalize_twice s : normalize (normalize s) = normalize s.
Proof.
  unfold normalize. by rewrite lower_strip, lower_idemp, strip_idemp.
Qed.

(* ================================================================== *)
(** * [check_answer] *)
(* ================================================================== *)

Lemma check_answer_returns p c : ∃ r : bool, check_answer p c = Ok r.
Proof.
  unfold check_answer. case_decide; [by eauto|].
  destruct (ratio_ok (make (strip (lower p)) (strip (lower c)))) as (q & ->).
  simpl. destruct (Qlt_le_dec _ _); [by eauto|].
  destruct (_ && _); eauto.
Qed.

Lemma check_answer_lower p c :
  check_answer (lower p) (lower c) = check_answer p c.
Proof. unfold check_answer. by rewrite !lower_idemp. Qed.

(** C1.  [check_answer] returns true exactly when, on the normalized
    strings, they are equal, or their similarity ratio is above 0.8, or the
    important words of the correct answer form a non-empty subset of the
    player's words; otherwise it returns false. *)
Theorem check_answer_accepts_iff p c :
  (check_answer p c = Ok true ↔ Spec.accepts p c)
  ∧ (check_answer p c = Ok false ↔ ¬ Spec.accepts p c).
Proof.
  assert (Hdec : check_answer p c = Ok true ∧ Spec.accepts p c
                 ∨ check_answer p c = Ok false ∧ ¬ Spec.accepts p c).
  { unfold check_answer, Spec.accepts, normalize, ratio_exceeds, ratio.
    set (a := strip (lower p)). set (b := strip (lower c)).
    case_decide as Hab; [left; split; [done | by left]|].
    destruct (get_matching_blocks_ok (make a b)) as (blocks & Hbl).
    rewrite Hbl, make_a, make_b. cbn [mbind outcome_bind mret outcome_ret].
    assert (HT : len a + len b ≠ 0).
    { intros HT. apply Hab.
      assert (len a = 0 ∧ len b = 0) as [Ha Hb] by (unfold len in *; lia).
      apply len_nil_iff in Ha, Hb. congruence. }
    unfold calculate_ratio. rewrite bool_decide_eq_true_2 by done.
    destruct (Qlt_le_dec _ _) as [Hr|Hr].
    { left. split; [done|]. right; left. eauto. }
    fold (words a) (words b) (important_words b).
    destruct (bool_decide (important_words b ≠ ∅)
              && bool_decide (important_words b ⊆ words a)) eqn:Hw.
    { left. split; [done|]. right; right.
      apply andb_true_iff in Hw as [H1 H2].
      by apply bool_decide_eq_true in H1, H2. }
    right. split; [done|].
    intros [?|[(blocks' & Hbl' & Hlt)|[H1 H2]]]; [done| |].
    - assert (blocks' = blocks) as -> by congruence.
      by apply Qlt_not_le in Hlt.
    - apply andb_false_iff in Hw as [Hw|Hw];
        apply bool_decide_eq_false in Hw; done. }
  destruct Hdec as [[-> Hs]|[-> Hs]]; split; split; try done.
Qed.

(** C2.  [check_answer] is total: on every pair of strings it returns a
    boolean; it neither raises nor runs forever. *)
Theorem check_answer_total p c :
  (∃ r : bool, check_answer p c = Ok r)
  ∧ (∀ e, check_answer p c ≠ Raise e)
  ∧ check_answer p c ≠ Diverge.
Proof.
  destruct (check_answer_returns p c) as (r & ->).
  split; [by eauto|]. split; [intros e|]; discriminate.
Qed.

(** C7.  The unrelated and the partial answers of the fixtures are
    rejected. *)
Theorem check_answer_rejects_fixtures :
  check_answer (lit "mars") (lit "venus") = Ok false
  ∧ check_answer (lit "pacific ocean") (lit "atlantic ocean") = Ok false
  ∧ check_answer (lit "new") (lit "new york city") = Ok false
  ∧ check_answer (lit "cat") (lit "category") = Ok false.
Proof. repeat split; vm_compute; reflexivity. Qed.

(** C8.  The two near-miss spellings of "mount everest" are accepted, and
    their similarity ratio is above 0.8. *)
Theorem check_answer_accepts_typos :
  check_answer (lit "mount everst") (lit "mount everest") = Ok true
  ∧ check_answer (lit "mount everust") (lit "mount everest") = Ok true
  ∧ ratio_exceeds (lit "mount everst") (lit "mount everest") 0.8
  ∧ ratio_exceeds (lit "mount everust") (lit "mount everest") 0.8.
Proof.
  repeat split; try (vm_compute; reflexivity);
    (eexists; split; [vm_compute; reflexivity | vm_compute; reflexivity]).
Qed.

(** C9.  [check_answer] gives the same result on its arguments and on
    their lowercased, stripped forms; "PARIS" and "  paris  " are accepted
    for "paris". *)
Theorem check_answer_normalizes p c :
  check_answer p c = check_answer (strip (lower p)) (strip (lower c))
  ∧ check_answer (lit "PARIS") (lit "paris") = Ok true
  ∧ check_answer (lit "  paris  ") (lit "paris") = Ok true.
Proof.
  split; [|split; vm_compute; reflexivity].
  unfold check_answer. fold (normalize p) (normalize c).
  fold (normalize (normalize p)) (normalize (normalize c)).
  by rewrite !normalize_twice.
Qed.

(** C10.  Against the empty correct answer, [check_answer] returns true
    exactly for the players' strings made of whitespace only, that is,
    those that normalize to the empty string; the similarity ratio is never
    above 0.8 and there are no important words. *)
Theorem check_answer_empty_correct p :
  check_answer p [] = Ok (forallb isspace p)
  ∧ (forallb isspace p = true ↔ strip (lower p) = [])
  ∧ ¬ ratio_exceeds (normalize p) (normalize []) 0.8
  ∧ important_words (normalize []) = ∅.
Proof.
  assert (Hsp : forallb isspace p = true ↔ strip (lower p) = []).
  { by rewrite strip_nil_iff, forallb_isspace_lower. }
  assert (Hratio : ¬ ratio_exceeds (normalize p) (normalize []) 0.8).
  { intros (blocks & Hbl & Hlt). change (normalize []) with (@nil ascii) in *.
    rewrite get_matching_blocks_empty_b in Hbl. injection Hbl as <-.
    revert Hlt. unfold matches, Qlt. simpl. lia. }
  split; [|split; [done|]; split; [done|reflexivity]].
  unfold check_answer.
  change (strip (lower [])) with (@nil ascii).
  case_decide as Hab.
  { apply Hsp in Hab. by rewrite Hab. }
  assert (forallb isspace p = false) as ->.
  { destruct (forallb isspace p); [|done]. by destruct Hab; apply Hsp. }
  unfold ratio. rewrite get_matching_blocks_empty_b.
  cbn [mbind outcome_bind mret outcome_ret].
  rewrite make_a, make_b.
  destruct (Qlt_le_dec _ _) as [Hlt|_]; [|reflexivity].
  exfalso. apply Hratio. eexists.
  split; [apply get_matching_blocks_empty_b|].
  revert Hlt. unfold calculate_ratio, normalize.
  case_bool_decide as HT; [done|].
  exfalso. apply Hab.
  apply len_nil_iff. change (len (@nil ascii)) with 0 in HT. lia.
Qed.

(* ================================================================== *)
(** * Running the methods *)
(* ================================================================== *)

(** From here on the library is arbitrary. *)
Section with_library.
Context {rich : Library}.

Lemma M_bind_run {A B : Type} (m : M A) (f : A → M B) st :
  (m ≫= f) st
  = match m st with
    | (Ok x, st') => f x st'
    | (Raise e, st') => (Raise e, st')
    | (Diverge, st') => (Diverge, st')
    end.
Proof. reflexivity. Qed.

Lemma lift_run {A : Type} (o : outcome A) st : lift o st = (o, st).
Proof. reflexivity. Qed.

Lemma mret_run {A : Type} (x : A) (st : game * world) :
  (mret x : M A) st = (Ok x, st).
Proof. reflexivity. Qed.

Lemma requests_post_run req g w :
  requests_post req (g, w)
  = (match service w (posts w) req with
     | PostRaised e => Raise e
     | PostReturned r => Ok r
     end, (g, {| service := service w; posts := S (posts w);
                 console := console w |})).
Proof. unfold requests_post. by destruct (service w (posts w) req). Qed.

Lemma console_print_run line g w :
  console_print line (g, w)
  = match print_raises (text_of line) with
    | Some e => (Raise e, (g, w))
    | None => (Ok (), (g, printing w [line]))
    end.
Proof. reflexivity. Qed.

Lemma console_print_prints line g w :
  prints (text_of line) →
  console_print line (g, w) = (Ok (), (g, printing w [line])).
Proof. intros Hp. rewrite console_print_run. by rewrite Hp. Qed.

(** The library prints the lines of the module itself. *)
Lemma own_line_prints text : text ∈ own_lines → prints text.
Proof.
  intros Hin. pose proof prints_own_lines as Hall.
  rewrite forallb_forall in Hall. apply list_elem_of_In, Hall in Hin.
  unfold prints. by destruct (print_raises text).
Qed.

Lemma no_more_questions_prints : prints (text_of NoMoreQuestions).
Proof. apply own_line_prints. left. Qed.

Lemma correct_prints : prints (text_of Correct).
Proof. apply own_line_prints. right. left. Qed.

Lemma progress_prints_init : progress_prints (categories init).
Proof.
  intros category Hin. apply own_line_prints. do 2 right.
  apply list_elem_of_fmap. by exists category.
Qed.

Lemma printing_nil w : printing w [] = w.
Proof. destruct w. unfold printing. simpl. by rewrite app_nil_r. Qed.

Lemma get_self_run g w : get_self (g, w) = (Ok g, (g, w)).
Proof. reflexivity. Qed.

Lemma set_board_run bd g w :
  set_board bd (g, w) = (Ok (), (with_board g bd, w)).
Proof. reflexivity. Qed.

Lemma set_score_run sc g w :
  set_score sc (g, w) = (Ok (), (with_score g sc, w)).
Proof. reflexivity. Qed.

Lemma sleep_run t st : sleep t st = (Ok (), st).
Proof. reflexivity. Qed.

Lemma with_board_id g : with_board g (board g) = g.
Proof. by destruct g. Qed.

Lemma with_board_twice g bd bd' :
  with_board (with_board g bd) bd' = with_board g bd'.
Proof. reflexivity. Qed.

Lemma board_with_board g bd : board (with_board g bd) = bd.
Proof. reflexivity. Qed.

Lemma points_with_board g bd : points (with_board g bd) = points g.
Proof. reflexivity. Qed.

Lemma categories_with_board g bd :
  categories (with_board g bd) = categories g.
Proof. reflexivity. Qed.

(** Symbolic execution of a method on a state. *)
Ltac run_step :=
  first
    [ rewrite M_bind_run
    | rewrite lift_run
    | rewrite mret_run
    | rewrite get_self_run
    | rewrite set_board_run
    | rewrite set_score_run
    | rewrite sleep_run
    | rewrite requests_post_run
    | progress cbn [mbind outcome_bind mret outcome_ret fst snd
                    service posts console] ].

Ltac run := repeat run_step.

Ltac run_board :=
  repeat first
    [ run_step
    | rewrite with_board_twice
    | rewrite board_with_board
    | rewrite points_with_board
    | rewrite categories_with_board ].

(* ================================================================== *)
(** * [generate_question] *)
(* ================================================================== *)

(** When the response parses, its first two lines give the pair. *)
Lemma generate_question_parses category points g w text :
  generation_succeeds
    (service w (posts w) (generation_request category points)) text →
  ∃ line1 line2 rest,
    split_sep "010" (strip text) = line1 :: line2 :: rest
    ∧ generate_question category points (g, w)
      = (Ok {| qa_question := strip line1;
               qa_answer :=
                 strip (replace (lit "a:") []
                          (replace (lit "answer:") []
                             (lower (strip line2)))) |}, (g, posted w)).
Proof.
  intros (r & v & Hr & Hs & Hj & Hsub & Hlines).
  unfold generate_question, try_except. run.
  rewrite Hr. run. rewrite Hs. run. rewrite Hj. run. rewrite Hsub.
  unfold as_str. run. unfold two_lines in Hlines.
  destruct (Z.geb_spec (len (split_sep "010" (strip text))) 2); [|lia].
  destruct (split_sep "010" (strip text)) as [|l0 [|l1 ls]] eqn:Hl;
    [unfold len in Hlines; simpl in Hlines; lia ..|].
  run. cbn [getitem]. simpl. run.
  eexists _, _, _. split; reflexivity.
Qed.

Lemma subscript_converges v key : subscript v key ≠ Diverge.
Proof.
  destruct v; try done. simpl. by destruct (list_find _ _) as [[? [? ?]]|].
Qed.

Lemma as_str_cases x :
  (∃ text, x = PyStr text) ∨ (∃ e, as_str x = Raise e).
Proof. destruct x; simpl; eauto. Qed.

(** The failures that raise are failures as the specification lists
    them. *)
Lemma generation_raises_fails reply e :
  generation_raises reply e → generation_fails reply.
Proof.
  intros Hr.
  destruct Hr as [e | r e Hs | r e Hs Hj | r v e Hs Hj Hsub
                  | r v x e Hs Hj Hsub Hx].
  - constructor.
  - by eapply http_error_status.
  - by eapply body_not_json.
  - eapply no_response_text; [done|]. congruence.
  - eapply no_response_text; [done|]. intros text Heq.
    rewrite Hsub in Heq. injection Heq as ->. done.
Qed.

(** Every reply of the service either makes the [try] block raise or
    carries a text. *)
Lemma generation_raises_or_returns reply :
  (∃ e, generation_raises reply e)
  ∨ ∃ r v text,
      reply = PostReturned r ∧ raise_for_status r = None ∧ json r = inr v
      ∧ subscript v (lit "response") = Ok (PyStr text).
Proof.
  destruct reply as [e|r]; [left; eexists; constructor|].
  destruct (raise_for_status r) as [e|] eqn:Hs;
    [left; eexists; by eapply status_raises|].
  destruct (json r) as [e|v] eqn:Hj;
    [left; eexists; by eapply json_raises|].
  destruct (subscript v (lit "response")) as [x|e|] eqn:Hsub.
  3:{ by destruct (subscript_converges v (lit "response")). }
  2:{ left. eexists. by eapply subscript_raises. }
  destruct (as_str_cases x) as [[text ->]|[e He]].
  - right. by exists r, v, text.
  - left. eexists. by eapply strip_raises.
Qed.

(** An exception raised in the [try] block reaches the handler, which
    prints its line and then returns the backup pair; when the print
    raises, that exception leaves the method. *)
Lemma generate_question_handles category points g w e :
  generation_raises
    (service w (posts w) (generation_request category points)) e →
  generate_question category points (g, w)
  = match print_raises (text_of (ErrorGeneratingQuestion e)) with
    | Some e' => (Raise e', (g, posted w))
    | None =>
        (Ok (backup_question category points),
         (g, printing (posted w) [ErrorGeneratingQuestion e]))
    end.
Proof.
  intros Hr. unfold generate_question, try_except. run.
  inversion Hr as [e0 He | r e0 Hs He | r e0 Hs Hj He | r v e0 Hs Hj Hsub He
                   | r v x e0 Hs Hj Hsub Hx He]; subst; run.
  - rewrite console_print_run. by destruct (print_raises _).
  - rewrite Hs. run. rewrite console_print_run. by destruct (print_raises _).
  - rewrite Hs. run. rewrite Hj. run. rewrite console_print_run.
    by destruct (print_raises _).
  - rewrite Hs. run. rewrite Hj. run. rewrite Hsub. run.
    rewrite console_print_run. by destruct (print_raises _).
  - rewrite Hs. run. rewrite Hj. run. rewrite Hsub. run. rewrite Hx. run.
    rewrite console_print_run. by destruct (print_raises _).
Qed.

(** A text of fewer than two lines gives the backup pair at once. *)
Lemma generate_question_short category points g w r v text :
  service w (posts w) (generation_request category points) = PostReturned r →
  raise_for_status r = None →
  json r = inr v →
  subscript v (lit "response") = Ok (PyStr text) →
  ¬ two_lines text →
  generate_question category points (g, w)
  = (Ok (backup_question category points), (g, posted w)).
Proof.
  intros Hr Hs Hj Hsub Hl. unfold generate_question, try_except. run.
  rewrite Hr. run. rewrite Hs. run. rewrite Hj. run. rewrite Hsub.
  unfold as_str. run. unfold two_lines in Hl.
  destruct (Z.geb_spec (len (split_sep "010" (strip text))) 2); [lia|].
  by run.
Qed.

Lemma replace_from_Forall (P : ascii → Prop) old s : ∀ skip,
  Forall P s → Forall P (replace_from old [] skip s).
Proof.
  induction s as [|c s IH]; intros skip Hs; [done|].
  apply Forall_cons in Hs as [Hc Hs]. cbn [replace_from].
  destruct skip; [|by apply IH].
  destruct (startswith old (c :: s)); [by apply IH|].
  apply Forall_cons. split; [done|by apply IH].
Qed.

Lemma lstrip_Forall (P : ascii → Prop) s : Forall P s → Forall P (lstrip s).
Proof.
  induction s as [|c s IH]; intros Hs; [done|]. simpl.
  destruct (isspace c); [|done]. apply IH. by apply Forall_cons in Hs as [_ ?].
Qed.

Lemma strip_Forall (P : ascii → Prop) s : Forall P s → Forall P (strip s).
Proof.
  intros Hs. unfold strip, rstrip.
  apply Forall_reverse, lstrip_Forall, Forall_reverse. by apply lstrip_Forall.
Qed.

Lemma lower_Forall s : Forall (λ c, lower_char c = c) (lower s).
Proof.
  unfold lower. apply Forall_fmap, Forall_forall. intros c _. simpl.
  apply lower_char_idemp.
Qed.

Lemma lower_fixed s : Forall (λ c, lower_char c = c) s → lower s = s.
Proof.
  induction 1 as [|c s Hc _ IH]; [done|]. unfold lower in *.
  rewrite fmap_cons. by rewrite Hc, IH.
Qed.

(** The answer cut out of a line is in lower case and trimmed. *)
Lemma stored_answer_normalized line :
  normalize (strip (replace (lit "a:") []
                      (replace (lit "answer:") [] (lower line))))
  = strip (replace (lit "a:") [] (replace (lit "answer:") [] (lower line))).
Proof.
  unfold normalize. rewrite lower_fixed.
  - apply strip_idemp.
  - apply strip_Forall. unfold replace.
    apply replace_from_Forall, replace_from_Forall, lower_Forall.
Qed.

(** The two ways a call ends: through the handler, or with a pair and
    nothing printed. *)
Lemma generate_question_cases category points g w :
  (∃ e,
     generation_raises
       (service w (posts w) (generation_request category points)) e
     ∧ generate_question category points (g, w)
       = match print_raises (text_of (ErrorGeneratingQuestion e)) with
         | Some e' => (Raise e', (g, posted w))
         | None =>
             (Ok (backup_question category points),
              (g, printing (posted w) [ErrorGeneratingQuestion e]))
         end)
  ∨ (∃ qa,
       generate_question category points (g, w) = (Ok qa, (g, posted w))
       ∧ normalize (qa_answer qa) = qa_answer qa).
Proof.
  destruct (generation_raises_or_returns
              (service w (posts w) (generation_request category points)))
    as [[e He]|(r & v & text & Hr & Hs & Hj & Hsub)].
  - left. exists e. split; [done|]. by apply generate_question_handles.
  - right. destruct (decide (two_lines text)) as [Hl|Hl].
    + destruct (generate_question_parses category points g w text)
        as (line1 & line2 & rest & _ & Hrun).
      { exists r, v. done. }
      eexists. split; [exact Hrun|]. apply stored_answer_normalized.
    + eexists. split; [by eapply generate_question_short|done].
Qed.

(** A call leaves the game as it is, counts one POST and only adds lines
    to the terminal. *)
Lemma generate_question_frame category points g w :
  ∃ lines,
    (generate_question category points (g, w)).2
    = (g, printing (posted w) lines).
Proof.
  destruct (generate_question_cases category points g w)
    as [(e & _ & ->)|(qa & -> & _)].
  - destruct (print_raises _); [exists []|by eexists].
    by rewrite printing_nil.
  - exists []. by rewrite printing_nil.
Qed.

(** The outcome does not depend on the game or on the terminal. *)
Lemma generate_question_result category points g w g0 w0 :
  service w0 = service w → posts w0 = posts w →
  (generate_question category points (g0, w0)).1
  = (generate_question category points (g, w)).1.
Proof.
  intros Hs Hp. unfold generate_question, try_except. run.
  rewrite Hs, Hp.
  destruct (service w (posts w) _) as [e|r]; run;
    [rewrite !console_print_run; by destruct (print_raises _)|].
  destruct (raise_for_status r); run;
    [rewrite !console_print_run; by destruct (print_raises _)|].
  destruct (json r) as [e|v]; run;
    [rewrite !console_print_run; by destruct (print_raises _)|].
  destruct (subscript v _) as [x|e|]; run;
    [|rewrite !console_print_run; by destruct (print_raises _)|done].
  destruct (as_str x) as [text|e|]; run;
    [|rewrite !console_print_run; by destruct (print_raises _)|done].
  destruct (_ >=? _); run; [|done].
  destruct (getitem _ 0); run;
    [|rewrite !console_print_run; by destruct (print_raises _)|done].
  destruct (getitem _ 1); run;
    [done|rewrite !console_print_run; by destruct (print_raises _)|done].
Qed.

Lemma backup_question_contains category points :
  qa_answer (backup_question category points) = lit "backup"
  ∧ contains category (qa_question (backup_question category points))
  ∧ contains (str_of_int points)
      (qa_question (backup_question category points)).
Proof.
  split; [done|]. split.
  - by exists (lit "This "), (lit " question is worth $" ++ str_of_int points).
  - exists (lit "This " ++ category ++ lit " question is worth $"), [].
    simpl. by rewrite app_nil_r, <- !app_assoc.
Qed.

(** C3 fails on the code.  The handler of [generate_question] prints the
    message of the exception it has caught, and that print is itself
    outside any [try]: when the generation call fails with an exception
    whose line the library refuses (an HTTP error whose reason phrase holds
    a closing tag, for one), the exception of the print leaves
    [generate_question], after the POST and with nothing printed, and no
    pair is returned. *)
Theorem generate_question_raises_from_handler category points g w e e' :
  generation_raises
    (service w (posts w) (generation_request category points)) e →
  print_raises (text_of (ErrorGeneratingQuestion e)) = Some e' →
  generation_fails (service w (posts w) (generation_request category points))
  ∧ generate_question category points (g, w)
    = (Raise e', (g, {| service := service w; posts := S (posts w);
                        console := console w |})).
Proof.
  intros Hr Hp. split; [by eapply generation_raises_fails|].
  rewrite (generate_question_handles category points g w e Hr). by rewrite Hp.
Qed.

(** The response of the success test gives the answer "paris". *)
Lemma generate_question_paris :
  (generate_question (lit "Geography") 100 (init, replying paris_text)).1
  = Ok {| qa_question := lit "What is the capital of France?";
          qa_answer := lit "paris" |}
  ∧ normalized_answer (lit "Paris") = lit "paris".
Proof. split; vm_compute; reflexivity. Qed.

(** C4 fails on the code.  For the two-line response whose second line is
    "Panama: Canal", [generate_question] returns the answer "panam canal":
    [replace] removes "a:" wherever it occurs, not only at the start.  The
    answer as the specification describes it is "panama: canal". *)
Theorem generate_question_strips_inside_answer :
  generation_succeeds
    (service (replying panama_text) 0 (generation_request (lit "Geography") 100))
    panama_text
  ∧ (generate_question (lit "Geography") 100 (init, replying panama_text)).1
    = Ok {| qa_question :=
              lit "Which Central American country has a canal joining two oceans?";
            qa_answer := lit "panam canal" |}
  ∧ normalized_answer (lit "Panama: Canal") = lit "panama: canal"
  ∧ lit "panam canal" ≠ lit "panama: canal".
Proof.
  split.
  { eexists _, _. split; [reflexivity|]. split; [reflexivity|].
    split; [reflexivity|]. split; [vm_compute; reflexivity|].
    vm_compute. discriminate. }
  split; [vm_compute; reflexivity|]. split; [vm_compute; reflexivity|].
  vm_compute. discriminate.
Qed.

(* ================================================================== *)
(** * [initialize_board] *)
(* ================================================================== *)

Section calls.
Variable w : world.

Lemma qa_at_returns k category points qa :
  question_source w k category points = Ok qa →
  qa_at w k category points = qa.
Proof. unfold qa_at. by intros ->. Qed.

(** The call number [k], made from any game and any terminal. *)
Lemma generate_question_at k category points g w' qa :
  service w' = service w → posts w' = (posts w + k)%nat →
  question_source w k category points = Ok qa →
  ∃ w'', generate_question category points (g, w') = (Ok qa, (g, w''))
         ∧ service w'' = service w ∧ posts w'' = (posts w + S k)%nat.
Proof.
  intros Hs Hp Hqa.
  destruct (generate_question_frame category points g w') as [lines Hst].
  exists (printing (posted w') lines).
  split; [|split; [done | simpl; lia]].
  rewrite <- Hst, <- Hqa. unfold question_source.
  rewrite (generate_question_result category points g w' init
             {| service := service w; posts := (posts w + k)%nat;
                console := [] |}) by done.
  by destruct (generate_question category points (g, w')).
Qed.

(** The inner loop fills the row of its category, one call per point
    value. *)
Lemma fill_row_run category ps : ∀ g w' k row,
  board g !! category = Some row →
  service w' = service w → posts w' = (posts w + k)%nat →
  (∀ j p, ps !! j = Some p →
          ∃ qa, question_source w (k + j) category p = Ok qa) →
  ∃ w'',
    for_ ps (λ points,
      qa ← generate_question category points;
      self ← get_self;
      row ← lift (dict_getitem (board self) category);
      _ ← set_board
            (<[category :=
                 <[points := {| question := qa_question qa;
                                answer := qa_answer qa;
                                answered := false |}]> row]> (board self));
      sleep 0.5) (g, w')
    = (Ok (), (with_board g
                 (<[category := row_after (qa_at w) k category ps row]>
                    (board g)), w''))
    ∧ service w'' = service w ∧ posts w'' = (posts w + k + length ps)%nat.
Proof.
  induction ps as [|p ps IH]; intros g w' k row Hrow Hs Hp Hret.
  - exists w'. simpl. rewrite insert_id, with_board_id by done.
    split; [done|]. split; [done|lia].
  - cbn [for_]. run_board.
    destruct (Hret 0%nat p eq_refl) as [qa Hqa].
    rewrite Nat.add_0_r in Hqa.
    destruct (generate_question_at k category p g w' qa Hs Hp Hqa)
      as (w1 & -> & Hs1 & Hp1).
    run_board. unfold dict_getitem at 1. rewrite Hrow. run_board.
    edestruct (IH (with_board g
                     (<[category :=
                          <[p := new_cell (qa_at w k category p)]> row]>
                        (board g))) w1 (S k))
      as (w2 & Hrun & Hs2 & Hp2); [apply lookup_insert_eq | done | done | |].
    { intros j p' Hj. replace (S k + j)%nat with (k + S j)%nat by lia.
      by apply Hret. }
    exists w2. rewrite <- (qa_at_returns k category p qa Hqa).
    unfold new_cell in Hrun. rewrite Hrun. run_board.
    cbn [row_after length]. rewrite insert_insert_eq.
    split; [done|]. split; [done|lia].
Qed.

(** The outer loop fills one row per category. *)
Lemma fill_board_run cs : ∀ g w' k,
  service w' = service w → posts w' = (posts w + k)%nat →
  progress_prints cs →
  (∀ i j category p,
     cs !! i = Some category → points g !! j = Some p →
     ∃ qa, question_source w (k + i * length (points g) + j) category p
           = Ok qa) →
  ∃ w'',
    for_ cs (λ category,
      _ ← console_print (GeneratingQuestionsFor category);
      self ← get_self;
      _ ← set_board (<[category := ∅]> (board self));
      self ← get_self;
      for_ (points self) (λ points,
        qa ← generate_question category points;
        self ← get_self;
        row ← lift (dict_getitem (board self) category);
        _ ← set_board
              (<[category :=
                   <[points := {| question := qa_question qa;
                                  answer := qa_answer qa;
                                  answered := false |}]> row]> (board self));
        sleep 0.5)) (g, w')
    = (Ok (), (with_board g
                 (board_after (qa_at w) k cs (points g) (board g)), w''))
    ∧ service w'' = service w
    ∧ posts w'' = (posts w + k + length cs * length (points g))%nat.
Proof.
  induction cs as [|c cs IH]; intros g w' k Hs Hp Hprog Hret.
  - exists w'. simpl. rewrite with_board_id. split; [done|]. split; [done|lia].
  - cbn [for_]. run_board.
    rewrite console_print_prints by (apply Hprog; left). run_board.
    edestruct (fill_row_run c (points g)
                 (with_board g (<[c:=∅]> (board g)))
                 (printing w' [GeneratingQuestionsFor c]) k ∅)
      as (w1 & Hrun & Hs1 & Hp1); [apply lookup_insert_eq | done | done | |].
    { intros j p Hj. specialize (Hret 0%nat j c p eq_refl Hj).
      by rewrite Nat.mul_0_l, Nat.add_0_r in Hret. }
    rewrite Hrun. clear Hrun. run_board. rewrite insert_insert_eq.
    edestruct (IH (with_board g
                     (<[c:=row_after (qa_at w) k c (points g) ∅]> (board g)))
                 w1 (k + length (points g))%nat)
      as (w2 & Hrun & Hs2 & Hp2); [done | lia | | |].
    { intros category Hin. apply Hprog. by right. }
    { intros i j category p Hi Hj. rewrite points_with_board in *.
      specialize (Hret (S i) j category p Hi Hj).
      replace (k + length (points g) + i * length (points g) + j)%nat
        with (k + S i * length (points g) + j)%nat by lia.
      done. }
    rewrite ?points_with_board in Hp2.
    exists w2. rewrite Hrun. run_board. cbn [board_after length].
    split; [done|]. split; [done|]. lia.
Qed.

Lemma initialize_board_run g w' k :
  service w' = service w → posts w' = (posts w + k)%nat →
  progress_prints (categories g) →
  (∀ i j category p,
     categories g !! i = Some category → points g !! j = Some p →
     ∃ qa, question_source w (k + i * length (points g) + j) category p
           = Ok qa) →
  ∃ w'',
    initialize_board (g, w')
    = (Ok (), (with_board g
                 (board_after (qa_at w) k (categories g) (points g) ∅), w''))
    ∧ service w'' = service w
    ∧ posts w''
      = (posts w + k + length (categories g) * length (points g))%nat.
Proof.
  intros Hs Hp Hprog Hret. unfold initialize_board. run_board.
  edestruct (fill_board_run (categories g) (with_board g ∅) w' k)
    as (w2 & Hrun & Hs2 & Hp2); [done | done | done | done |].
  rewrite ?points_with_board in Hp2. rewrite Hrun. run_board. eauto.
Qed.

End calls.

(** [initialize_board] when its progress lines print and its calls
    return. *)
Lemma initialize_board_generates g w :
  progress_prints (categories g) → source_returns g w →
  ∃ w',
    initialize_board (g, w)
    = (Ok (), (with_board g
                 (board_after (qa_at w) 0 (categories g) (points g) ∅), w'))
    ∧ service w' = service w
    ∧ posts w' = (posts w + length (categories g) * length (points g))%nat.
Proof.
  intros Hprog Hret.
  destruct (initialize_board_run w g w 0) as (w' & Hrun & Hs & Hp);
    [done | lia | done | exact Hret |].
  exists w'. split; [done|]. split; [done|lia].
Qed.

(** C6.  On a game with the five categories and the five point values,
    when the calls of the question source return (the call for the i-th
    category and the j-th point value is the call number 5 i + j),
    [initialize_board] makes 25 calls and leaves a board of exactly 25
    cells, one row per category and one cell per point value in each row,
    none of them answered; the cell of the i-th category and the j-th point
    value holds the question and the answer that the question source
    returned at the call made for that pair. *)
Theorem initialize_board_fills_the_grid bd sc w :
  (∀ i j category points,
     categories init !! i = Some category →
     JeopardyGame.points init !! j = Some points →
     ∃ qa, question_source w (5 * i + j) category points = Ok qa) →
  ∃ bd' w',
    initialize_board (reference_game bd sc, w)
    = (Ok (), (reference_game bd' sc, w'))
    ∧ posts w' = (posts w + 25)%nat
    ∧ length (board_cells bd') = 25%nat
    ∧ dom bd' = list_to_set (categories init)
    ∧ map_Forall (λ _ (row : gmap Z cell),
                    dom row = list_to_set (JeopardyGame.points init)) bd'
    ∧ (∀ c, c ∈ board_cells bd' → answered c = false)
    ∧ (∀ i j category points,
         categories init !! i = Some category →
         JeopardyGame.points init !! j = Some points →
         ∃ qa, question_source w (5 * i + j) category points = Ok qa
               ∧ cell_at bd' category points
                 = Some {| question := qa_question qa; answer := qa_answer qa;
                           answered := false |}).
Proof.
  intros Hret.
  destruct (initialize_board_generates (reference_game bd sc) w)
    as (w' & Hrun & _ & Hp); [apply progress_prints_init | |].
  { intros i j category pts Hi Hj.
    cbn [categories points reference_game] in *. simpl length.
    replace (i * 5 + j)%nat with (5 * i + j)%nat by lia. by apply Hret. }
  eexists _, w'. split; [exact Hrun|]. split; [simpl in Hp; lia|].
  cbn [categories points reference_game].
  assert (Hqa : ∀ i j category points,
            categories init !! i = Some category →
            JeopardyGame.points init !! j = Some points →
            question_source w (5 * i + j) category points
            = Ok (qa_at w (5 * i + j) category points)).
  { intros i j category pts Hi Hj.
    destruct (Hret i j category pts Hi Hj) as [qa Hqa].
    by rewrite (qa_at_returns w _ _ _ qa Hqa). }
  revert Hqa. generalize (qa_at w). intros f Hqa. clear Hrun Hp Hret.
  split; [vm_compute; reflexivity|].
  split; [apply (bool_decide_unpack _); vm_compute; exact I|].
  split; [apply (bool_decide_unpack _); vm_compute; exact I|].
  split.
  - intros c Hc.
    assert (Hall : forallb (λ c, negb (answered c))
                     (board_cells (board_after f 0 (categories init)
                                     (JeopardyGame.points init) ∅)) = true)
      by (vm_compute; reflexivity).
    rewrite forallb_forall in Hall. apply list_elem_of_In, Hall in Hc.
    by destruct (answered c).
  - intros i j category pts Hi Hj. exists (f (5 * i + j)%nat category pts).
    split; [by apply Hqa|].
    do 5 (destruct i as [|i]; [injection Hi as <-;
      do 5 (destruct j as [|j]; [injection Hj as <-; vm_compute; reflexivity|]);
      done|]).
    done.
Qed.

(* ================================================================== *)
(** * [play_turn] *)
(* ================================================================== *)

Lemma int_of_str_of_int n : int_of_str (str_of_int n) = Ok n.
Proof.
  unfold int_of_str, str_of_int, lit.
  rewrite string_of_list_ascii_of_string.
  rewrite NilZero.isi.
  - by rewrite DecimalZ.of_to.
  - destruct n; simpl; try done.
    intros [= H']. by apply (DecimalPos.Unsigned.to_uint_nonnil p).
  - destruct n; simpl; try done.
    intros [= H']. by apply (DecimalPos.Unsigned.to_uint_nonnil p).
Qed.

Lemma available_points_nonempty (row : gmap Z cell) p c :
  row !! p = Some c → answered c = false → available_points row ≠ [].
Proof.
  intros Hp Hc Hnil. unfold available_points in Hnil.
  apply fmap_nil_inv in Hnil.
  assert (Hin : (p, c) ∈ filter (λ pq : Z * cell, answered pq.2 = false)
                          (map_to_list row)).
  { apply list_elem_of_filter. split; [done|]. by apply elem_of_map_to_list. }
  rewrite Hnil in Hin. by apply elem_of_nil in Hin.
Qed.

Ltac run_turn :=
  repeat first
    [ run_step
    | progress cbn [categories points board score with_board with_score
                    printing] ].

(** A turn on a cell, print by print: the header, the question, and after
    the score has changed the verdict; the cell is marked last. *)
Lemma play_turn_open user g w row p c ok :
  continue_playing user = true →
  board g !! chosen_category user = Some row →
  available_points row ≠ [] →
  int_of_str (chosen_points user) = Ok p →
  row !! p = Some c →
  check_answer (your_answer user) (answer c) = Ok ok →
  play_turn user (g, w)
  = match print_raises (text_of (QuestionHeader (chosen_category user) p)) with
    | Some e => (Raise e, (g, w))
    | None =>
        match print_raises (text_of (QuestionText (question c))) with
        | Some e =>
            (Raise e,
             (g, printing w [QuestionHeader (chosen_category user) p]))
        | None =>
            if ok then
              (Ok true, after_turn g w (chosen_category user) p row c true)
            else
              match print_raises
                      (text_of (SorryTheCorrectAnswerWas (lower (answer c))))
              with
              | Some e =>
                  (Raise e,
                   (with_score g (score g - p),
                    printing w [QuestionHeader (chosen_category user) p;
                                QuestionText (question c)]))
              | None =>
                  (Ok true,
                   after_turn g w (chosen_category user) p row c false)
              end
        end
    end.
Proof.
  intros Hcont Hrow Hav Hint Hcell Hok.
  unfold play_turn, after_turn. rewrite Hcont. cbn [negb]. run_turn.
  unfold dict_getitem at 1. rewrite Hrow. run_turn.
  destruct (available_points row) eqn:Hav'; [done|].
  rewrite Hint. run_turn.
  unfold dict_getitem. rewrite Hrow. cbn [mbind outcome_bind]. rewrite Hcell.
  run_turn. rewrite console_print_run.
  destruct (print_raises (text_of (QuestionHeader _ _))); [done|].
  run_turn. rewrite console_print_run.
  destruct (print_raises (text_of (QuestionText _))); [done|].
  run_turn. rewrite check_answer_lower, Hok. run_turn.
  destruct ok; run_turn.
  - rewrite (console_print_prints Correct) by apply correct_prints.
    run_turn. rewrite Hrow. run_turn. rewrite Hcell. run_turn.
    unfold with_board, with_score, printing, played.
    cbn [categories points board score service posts console].
    rewrite <- ?app_assoc. reflexivity.
  - rewrite console_print_run.
    destruct (print_raises (text_of (SorryTheCorrectAnswerWas _))).
    { unfold printing. cbn [service posts console].
      rewrite <- ?app_assoc. reflexivity. }
    run_turn. rewrite Hrow. run_turn. rewrite Hcell. run_turn.
    unfold with_board, with_score, printing, played.
    cbn [categories points board score service posts console].
    rewrite <- ?app_assoc. reflexivity.
Qed.

(** A turn played on a cell whose lines print. *)
Lemma play_turn_run user g w row p c ok :
  continue_playing user = true →
  board g !! chosen_category user = Some row →
  available_points row ≠ [] →
  int_of_str (chosen_points user) = Ok p →
  row !! p = Some c →
  check_answer (your_answer user) (answer c) = Ok ok →
  cell_prints (chosen_category user) p c →
  play_turn user (g, w)
  = (Ok true, after_turn g w (chosen_category user) p row c ok).
Proof.
  intros Hcont Hrow Hav Hint Hcell Hok (Hh & Hq & Ha).
  rewrite (play_turn_open user g w row p c ok) by done.
  unfold prints in *. rewrite Hh, Hq, Ha. by destruct ok.
Qed.

(** C5 fails on the code.  On an unanswered cell whose answer is refused
    by the library when it is printed (an answer that holds a closing tag,
    for one), a turn with a wrong answer takes the points off the score and
    then raises from the print of the correct answer: the turn does not
    return, and the cell is left unanswered although the score has
    changed. *)
Theorem play_turn_raises_after_scoring user g w category p row c e :
  continue_playing user = true →
  chosen_category user = category →
  chosen_points user = str_of_int p →
  board g !! category = Some row →
  row !! p = Some c →
  answered c = false →
  prints (text_of (QuestionHeader category p)) →
  prints (text_of (QuestionText (question c))) →
  check_answer (your_answer user) (answer c) = Ok false →
  print_raises (text_of (SorryTheCorrectAnswerWas (lower (answer c))))
  = Some e →
  ∃ g' w',
    play_turn user (g, w) = (Raise e, (g', w'))
    ∧ score g' = score g - p
    ∧ board g' = board g
    ∧ cell_at (board g') category p = Some c
    ∧ console w' = console w ++ [QuestionHeader category p;
                                 QuestionText (question c)].
Proof.
  intros Hcont <- Hpts Hrow Hcell Hfresh Hh Hq Hok Ha.
  rewrite (play_turn_open user g w row p c false); try done.
  - unfold prints in *. rewrite Hh, Hq, Ha.
    eexists _, _. split; [reflexivity|]. split; [done|]. split; [done|].
    split; [|done]. unfold cell_at. cbn [board with_score].
    by rewrite Hrow.
  - by apply (available_points_nonempty row p c).
  - rewrite Hpts. apply int_of_str_of_int.
Qed.

(** A player who declines to continue leaves the game as it is. *)
Lemma play_turn_declined user g w :
  continue_playing user = false → play_turn user (g, w) = (Ok false, (g, w)).
Proof. intros Hd. unfold play_turn. by rewrite Hd. Qed.

(* ================================================================== *)
(** * More on [check_answer] *)
(* ================================================================== *)

Lemma similarity_test_in_doubles_witness :
  len (lit "pariss") + len (lit "paris") < 2 ^ 51
  ∧ ∃ blocks,
      get_matching_blocks (make (lit "pariss") (lit "paris")) = Ok blocks
      ∧ ltb f08 (calculate_ratio_double (matches blocks)
                   (len (lit "pariss") + len (lit "paris")))
        = (if Qlt_le_dec 0.8
                (calculate_ratio (matches blocks)
                   (len (lit "pariss") + len (lit "paris")))
           then true else false).
Proof.
  split; [reflexivity|].
  apply (similarity_test_in_doubles (lit "pariss") (lit "paris")).
  reflexivity.
Defined.

Lemma matched_blocks a b :
  ∃ blocks, get_matching_blocks (make a b) = Ok blocks
    ∧ matched a b = matches blocks
    ∧ 0 ≤ matched a b ∧ matched a b ≤ len a ∧ matched a b ≤ len b.
Proof.
  destruct (matches_bounds (make a b)) as (blocks & Hrun & Ha & Hb).
  rewrite make_a in Ha. rewrite make_b in Hb.
  exists blocks. unfold matched. rewrite Hrun. split; [done|]. lia.
Qed.

(** [check_answer] as a decision on the normalized strings: equal, or more
    than four fifths of their characters in matching blocks, or the word
    rule. *)
Lemma check_answer_decides p c :
  check_answer p c
  = Ok (bool_decide (normalize p = normalize c)
        || bool_decide (2 * (len (normalize p) + len (normalize c))
                        < 5 * matched (normalize p) (normalize c))
        || word_rule (normalize p) (normalize c)).
Proof.
  unfold check_answer, ratio. fold (normalize p) (normalize c).
  set (a := normalize p). set (b := normalize c).
  case_decide as Hab; [by rewrite bool_decide_eq_true_2|].
  rewrite (bool_decide_eq_false_2 (a = b)) by done.
  destruct (matched_blocks a b) as (blocks & -> & -> & _).
  rewrite make_a, make_b. cbn [mbind outcome_bind mret outcome_ret orb].
  assert (HT : 0 < len a + len b).
  { destruct a, b; unfold len; simpl; try lia. done. }
  fold (words a) (words b) (important_words b). fold (word_rule a b).
  destruct (Qlt_le_dec _ _) as [Hq|Hq].
  - apply exact_comparison in Hq; [|done].
    by rewrite bool_decide_eq_true_2.
  - rewrite bool_decide_eq_false_2; [by destruct (word_rule a b)|].
    intros Hlt. apply exact_comparison in Hlt; [|done].
    by apply Qlt_not_le in Hlt.
Qed.

(** X3.  When one of the two normalized strings is at most two thirds as
    long as the other, the similarity ratio cannot exceed 0.8: the answer
    is accepted only if the strings are equal or the word rule applies. *)
Theorem check_answer_length_cutoff p c :
  3 * len (normalize p) ≤ 2 * len (normalize c)
  ∨ 3 * len (normalize c) ≤ 2 * len (normalize p) →
  check_answer p c
  = Ok (bool_decide (normalize p = normalize c)
        || word_rule (normalize p) (normalize c)).
Proof.
  intros Hlen. rewrite check_answer_decides.
  destruct (matched_blocks (normalize p) (normalize c))
    as (_ & _ & _ & _ & Ha & Hb).
  rewrite (bool_decide_eq_false_2 (_ < _)) by lia.
  by rewrite orb_false_r.
Qed.

Lemma check_answer_length_cutoff_witness :
  3 * len (normalize (lit "cat")) ≤ 2 * len (normalize (lit "category"))
  ∧ check_answer (lit "cat") (lit "category")
    = Ok (bool_decide (normalize (lit "cat") = normalize (lit "category"))
          || word_rule (normalize (lit "cat")) (normalize (lit "category"))).
Proof.
  split; [vm_compute; discriminate|].
  apply (check_answer_length_cutoff (lit "cat") (lit "category")).
  left. vm_compute. discriminate.
Defined.

(** X4.  A blank answer of the player is rejected, unless the correct
    answer is blank too. *)
Theorem check_answer_blank_player p c :
  normalize p = [] → normalize c ≠ [] → check_answer p c = Ok false.
Proof.
  intros Hp Hc. rewrite check_answer_decides.
  destruct (matched_blocks (normalize p) (normalize c))
    as (_ & _ & _ & _ & Ha & Hb).
  rewrite Hp in *. change (len (@nil ascii)) with 0 in Ha.
  rewrite (bool_decide_eq_false_2 (_ < _)) by (unfold len; lia).
  rewrite bool_decide_eq_false_2 by done.
  unfold word_rule. cbn [orb].
  destruct (decide (important_words (normalize c) = ∅)) as [He|He].
  - by rewrite (bool_decide_eq_false_2 (_ ≠ _)) by (intros H; by apply H).
  - rewrite (bool_decide_eq_false_2 (_ ⊆ _)); [by rewrite andb_false_r|].
    intros Hsub. apply He. apply elem_of_equiv_empty_L. intros word Hw.
    apply Hsub in Hw. unfold words in Hw. simpl in Hw.
    by apply elem_of_empty in Hw.
Qed.

Lemma check_answer_blank_player_witness :
  normalize (lit "   ") = [] ∧ normalize (lit "Paris") ≠ []
  ∧ check_answer (lit "   ") (lit "Paris") = Ok false.
Proof.
  split; [reflexivity|]. split; [vm_compute; discriminate|].
  apply (check_answer_blank_player (lit "   ") (lit "Paris"));
    [reflexivity | vm_compute; discriminate].
Defined.

(* ================================================================== *)
(** * More on [generate_question] *)
(* ================================================================== *)

(** X5.  Whatever the service replies, a call of [generate_question] makes
    exactly one POST and leaves the game as it is, and it ends in one of
    two ways.  Either it returns a pair, whose answer is in lower case and
    trimmed: lowering and stripping it again, as [play_turn] and
    [check_answer] do, changes nothing.  Or the generation call has raised
    an exception, the library refuses the line that reports it, and the
    exception of that print leaves the method, with nothing printed. *)
Theorem generate_question_answer_normalized category points g w :
  ∃ w',
    (generate_question category points (g, w)).2 = (g, w')
    ∧ one_post w w'
    ∧ ((∃ qa,
          (generate_question category points (g, w)).1 = Ok qa
          ∧ normalize (qa_answer qa) = qa_answer qa)
       ∨ (∃ e e',
            generation_raises
              (service w (posts w) (generation_request category points)) e
            ∧ print_raises (text_of (ErrorGeneratingQuestion e)) = Some e'
            ∧ (generate_question category points (g, w)).1 = Raise e'
            ∧ console w' = console w)).
Proof.
  destruct (generate_question_cases category points g w)
    as [(e & He & ->)|(qa & -> & Hqa)].
  - destruct (print_raises (text_of (ErrorGeneratingQuestion e)))
      as [e'|] eqn:Hp.
    + eexists. split; [reflexivity|]. split; [done|]. right.
      by exists e, e'.
    + eexists. split; [reflexivity|]. split; [done|]. left.
      by exists (backup_question category points).
  - eexists. split; [reflexivity|]. split; [done|]. left. by exists qa.
Qed.

(** X6.  When the generation call raises an exception and the library
    prints the line that reports it, [generate_question] prints that line,
    which holds the message of the exception, and returns the backup pair;
    the POST is counted and the game is unchanged. *)
Theorem generate_question_reports_exception category points g w e :
  generation_raises
    (service w (posts w) (generation_request category points)) e →
  prints (text_of (ErrorGeneratingQuestion e)) →
  generate_question category points (g, w)
  = (Ok (backup_question category points),
     (g, {| service := service w; posts := S (posts w);
            console := console w ++ [ErrorGeneratingQuestion e] |}))
  ∧ text_of (ErrorGeneratingQuestion e)
    = lit "[red]Error generating question: " ++ str_of_exn e ++ lit "[/red]".
Proof.
  intros Hr Hp. split; [|reflexivity].
  rewrite (generate_question_handles category points g w e Hr).
  by rewrite Hp.
Qed.

(** X7.  A response whose text has fewer than two lines is replaced by the
    backup pair without anything being printed. *)
Theorem generate_question_silent_fallback category points g w r v text :
  service w (posts w) (generation_request category points) = PostReturned r →
  raise_for_status r = None →
  json r = inr v →
  subscript v (lit "response") = Ok (PyStr text) →
  ¬ two_lines text →
  generate_question category points (g, w)
  = (Ok (backup_question category points),
     (g, {| service := service w; posts := S (posts w);
            console := console w |})).
Proof.
  intros Hr Hs Hj Hsub Hl. unfold generate_question, try_except. run.
  rewrite Hr. run. rewrite Hs. run. rewrite Hj. run. rewrite Hsub.
  unfold as_str. run. unfold two_lines in Hl.
  destruct (Z.geb_spec (len (split_sep "010" (strip text))) 2); [lia|].
  by run.
Qed.

(** X8.  When the second line of the response is blank (an empty line
    between the question and the answer), the stored answer is the empty
    string: the lines after the second are not read. *)
Theorem generate_question_blank_second_line
    category points g w text line1 line2 rest :
  generation_succeeds
    (service w (posts w) (generation_request category points)) text →
  split_sep "010" (strip text) = line1 :: line2 :: rest →
  forallb isspace line2 = true →
  ∃ w', generate_question category points (g, w)
        = (Ok {| qa_question := strip line1; qa_answer := [] |}, (g, w')).
Proof.
  intros Ht Hl Hblank.
  destruct (generate_question_parses category points g w text Ht)
    as (l1 & l2 & rest' & Hl' & ->).
  rewrite Hl in Hl'. injection Hl' as <- <- <-.
  eexists. do 3 f_equal.
  apply strip_nil_iff in Hblank. by rewrite Hblank.
Qed.

Lemma startswith_app old rest : startswith old (old ++ rest) = true.
Proof.
  induction old as [|c old IH]; [by destruct rest|]. simpl.
  by rewrite bool_decide_eq_true_2.
Qed.

Lemma startswith_inv old : ∀ s, startswith old s = true → ∃ t, s = old ++ t.
Proof.
  induction old as [|c old IH]; intros s H; [by exists s|].
  destruct s as [|x s]; [done|]. simpl in H.
  apply andb_prop in H as [Hx Hs]. apply bool_decide_eq_true_1 in Hx as ->.
  destruct (IH s Hs) as [t ->]. by exists t.
Qed.

Lemma occurs_startswith sub s : startswith sub s = true → occurs sub s = true.
Proof. intros H. destruct s; cbn [occurs]; by rewrite H. Qed.

Lemma occurs_contains sub s : contains sub s → occurs sub s = true.
Proof.
  intros (pre & post & ->).
  induction pre as [|c pre IH].
  - change ([] ++ sub ++ post) with (sub ++ post).
    apply occurs_startswith, startswith_app.
  - change ((c :: pre) ++ sub ++ post) with (c :: (pre ++ sub ++ post)).
    cbn [occurs]. rewrite IH. apply orb_true_r.
Qed.

Lemma replace_from_skip old new l rest :
  replace_from old new (length l) (l ++ rest) = replace_from old new 0 rest.
Proof. induction l as [|c l IH]; [done|]. simpl. exact IH. Qed.

Lemma replace_prefix old rest :
  old ≠ [] → replace old [] (old ++ rest) = replace old [] rest.
Proof.
  intros Hold. destruct old as [|c old]; [done|]. unfold replace.
  change ((c :: old) ++ rest) with (c :: (old ++ rest)).
  cbn [replace_from].
  change (c :: old ++ rest) with ((c :: old) ++ rest).
  rewrite startswith_app.
  replace (length (c :: old) - 1)%nat with (length old) by (simpl; lia).
  apply replace_from_skip.
Qed.

Lemma replace_absent old s :
  ¬ contains old s → replace old [] s = s.
Proof.
  unfold replace. induction s as [|c s IH]; intros Hno; [done|].
  cbn [replace_from].
  destruct (startswith old (c :: s)) eqn:Hst.
  - exfalso. apply Hno. apply startswith_inv in Hst as [t Ht].
    exists [], t. by rewrite Ht.
  - f_equal. apply IH. intros (pre & post & ->). apply Hno.
    by exists (c :: pre), post.
Qed.

Lemma answer_absent_after_a body :
  ¬ contains (lit "answer:") body →
  ¬ contains (lit "answer:") (lit "a:" ++ body).
Proof.
  intros Hno (pre & post & Heq). apply Hno.
  destruct pre as [|x [|y pre]]; [done|done|].
  injection Heq as _ _ ->. by exists pre, post.
Qed.

(** X9.  When the second line of the response, lowercased, is "answer:" or
    "a:" followed by a text in which neither occurs again, the stored
    answer is that text, trimmed. *)
Theorem generate_question_removes_prefix
    category points g w text line1 line2 rest prefix body :
  generation_succeeds
    (service w (posts w) (generation_request category points)) text →
  split_sep "010" (strip text) = line1 :: line2 :: rest →
  prefix = lit "answer:" ∨ prefix = lit "a:" →
  lower (strip line2) = prefix ++ body →
  ¬ contains (lit "answer:") body →
  ¬ contains (lit "a:") body →
  ∃ w', generate_question category points (g, w)
        = (Ok {| qa_question := strip line1; qa_answer := strip body |},
           (g, w')).
Proof.
  intros Ht Hl Hprefix Hline Hno Hno'.
  destruct (generate_question_parses category points g w text Ht)
    as (l1 & l2 & rest' & Hl' & ->).
  rewrite Hl in Hl'. injection Hl' as <- <- <-.
  eexists. do 3 f_equal. rewrite Hline.
  destruct Hprefix as [-> | ->].
  - rewrite replace_prefix by done.
    by rewrite (replace_absent _ body Hno), (replace_absent _ body Hno').
  - rewrite (replace_absent (lit "answer:"))
      by by apply answer_absent_after_a.
    rewrite replace_prefix by done. by rewrite (replace_absent _ body Hno').
Qed.

(* ================================================================== *)
(** * More on [initialize_board] *)
(* ================================================================== *)

Lemma qa_at_normalized w k category points :
  normalize (qa_answer (qa_at w k category points))
  = qa_answer (qa_at w k category points).
Proof.
  unfold qa_at, question_source.
  set (w0 := {| service := service w; posts := (posts w + k)%nat;
                console := [] |}).
  destruct (generate_question_cases category points init w0)
    as [(e & _ & ->)|(qa & -> & Hqa)]; [|done].
  by destruct (print_raises _).
Qed.

Lemma row_after_dom f category ps : ∀ k row,
  dom (row_after f k category ps row) = dom row ∪ list_to_set ps.
Proof.
  induction ps as [|p ps IH]; intros k row; cbn [row_after].
  - by rewrite list_to_set_nil, (right_id_L ∅ (∪)).
  - rewrite IH, dom_insert_L, list_to_set_cons.
    by rewrite (comm_L (∪) {[p]}), (assoc_L (∪)).
Qed.

(** A cell of a row that the inner loop has built is an old one, or comes
    from the call made for its point value. *)
Lemma row_after_lookup f category ps : ∀ k row p c,
  row_after f k category ps row !! p = Some c →
  row !! p = Some c
  ∨ ∃ j, ps !! j = Some p ∧ c = new_cell (f (k + j)%nat category p).
Proof.
  induction ps as [|p0 ps IH]; intros k row p c; cbn [row_after];
    [by left|].
  intros [Hl|(j & Hj & ->)]%IH.
  - destruct (decide (p0 = p)) as [->|Hne].
    + rewrite lookup_insert_eq in Hl. injection Hl as <-. right.
      exists 0%nat. by rewrite Nat.add_0_r.
    + rewrite lookup_insert_ne in Hl by done. by left.
  - right. exists (S j). split; [done|]. do 2 f_equal. lia.
Qed.

Lemma row_after_lookup_in f category ps : ∀ k row p,
  p ∈ ps → is_Some (row_after f k category ps row !! p).
Proof.
  intros k row p Hin. apply elem_of_dom. rewrite row_after_dom.
  by apply elem_of_union_r, elem_of_list_to_set.
Qed.

Lemma board_after_dom f cs ps : ∀ k bd,
  dom (board_after f k cs ps bd) = dom bd ∪ list_to_set cs.
Proof.
  induction cs as [|c cs IH]; intros k bd; cbn [board_after].
  - by rewrite list_to_set_nil, (right_id_L ∅ (∪)).
  - rewrite IH, dom_insert_L, list_to_set_cons.
    by rewrite (comm_L (∪) {[c]}), (assoc_L (∪)).
Qed.

(** A row of a board that the outer loop has built is an old one, or the
    row built for its category. *)
Lemma board_after_lookup f cs ps : ∀ k bd category row,
  board_after f k cs ps bd !! category = Some row →
  bd !! category = Some row
  ∨ ∃ i, cs !! i = Some category
         ∧ row = row_after f (k + i * length ps)%nat category ps ∅.
Proof.
  induction cs as [|c cs IH]; intros k bd category row; cbn [board_after];
    [by left|].
  intros [Hl|(i & Hi & ->)]%IH.
  - destruct (decide (c = category)) as [->|Hne].
    + rewrite lookup_insert_eq in Hl. injection Hl as <-. right.
      exists 0%nat. split; [done|]. f_equal. lia.
    + rewrite lookup_insert_ne in Hl by done. by left.
  - right. exists (S i). split; [done|]. f_equal. lia.
Qed.

Lemma board_after_rows f cs ps k category :
  category ∈ cs →
  ∃ k', board_after f k cs ps ∅ !! category
        = Some (row_after f k' category ps ∅).
Proof.
  intros Hin.
  destruct (board_after f k cs ps ∅ !! category) as [row|] eqn:Hl.
  - apply board_after_lookup in Hl as [Hl|(i & _ & ->)]; [done|by eexists].
  - exfalso. apply not_elem_of_dom in Hl. apply Hl.
    rewrite board_after_dom. apply elem_of_union_r, elem_of_list_to_set.
    done.
Qed.

Lemma board_after_listed f cs ps k category :
  is_Some (board_after f k cs ps ∅ !! category) → category ∈ cs.
Proof.
  intros Hl. apply elem_of_dom in Hl. rewrite board_after_dom in Hl.
  apply elem_of_union in Hl as [Hl|Hl]; [by rewrite dom_empty_L in Hl|].
  by apply elem_of_list_to_set in Hl.
Qed.

(** A cell of the board that [initialize_board] has built comes from the
    call made for its category and its point value. *)
Lemma board_after_cell f cs ps k category p c :
  cell_at (board_after f k cs ps ∅) category p = Some c →
  ∃ i j, cs !! i = Some category ∧ ps !! j = Some p
         ∧ c = new_cell (f (k + i * length ps + j)%nat category p).
Proof.
  unfold cell_at. intros Hc.
  destruct (board_after _ _ _ _ _ !! category) as [row|] eqn:Hrow; [|done].
  simpl in Hc.
  apply board_after_lookup in Hrow as [Hl|(i & Hi & ->)]; [done|].
  apply row_after_lookup in Hc as [Hl|(j & Hj & ->)]; [done|].
  by exists i, j.
Qed.

Lemma board_after_open f cs ps k category p q :
  cell_at (board_after f k cs ps ∅) category p = Some q → answered q = false.
Proof. by intros (i & j & _ & _ & ->)%board_after_cell. Qed.

(** X10.  On any game, whatever board it had before: when the library
    prints the progress line of every category and the calls of
    [generate_question] return, [initialize_board] returns after one POST
    per category and point value; the score and the two lists are kept, the
    board has exactly one row per category and one cell per point value in
    each row, and every cell is unanswered with an answer in lower case and
    trimmed. *)
Theorem initialize_board_any_game g w :
  progress_prints (categories g) →
  source_returns g w →
  ∃ bd' w',
    initialize_board (g, w) = (Ok (), (with_board g bd', w'))
    ∧ service w' = service w
    ∧ posts w' = (posts w + length (categories g) * length (points g))%nat
    ∧ dom bd' = list_to_set (categories g)
    ∧ map_Forall (λ _ (row : gmap Z cell),
                    dom row = list_to_set (points g)) bd'
    ∧ (∀ category points c,
         cell_at bd' category points = Some c →
         answered c = false ∧ normalize (answer c) = answer c).
Proof.
  intros Hprog Hret.
  destruct (initialize_board_generates g w Hprog Hret)
    as (w' & Hrun & Hs & Hp).
  eexists _, w'. split; [exact Hrun|]. split; [done|]. split; [done|].
  split; [by rewrite board_after_dom, dom_empty_L, (left_id_L ∅ (∪))|].
  split.
  - intros category row [Hl|(i & _ & ->)]%board_after_lookup; [done|].
    by rewrite row_after_dom, dom_empty_L, (left_id_L ∅ (∪)).
  - intros category pts c (i & j & _ & _ & ->)%board_after_cell.
    split; [done|]. apply qa_at_normalized.
Qed.

(* ================================================================== *)
(** * More on [play_turn] *)
(* ================================================================== *)

(** A turn on a category without open cells. *)
Lemma play_turn_exhausted_run user g w row :
  continue_playing user = true →
  board g !! chosen_category user = Some row →
  available_points row = [] →
  play_turn user (g, w)
  = (Ok true, (g, {| service := service w; posts := posts w;
                     console := console w ++ [NoMoreQuestions] |})).
Proof.
  intros Hcont Hrow Hav. unfold play_turn. rewrite Hcont. cbn [negb].
  run_turn. unfold dict_getitem at 1. rewrite Hrow. run_turn.
  rewrite Hav.
  rewrite M_bind_run, console_print_prints by apply no_more_questions_prints.
  reflexivity.
Qed.

Lemma available_points_inv (row : gmap Z cell) s :
  s ∈ available_points row →
  ∃ p c, s = str_of_int p ∧ row !! p = Some c ∧ answered c = false.
Proof.
  unfold available_points. intros ([p c] & -> & Hin)%list_elem_of_fmap.
  apply list_elem_of_filter in Hin as [Hc Hin].
  apply elem_of_map_to_list in Hin. by exists p, c.
Qed.

Lemma available_points_nil (row : gmap Z cell) :
  (∀ p c, row !! p = Some c → answered c = true) → available_points row = [].
Proof.
  intros Hall. unfold available_points.
  destruct (filter _ _) as [|[p c] l] eqn:Hf; [done|].
  assert (Hin : (p, c) ∈ filter (λ pq : Z * cell, answered pq.2 = false)
                          (map_to_list row)) by (rewrite Hf; left).
  apply list_elem_of_filter in Hin as [Hc Hin].
  apply elem_of_map_to_list in Hin. simpl in Hc.
  rewrite (Hall p c Hin) in Hc. done.
Qed.

(** A turn on one of the choices offered, in a row whose lines print. *)
Lemma play_turn_open_run user g w row :
  continue_playing user = true →
  board g !! chosen_category user = Some row →
  chosen_points user ∈ available_points row →
  (∀ p c, row !! p = Some c → cell_prints (chosen_category user) p c) →
  ∃ p c ok,
    row !! p = Some c ∧ answered c = false
    ∧ play_turn user (g, w)
      = (Ok true, after_turn g w (chosen_category user) p row c ok).
Proof.
  intros Hcont Hrow Hin Hprints.
  destruct (available_points_inv row _ Hin) as (p & c & Hs & Hc & Hfresh).
  destruct (check_answer_returns (your_answer user) (answer c)) as [ok Hok].
  exists p, c, ok. split; [done|]. split; [done|].
  apply play_turn_run; try done.
  - by apply (available_points_nonempty row p c).
  - rewrite Hs. apply int_of_str_of_int.
  - by apply Hprints.
Qed.

(** X11.  When the entry at "Choose points" is one of the choices offered,
    it names an unanswered cell of the chosen row; when the library prints
    the lines of that cell (the header, the question and the line that
    gives the correct answer), the turn returns [True] without raising,
    prints the header, the question and the verdict (with the correct
    answer in lower case when the answer is wrong), changes the score by
    the points of the cell, marks the cell answered and makes no POST. *)
Theorem play_turn_follows_choice user g w row :
  continue_playing user = true →
  board g !! chosen_category user = Some row →
  chosen_points user ∈ available_points row →
  (∀ p c, chosen_points user = str_of_int p → row !! p = Some c →
          cell_prints (chosen_category user) p c) →
  ∃ p c ok,
    chosen_points user = str_of_int p
    ∧ row !! p = Some c
    ∧ answered c = false
    ∧ check_answer (your_answer user) (answer c) = Ok ok
    ∧ play_turn user (g, w)
      = (Ok true, after_turn g w (chosen_category user) p row c ok).
Proof.
  intros Hcont Hrow Hin Hprints.
  destruct (available_points_inv row _ Hin) as (p & c & Hs & Hc & Hfresh).
  destruct (check_answer_returns (your_answer user) (answer c)) as [ok Hok].
  exists p, c, ok. split; [done|]. split; [done|]. split; [done|].
  split; [done|].
  apply play_turn_run; try done.
  - by apply (available_points_nonempty row p c).
  - rewrite Hs. apply int_of_str_of_int.
  - by apply Hprints.
Qed.

(** X12.  When every cell of the chosen category has been answered, the
    turn prints that no questions are left and returns [True]; the game is
    unchanged and the entry at "Choose points" is never read. *)
Theorem play_turn_exhausted_category user g w row :
  continue_playing user = true →
  board g !! chosen_category user = Some row →
  (∀ p c, row !! p = Some c → answered c = true) →
  play_turn user (g, w)
  = (Ok true, (g, {| service := service w; posts := posts w;
                     console := console w ++ [NoMoreQuestions] |})).
Proof.
  intros Hcont Hrow Hall.
  apply (play_turn_exhausted_run user g w row Hcont Hrow).
  by apply available_points_nil.
Qed.

(** X13.  A turn on a category that the board has no row for (the board
    has not been initialized) raises [KeyError]; nothing is printed and the
    game is unchanged. *)
Theorem play_turn_unknown_category user g w :
  continue_playing user = true →
  board g !! chosen_category user = None →
  play_turn user (g, w) = (Raise KeyError, (g, w)).
Proof.
  intros Hcont Hrow. unfold play_turn. rewrite Hcont. cbn [negb].
  run_turn. unfold dict_getitem at 1. rewrite Hrow. by run_turn.
Qed.

Lemma cell_kept_refl c : cell_kept c c.
Proof. done. Qed.

Lemma cell_kept_trans c1 c2 c3 :
  cell_kept c1 c2 → cell_kept c2 c3 → cell_kept c1 c3.
Proof.
  intros (Hq & Ha & Hd) (Hq' & Ha' & Hd').
  split; [congruence|]. split; [congruence|]. auto.
Qed.

Lemma cells_kept_refl (bd : gmap str (gmap Z cell)) category p :
  option_Forall2 cell_kept (cell_at bd category p) (cell_at bd category p).
Proof. destruct (cell_at bd category p); constructor. apply cell_kept_refl. Qed.

Lemma cells_kept_played (bd : gmap str (gmap Z cell)) category0 p0 row c
    category p :
  bd !! category0 = Some row → row !! p0 = Some c →
  option_Forall2 cell_kept (cell_at bd category p)
    (cell_at (<[category0 := <[p0 := played c]> row]> bd) category p).
Proof.
  intros Hrow Hc. unfold cell_at.
  destruct (decide (category0 = category)) as [<-|Hne].
  - rewrite lookup_insert_eq, Hrow. simpl.
    destruct (decide (p0 = p)) as [<-|Hp].
    + rewrite lookup_insert_eq, Hc. constructor. done.
    + rewrite lookup_insert_ne by done.
      destruct (row !! p); constructor. apply cell_kept_refl.
  - rewrite lookup_insert_ne by done.
    destruct (bd !! category) as [r|]; simpl; [|constructor].
    destruct (r !! p); constructor. apply cell_kept_refl.
Qed.

(** The ways a turn can end: without any effect (the player declines, or
    an exception is raised before anything is printed), on an exhausted
    category, with an exception of the library after some lines and
    perhaps a change of the score, or with a cell played. *)
Lemma play_turn_cases user g w :
  (∃ r, play_turn user (g, w) = (r, (g, w))
        ∧ (r = Ok false ∧ continue_playing user = false
           ∨ ∃ e, r = Raise e))
  ∨ (continue_playing user = true
     ∧ (∃ row, board g !! chosen_category user = Some row
               ∧ available_points row = [])
     ∧ play_turn user (g, w)
       = (Ok true, (g, {| service := service w; posts := posts w;
                          console := console w ++ [NoMoreQuestions] |})))
  ∨ (∃ e sc lines,
       play_turn user (g, w)
       = (Raise e, (with_score g sc, printing w lines)))
  ∨ (∃ row p c ok,
       continue_playing user = true
       ∧ board g !! chosen_category user = Some row
       ∧ available_points row ≠ []
       ∧ int_of_str (chosen_points user) = Ok p
       ∧ row !! p = Some c
       ∧ check_answer (your_answer user) (answer c) = Ok ok
       ∧ play_turn user (g, w)
         = (Ok true, after_turn g w (chosen_category user) p row c ok)).
Proof.
  destruct (continue_playing user) eqn:Hcont.
  2:{ left. exists (Ok false). split; [|by left].
      unfold play_turn. by rewrite Hcont. }
  destruct (board g !! chosen_category user) as [row|] eqn:Hrow.
  2:{ left. exists (Raise KeyError). split; [|right; by eexists].
      unfold play_turn. rewrite Hcont. cbn [negb]. run_turn.
      unfold dict_getitem at 1. rewrite Hrow. by run_turn. }
  destruct (available_points row) as [|s l] eqn:Hav.
  { right. left. split; [done|]. split; [by exists row|].
    by apply (play_turn_exhausted_run user g w row). }
  destruct (int_of_str (chosen_points user)) as [p|e|] eqn:Hint.
  3:{ exfalso. unfold int_of_str in Hint.
      by destruct (DecimalString.NilZero.int_of_string _). }
  2:{ left. exists (Raise e). split; [|right; by eexists].
      unfold play_turn; rewrite Hcont; cbn [negb]; run_turn.
      unfold dict_getitem at 1; rewrite Hrow; run_turn; rewrite Hav, Hint.
      by run_turn. }
  destruct (row !! p) as [c|] eqn:Hc.
  2:{ left. exists (Raise KeyError). split; [|right; by eexists].
      unfold play_turn. rewrite Hcont. cbn [negb]. run_turn.
      unfold dict_getitem at 1. rewrite Hrow. run_turn. rewrite Hav, Hint.
      run_turn. unfold dict_getitem. rewrite Hrow. cbn [mbind outcome_bind].
      rewrite Hc. by run_turn. }
  destruct (check_answer_returns (your_answer user) (answer c)) as [ok Hok].
  assert (Hrun := play_turn_open user g w row p c ok Hcont Hrow).
  rewrite Hav in Hrun. specialize (Hrun ltac:(done) Hint Hc Hok).
  destruct (print_raises (text_of (QuestionHeader _ _))) as [e|].
  { left. exists (Raise e). split; [done|]. right. by eexists. }
  destruct (print_raises (text_of (QuestionText _))) as [e|].
  { right. right. left. exists e, (score g), [QuestionHeader (chosen_category user) p].
    rewrite Hrun. do 2 f_equal. by destruct g. }
  destruct ok.
  { right. right. right. exists row, p, c, true.
    split; [done|]. split; [done|]. split; [by rewrite Hav|]. done. }
  destruct (print_raises (text_of (SorryTheCorrectAnswerWas _))) as [e|].
  { right. right. left. by eexists e, _, _. }
  right. right. right. exists row, p, c, false.
  split; [done|]. split; [done|]. split; [by rewrite Hav|]. done.
Qed.

(** X14.  Whatever the player enters and however the turn ends,
    [play_turn] makes no POST, keeps the lists of categories and point
    values, only adds lines to the terminal, and keeps the grid: the same
    places hold cells, with the same questions and answers, and no answered
    cell becomes unanswered. *)
Theorem play_turn_keeps_the_grid user g w :
  let g' := (play_turn user (g, w)).2.1 in
  let w' := (play_turn user (g, w)).2.2 in
  service w' = service w
  ∧ posts w' = posts w
  ∧ (∃ lines, console w' = console w ++ lines)
  ∧ categories g' = categories g
  ∧ points g' = points g
  ∧ ∀ category p,
      option_Forall2 cell_kept (cell_at (board g) category p)
        (cell_at (board g') category p).
Proof.
  destruct (play_turn_cases user g w)
    as [(r & -> & _)|[(_ & _ & ->)|[(e & sc & lines & ->)
        |(row & p & c & ok & _ & Hrow & _ & _ & Hc & _ & ->)]]];
    unfold after_turn, with_score, printing; cbv zeta;
    cbn [fst snd service posts console categories points board].
  - split; [done|]. split; [done|].
    split; [exists []; by rewrite app_nil_r|]. split; [done|].
    split; [done|]. intros. apply cells_kept_refl.
  - split; [done|]. split; [done|]. split; [by eexists|]. split; [done|].
    split; [done|]. intros. apply cells_kept_refl.
  - split; [done|]. split; [done|]. split; [by eexists|]. split; [done|].
    split; [done|]. intros. apply cells_kept_refl.
  - split; [done|]. split; [done|]. split; [by eexists|]. split; [done|].
    split; [done|]. intros. by apply cells_kept_played.
Qed.

(* ================================================================== *)
(** * [display_board] *)
(* ================================================================== *)

Lemma G_bind_run {A B : Type} (m : G A) (f : A → G B) s :
  (m ≫= f) s
  = match m s with
    | (Ok x, s') => f x s'
    | (Raise e, s') => (Raise e, s')
    | (Diverge, s') => (Diverge, s')
    end.
Proof. reflexivity. Qed.

Lemma G_ret_run {A : Type} (x : A) (s : session) :
  (mret x : G A) s = (Ok x, s).
Proof. reflexivity. Qed.

Lemma get_current_run s : get_current s = (Ok (current s), s).
Proof. reflexivity. Qed.

Lemma show_run x s : show x s = (Ok (), showing s [x]).
Proof. reflexivity. Qed.

Lemma computed_run {A : Type} (o : outcome A) s : computed o s = (o, s).
Proof. reflexivity. Qed.

Lemma showing_showing s out out' :
  showing (showing s out) out' = showing s (out ++ out').
Proof. unfold showing. simpl. by rewrite app_assoc. Qed.

Lemma current_showing s out : current (showing s out) = current s.
Proof. reflexivity. Qed.

Lemma method_run {A : Type} (m : M A) s :
  method m s
  = ((m (current s, world_of s)).1,
     {| current := (m (current s, world_of s)).2.1;
        backend := service (m (current s, world_of s)).2.2;
        requests_made := posts (m (current s, world_of s)).2.2;
        terminal := terminal s
                    ++ (Line <$> console (m (current s, world_of s)).2.2) |}).
Proof.
  unfold method. fold (world_of s).
  by destruct (m (current s, world_of s)) as [r [g w]].
Qed.

(** Symbolic execution of a step of a session. *)
Ltac play_step :=
  first
    [ rewrite G_bind_run
    | rewrite G_ret_run
    | rewrite get_current_run
    | rewrite show_run
    | rewrite computed_run
    | rewrite showing_showing
    | rewrite current_showing ].

Ltac play := repeat play_step.

Lemma foldl_add_column cs : ∀ table,
  foldl (λ table category, add_column category (lit "center") table) table cs
  = {| title := title table;
       columns := columns table
                  ++ ((λ category,
                         {| header := category; justify := lit "center" |})
                      <$> cs);
       rows := rows table |}.
Proof.
  induction cs as [|c cs IH]; intros table; simpl.
  - destruct table. simpl. by rewrite app_nil_r.
  - rewrite IH. simpl. by rewrite <- app_assoc.
Qed.

Section display.
Variable bd : gmap str (gmap Z cell).

Lemma entry_step points category (row : list str) :
  (r ← dict_getitem bd category;
   q ← dict_getitem r points;
   if answered q then mret (row ++ [lit "[dim]----[/dim]"])
   else mret (row ++ [lit "$" ++ str_of_int points]))
  = match cell_at bd category points with
    | Some _ => Ok (row ++ [table_entry bd points category])
    | None => Raise KeyError
    end.
Proof.
  unfold table_entry, cell_at, dict_getitem.
  destruct (bd !! category) as [r|]; simpl; [|done].
  destruct (r !! points) as [q|]; simpl; [|done].
  by destruct (answered q).
Qed.

Lemma entry_loop_cons points category cs row :
  entry_loop bd points (category :: cs) row
  = match cell_at bd category points with
    | Some _ =>
        entry_loop bd points cs (row ++ [table_entry bd points category])
    | None => Raise KeyError
    end.
Proof.
  unfold entry_loop. cbn [for_each]. rewrite entry_step.
  by destruct (cell_at bd category points).
Qed.

Lemma row_loop_cons cs p ps table :
  row_loop bd cs (p :: ps) table
  = match entry_loop bd p cs [] with
    | Ok row => row_loop bd cs ps (add_row row table)
    | Raise e => Raise e
    | Diverge => Diverge
    end.
Proof.
  unfold row_loop. cbn [for_each]. by destruct (entry_loop bd p cs []).
Qed.

Lemma entry_loop_ok points cs : ∀ row,
  (∀ category, category ∈ cs → is_Some (cell_at bd category points)) →
  entry_loop bd points cs row = Ok (row ++ (table_entry bd points <$> cs)).
Proof.
  induction cs as [|c cs IH]; intros row Hall.
  - unfold entry_loop. simpl. by rewrite app_nil_r.
  - rewrite entry_loop_cons.
    destruct (Hall c) as [q Hq]; [left|]. rewrite Hq, IH.
    + by rewrite <- app_assoc.
    + intros category Hin. apply Hall. by right.
Qed.

Lemma entry_loop_raises points cs : ∀ row category,
  category ∈ cs → cell_at bd category points = None →
  entry_loop bd points cs row = Raise KeyError.
Proof.
  induction cs as [|c cs IH]; intros row category Hin Hnone;
    [by apply elem_of_nil in Hin|].
  rewrite entry_loop_cons.
  destruct (cell_at bd c points) as [q|] eqn:Hq; [|done].
  apply elem_of_cons in Hin as [->|Hin]; [congruence|].
  by apply (IH _ category).
Qed.

Lemma entry_loop_cases points cs row :
  (∃ row', entry_loop bd points cs row = Ok row')
  ∨ entry_loop bd points cs row = Raise KeyError.
Proof.
  destruct (decide (Forall (λ category,
              is_Some (cell_at bd category points)) cs)) as [Hall|Hex].
  - left. eexists. apply entry_loop_ok. intros category Hin.
    by apply (proj1 (Forall_forall _ _) Hall).
  - right. apply not_Forall_Exists in Hex; [|apply _].
    apply Exists_exists in Hex as (category & Hin & Hnone).
    apply (entry_loop_raises _ _ _ category); [done|].
    by apply eq_None_not_Some.
Qed.

Lemma row_loop_ok cs ps : ∀ table,
  (∀ category points, category ∈ cs → points ∈ ps →
     is_Some (cell_at bd category points)) →
  row_loop bd cs ps table
  = Ok {| title := title table; columns := columns table;
          rows := rows table
                  ++ ((λ points, table_entry bd points <$> cs) <$> ps) |}.
Proof.
  induction ps as [|p ps IH]; intros table Hall.
  - destruct table. unfold row_loop. simpl. by rewrite app_nil_r.
  - rewrite row_loop_cons.
    rewrite entry_loop_ok by (intros; apply Hall; [done|left]).
    rewrite IH.
    + simpl. by rewrite <- app_assoc.
    + intros category points Hc Hp. apply Hall; [done|by right].
Qed.

Lemma row_loop_raises cs ps : ∀ table category points,
  category ∈ cs → points ∈ ps → cell_at bd category points = None →
  row_loop bd cs ps table = Raise KeyError.
Proof.
  induction ps as [|p ps IH]; intros table category points Hc Hp Hnone;
    [by apply elem_of_nil in Hp|].
  rewrite row_loop_cons.
  destruct (entry_loop_cases p cs []) as [[row Hrow]| ->]; [|done].
  rewrite Hrow.
  apply elem_of_cons in Hp as [->|Hp].
  - by rewrite (entry_loop_raises _ _ _ category) in Hrow.
  - by apply (IH _ category points).
Qed.

Lemma row_loop_cases cs ps : ∀ table,
  (∃ table', row_loop bd cs ps table = Ok table')
  ∨ row_loop bd cs ps table = Raise KeyError.
Proof.
  induction ps as [|p ps IH]; intros table; [left; by eexists|].
  rewrite row_loop_cons.
  destruct (entry_loop_cases p cs []) as [[row ->]| ->]; [|by right].
  apply IH.
Qed.

End display.

Lemma display_board_unfold s :
  display_board s
  = match row_loop (board (current s)) (categories (current s))
            (points (current s))
            (foldl (λ table category,
                      add_column category (lit "center") table)
               {| title := lit "Jeopardy Board"; columns := []; rows := [] |}
               (categories (current s))) with
    | Ok table =>
        (Ok (), showing s [Clear; BoardTable table;
                           CurrentScore (score (current s))])
    | Raise e => (Raise e, s)
    | Diverge => (Diverge, s)
    end.
Proof.
  unfold display_board. play. unfold row_loop, entry_loop.
  destruct (for_each _ _ _); [|done..]. by play.
Qed.

(** [display_board] on a complete grid. *)
Lemma display_board_run s :
  grid_complete (current s) →
  display_board s
  = (Ok (), showing s [Clear; BoardTable (board_table (current s));
                       CurrentScore (score (current s))]).
Proof.
  intros Hfull. rewrite display_board_unfold, foldl_add_column.
  rewrite row_loop_ok by (intros; by apply Hfull). reflexivity.
Qed.

Lemma display_board_cases s :
  (∃ table, display_board s
            = (Ok (), showing s [Clear; BoardTable table;
                                 CurrentScore (score (current s))]))
  ∨ display_board s = (Raise KeyError, s).
Proof.
  rewrite display_board_unfold.
  destruct (row_loop_cases (board (current s)) (categories (current s))
              (points (current s))
              (foldl (λ table category,
                        add_column category (lit "center") table)
                 {| title := lit "Jeopardy Board"; columns := [];
                    rows := [] |} (categories (current s))))
    as [[table ->]| ->]; [left; by eexists|by right].
Qed.



(** X16.  When the board lacks the cell of some category and point value
    of the game (before [initialize_board], for one), [display_board]
    raises [KeyError] before it clears or prints anything. *)
Theorem display_board_incomplete s category points :
  category ∈ categories (current s) →
  points ∈ JeopardyGame.points (current s) →
  cell_at (board (current s)) category points = None →
  display_board s = (Raise KeyError, s).
Proof.
  intros Hc Hp Hnone. rewrite display_board_unfold.
  by rewrite (row_loop_raises _ _ _ _ category points).
Qed.

Lemma display_board_incomplete_witness :
  display_board (start init unreachable)
  = (Raise KeyError, start init unreachable).
Proof.
  apply (display_board_incomplete (start init unreachable)
           (lit "Science") 100); [left | left | reflexivity].
Defined.

(* ================================================================== *)
(** * [play_game] *)
(* ================================================================== *)

(** ** What a session keeps *)

Lemma session_kept_refl s : session_kept s s.
Proof.
  split; [done|]. split; [done|]. split; [done|]. split; [done|].
  split; [exists []; by rewrite app_nil_r|]. intros. apply cells_kept_refl.
Qed.

Lemma session_kept_trans s1 s2 s3 :
  session_kept s1 s2 → session_kept s2 s3 → session_kept s1 s3.
Proof.
  intros (Hb & Hr & Hc & Hp & [out Ht] & Hcells)
         (Hb' & Hr' & Hc' & Hp' & [out' Ht'] & Hcells').
  split; [congruence|]. split; [congruence|]. split; [congruence|].
  split; [congruence|].
  split; [exists (out ++ out'); by rewrite Ht', Ht, app_assoc|].
  intros category p. specialize (Hcells category p).
  specialize (Hcells' category p).
  destruct Hcells as [c1 c2 H12|]; inversion Hcells' as [c2' c3 H23|];
    subst; constructor.
  by apply (cell_kept_trans c1 c2 c3).
Qed.

Lemma session_kept_showing s out : session_kept s (showing s out).
Proof.
  split; [done|]. split; [done|]. split; [done|]. split; [done|].
  split; [by exists out|]. intros. apply cells_kept_refl.
Qed.

Lemma display_board_kept s : session_kept s (display_board s).2.
Proof.
  destruct (display_board_cases s) as [[table ->]| ->]; simpl.
  - apply session_kept_showing.
  - apply session_kept_refl.
Qed.

Lemma play_turn_kept u s : session_kept s (method (play_turn u) s).2.
Proof.
  rewrite method_run. cbn [snd].
  destruct (play_turn_cases u (current s) (world_of s))
    as [(r & -> & _)|[(_ & _ & ->)|[(e & sc & lines & ->)
        |(row & p & c & ok & _ & Hrow & _ & _ & Hc & _ & ->)]]];
    unfold after_turn, with_score, printing;
    cbn [fst snd service posts console categories points board world_of
         current backend requests_made terminal].
  - split; [done|]. split; [done|]. split; [done|]. split; [done|].
    split; [by eexists|]. intros. apply cells_kept_refl.
  - split; [done|]. split; [done|]. split; [done|]. split; [done|].
    split; [by eexists|]. intros. apply cells_kept_refl.
  - split; [done|]. split; [done|]. split; [done|]. split; [done|].
    split; [by eexists|]. intros. apply cells_kept_refl.
  - split; [done|]. split; [done|]. split; [done|]. split; [done|].
    split; [by eexists|]. intros. by apply cells_kept_played.
Qed.

(** One round of the loop. *)
Lemma game_loop_unfold fuel user turn s :
  game_loop (S fuel) user turn s
  = match display_board s with
    | (Ok _, s1) =>
        if all_answered (board (current s1)) then (Ok (), s1)
        else
          match method (play_turn (user turn (current s1))) s1 with
          | (Ok continue, s2) =>
              if negb continue then show ThanksForPlaying s2
              else game_loop fuel user (S turn) s2
          | (Raise e, s2) => (Raise e, s2)
          | (Diverge, s2) => (Diverge, s2)
          end
    | (Raise e, s1) => (Raise e, s1)
    | (Diverge, s1) => (Diverge, s1)
    end.
Proof.
  cbn [game_loop]. rewrite G_bind_run.
  destruct (display_board s) as [[[]|e|] s1]; [|done..].
  rewrite G_bind_run, get_current_run.
  destruct (all_answered (board (current s1))); [done|].
  rewrite G_bind_run.
  destruct (method (play_turn (user turn (current s1))) s1)
    as [[continue|e|] s2]; [|done..].
  by destruct continue.
Qed.

Lemma game_loop_kept user fuel : ∀ turn s,
  session_kept s (game_loop fuel user turn s).2.
Proof.
  induction fuel as [|fuel IH]; intros turn s; [apply session_kept_refl|].
  rewrite game_loop_unfold.
  pose proof (display_board_kept s) as Hd.
  destruct (display_board s) as [[[]|e|] s1]; [|done..]. cbn [snd] in Hd.
  destruct (all_answered (board (current s1))); [done|].
  pose proof (play_turn_kept (user turn (current s1)) s1) as Ht.
  destruct (method (play_turn (user turn (current s1))) s1)
    as [[continue|e|] s2]; cbn [snd] in Ht;
    [|by apply (session_kept_trans s s1 s2)..].
  destruct continue; cbn [negb].
  - apply (session_kept_trans s s2); [by apply (session_kept_trans s s1)|].
    apply IH.
  - rewrite show_run. cbn [snd].
    apply (session_kept_trans s s2); [by apply (session_kept_trans s s1)|].
    apply session_kept_showing.
Qed.

(** ** The POSTs of [initialize_board] *)

Lemma advanced_refl n st x :
  (n = 0)%nat → advanced n st (Ok x, st).
Proof.
  intros ->. split; [done|]. split; [done|]. split; [done|].
  split; [done|]. split; [simpl; lia|]. intros _. simpl. lia.
Qed.

(** A loop whose body makes [c] POSTs makes [c] POSTs per element. *)
Lemma for_advanced {A : Type} (body : A → M unit) (c : nat) (ps0 : list Z)
    (xs : list A) :
  (∀ x st, points st.1 = ps0 → advanced c st (body x st)) →
  ∀ st, points st.1 = ps0 → advanced (length xs * c) st (for_ xs body st).
Proof.
  intros Hbody. induction xs as [|x xs IH]; intros st Hps.
  - by apply advanced_refl.
  - cbn [for_ length]. rewrite M_bind_run.
    destruct (Hbody x st Hps) as (Hs & Hc & Hp & Hsc & Hn & Hok).
    destruct (body x st) as [[[]|e|] st1]; unfold advanced;
      cbn [fst snd] in *.
    + destruct (IH st1) as (Hs' & Hc' & Hp' & Hsc' & Hn' & Hok');
        [congruence|].
      specialize (Hok eq_refl).
      split; [congruence|]. split; [congruence|]. split; [congruence|].
      split; [congruence|]. split; [lia|]. intros Hr. specialize (Hok' Hr).
      lia.
    + split; [done|]. split; [done|]. split; [done|]. split; [done|].
      split; [nia|]. done.
    + split; [done|]. split; [done|]. split; [done|]. split; [done|].
      split; [nia|]. done.
Qed.

(** One round of the inner loop of [initialize_board] makes one POST. *)
Lemma fill_cell_advanced category points st :
  advanced 1 st
    ((qa ← generate_question category points;
      self ← get_self;
      row ← lift (dict_getitem (board self) category);
      _ ← set_board
            (<[category :=
                 <[points := {| question := qa_question qa;
                                answer := qa_answer qa;
                                answered := false |}]> row]> (board self));
      sleep 0.5)%Q st).
Proof.
  destruct st as [g w]. rewrite M_bind_run.
  destruct (generate_question_frame category points g w) as [lines Hst].
  destruct (generate_question category points (g, w)) as [[qa|e|] st1];
    cbn [snd] in Hst; subst st1.
  - run_board. unfold dict_getitem.
    destruct (board g !! category) as [row|]; run_board.
    + split; [done|]. split; [done|]. split; [done|]. split; [done|].
      split; [simpl; lia|]. intros _. simpl. lia.
    + split; [done|]. split; [done|]. split; [done|]. split; [done|].
      split; [simpl; lia|]. done.
  - split; [done|]. split; [done|]. split; [done|]. split; [done|].
    split; [simpl; lia|]. done.
  - split; [done|]. split; [done|]. split; [done|]. split; [done|].
    split; [simpl; lia|]. done.
Qed.

(** One round of the outer loop makes one POST per point value. *)
Lemma fill_category_advanced ps0 category st :
  points st.1 = ps0 →
  advanced (length ps0) st
    ((_ ← console_print (GeneratingQuestionsFor category);
      self ← get_self;
      _ ← set_board (<[category := ∅]> (board self));
      self ← get_self;
      for_ (points self) (λ points,
        qa ← generate_question category points;
        self ← get_self;
        row ← lift (dict_getitem (board self) category);
        _ ← set_board
              (<[category :=
                   <[points := {| question := qa_question qa;
                                  answer := qa_answer qa;
                                  answered := false |}]> row]> (board self));
        sleep 0.5))%Q st).
Proof.
  destruct st as [g1 w1]. cbn [fst]. intros Hps.
  rewrite M_bind_run, console_print_run.
  destruct (print_raises _).
  { split; [done|]. split; [done|]. split; [done|]. split; [done|].
    split; [simpl; lia|]. done. }
  run_board. rewrite Hps.
  destruct (for_advanced
              (λ points : Z,
                 qa ← generate_question category points;
                 self ← get_self;
                 row ← lift (dict_getitem (board self) category);
                 _ ← set_board
                       (<[category :=
                            <[points := {| question := qa_question qa;
                                           answer := qa_answer qa;
                                           answered := false |}]> row]>
                          (board self));
                 sleep 0.5)%Q 1%nat ps0 ps0
              (λ p st _, fill_cell_advanced category p st)
              (with_board g1 (<[category := ∅]> (board g1)),
               printing w1 [GeneratingQuestionsFor category]))
    as (Hs & Hc & Hp & Hsc & Hn & Hok); [done|].
  unfold advanced.
  cbn [fst snd with_board printing categories points score service posts]
    in *.
  split; [done|]. split; [done|]. split; [done|]. split; [done|].
  split; [lia|]. intros Hr. specialize (Hok Hr). lia.
Qed.

(** However it ends, [initialize_board] keeps the service, the lists and
    the score, and makes at most one POST per category and point value. *)
Lemma initialize_board_advanced g w :
  advanced (length (categories g) * length (points g)) (g, w)
    (initialize_board (g, w)).
Proof.
  unfold initialize_board. run_board.
  apply (for_advanced _ (length (points g)) (points g) (categories g)
           (fill_category_advanced (points g)) (with_board g ∅, w) eq_refl).
Qed.

(** ** The session that the initialization leaves *)

(** [play_game] is the initialization, then the loop, run on the session
    that the initialization leaves, then the final score; an exception of
    the initialization ends the game at once. *)
Lemma play_game_unfold fuel user s :
  play_game fuel user s
  = match method initialize_board
            (showing s [Clear; Welcome; InitializingGameBoard]) with
    | (Ok _, s0) =>
        match game_loop fuel user 0 s0 with
        | (Ok _, s1) => (Ok (), showing s1 [GameOver (score (current s1))])
        | (Raise e, s1) => (Raise e, s1)
        | (Diverge, s1) => (Diverge, s1)
        end
    | (Raise e, s0) => (Raise e, s0)
    | (Diverge, s0) => (Diverge, s0)
    end.
Proof.
  unfold play_game. play.
  destruct (method initialize_board _) as [[[]|e|] s0]; [|done..].
  rewrite G_bind_run.
  destruct (game_loop fuel user 0 s0) as [[[]|e|] s1]; [|done..].
  by play.
Qed.

(** The session after the call of [initialize_board]. *)
Lemma initialize_board_session s out :
  method initialize_board (showing s out)
  = ((initialize_board (current s, world_of s)).1,
     {| current := (initialize_board (current s, world_of s)).2.1;
        backend := service (initialize_board (current s, world_of s)).2.2;
        requests_made := posts (initialize_board (current s, world_of s)).2.2;
        terminal :=
          terminal s ++ out
          ++ (Line <$> console (initialize_board (current s, world_of s)).2.2)
     |}).
Proof.
  rewrite method_run. change (world_of (showing s out)) with (world_of s).
  cbn [current showing terminal]. by rewrite <- app_assoc.
Qed.

(** X17.  However long the game lasts and however it ends, every POST of
    [play_game] is made by [initialize_board]: the number of POSTs at the
    end of the game is the number at the end of the initialization.  That
    is at most one POST per category and point value, and exactly one when
    the initialization returned.  The service is the same, and the cells
    the game ends with hold the questions and answers that the
    initialization stored, at the same places. *)
Theorem play_game_generates_once fuel user s :
  let r := initialize_board (current s, world_of s) in
  let s' := (play_game fuel user s).2 in
  backend s' = backend s
  ∧ requests_made s' = posts r.2.2
  ∧ (requests_made s ≤ requests_made s'
     ≤ requests_made s
       + length (categories (current s)) * length (points (current s)))%nat
  ∧ (r.1 = Ok () →
     requests_made s'
     = (requests_made s
        + length (categories (current s)) * length (points (current s)))%nat)
  ∧ ∀ category p,
      option_Forall2 cell_kept (cell_at (board r.2.1) category p)
        (cell_at (board (current s')) category p).
Proof.
  cbv zeta. rewrite play_game_unfold, initialize_board_session.
  destruct (initialize_board_advanced (current s) (world_of s))
    as (Hs & _ & _ & _ & Hn & Hok).
  cbn [fst snd world_of service posts] in Hs, Hn, Hok.
  set (r := initialize_board (current s, world_of s)) in *.
  assert (Hend : ∀ s1 : session,
            session_kept
              {| current := r.2.1; backend := service r.2.2;
                 requests_made := posts r.2.2;
                 terminal := terminal s
                             ++ [Clear; Welcome; InitializingGameBoard]
                             ++ (Line <$> console r.2.2) |} s1 →
            backend s1 = backend s
            ∧ requests_made s1 = posts r.2.2
            ∧ (requests_made s ≤ requests_made s1
               ≤ requests_made s
                 + length (categories (current s))
                   * length (points (current s)))%nat
            ∧ (r.1 = Ok () →
               requests_made s1
               = (requests_made s
                  + length (categories (current s))
                    * length (points (current s)))%nat)
            ∧ ∀ category p,
                option_Forall2 cell_kept (cell_at (board r.2.1) category p)
                  (cell_at (board (current s1)) category p)).
  { intros s1 (Hb & Hr & _ & _ & _ & Hcells).
    cbn [current backend requests_made] in *.
    split; [congruence|]. split; [done|]. split; [lia|].
    split; [intros Hr'; specialize (Hok Hr'); lia|]. exact Hcells. }
  destruct (r.1) as [[]|e|]; cbn [snd]; [|apply Hend, session_kept_refl..].
  match goal with |- context [game_loop fuel user 0 ?s0] =>
    pose proof (game_loop_kept user fuel 0%nat s0) as Hkept;
    destruct (game_loop fuel user 0 s0) as [[[]|e|] s1] end;
    cbn [snd] in *.
  - apply Hend. eapply session_kept_trans; [exact Hkept|].
    apply session_kept_showing.
  - by apply Hend.
  - by apply Hend.
Qed.

(** ** Counting the cells of a board *)

Lemma row_cells_insert (row : gmap Z cell) p q :
  (map_to_list (<[p := q]> row)).*2 ≡ₚ q :: (map_to_list (delete p row)).*2.
Proof.
  rewrite <- insert_delete_eq.
  rewrite map_to_list_insert by apply lookup_delete_eq. done.
Qed.

Lemma row_cells_lookup (row : gmap Z cell) p q :
  row !! p = Some q →
  (map_to_list row).*2 ≡ₚ q :: (map_to_list (delete p row)).*2.
Proof. intros Hq. by rewrite <- (map_to_list_delete row p q Hq). Qed.

Lemma board_cells_insert (bd : gmap str (gmap Z cell)) category row :
  board_cells (<[category := row]> bd)
  ≡ₚ (map_to_list row).*2 ++ board_cells (delete category bd).
Proof.
  unfold board_cells. rewrite <- insert_delete_eq.
  rewrite map_to_list_insert by apply lookup_delete_eq. done.
Qed.

Lemma board_cells_lookup (bd : gmap str (gmap Z cell)) category row :
  bd !! category = Some row →
  board_cells bd
  ≡ₚ (map_to_list row).*2 ++ board_cells (delete category bd).
Proof.
  intros Hrow. unfold board_cells.
  by rewrite <- (map_to_list_delete bd category row Hrow).
Qed.

Lemma elem_of_board_cells (bd : gmap str (gmap Z cell)) q :
  q ∈ board_cells bd ↔ ∃ category p, cell_at bd category p = Some q.
Proof.
  unfold board_cells, cell_at. rewrite list_elem_of_bind. split.
  - intros (row & Hq & Hrow).
    apply list_elem_of_fmap in Hrow as ([category row'] & -> & Hrow).
    apply list_elem_of_fmap in Hq as ([p q'] & -> & Hq).
    apply elem_of_map_to_list in Hrow. apply elem_of_map_to_list in Hq.
    exists category, p. simpl in *. by rewrite Hrow.
  - intros (category & p & Hq).
    destruct (bd !! category) as [row|] eqn:Hrow; [|done]. simpl in Hq.
    exists row. split.
    + apply list_elem_of_fmap. exists (p, q). split; [done|].
      by apply elem_of_map_to_list.
    + apply list_elem_of_fmap. exists (category, row). split; [done|].
      by apply elem_of_map_to_list.
Qed.

Lemma all_answered_remaining bd :
  all_answered bd = true ↔ remaining bd = 0%nat.
Proof.
  unfold all_answered, remaining. fold (board_cells bd).
  induction (board_cells bd) as [|q l IH]; [done|].
  cbn [forallb]. rewrite filter_cons.
  destruct (answered q); simpl; [done|]. split; [done|lia].
Qed.

Lemma all_answered_false bd :
  all_answered bd = false →
  ∃ category p q, cell_at bd category p = Some q ∧ answered q = false.
Proof.
  intros Hall.
  assert (Hex : Exists (λ q, answered q = false) (board_cells bd)).
  { unfold all_answered in Hall. fold (board_cells bd) in Hall.
    induction (board_cells bd) as [|q l IH]; [done|].
    cbn [forallb] in Hall. destruct (answered q) eqn:Hq.
    - right. by apply IH.
    - by left. }
  apply Exists_exists in Hex as (q & Hin & Hq).
  apply elem_of_board_cells in Hin as (category & p & Hcell). eauto.
Qed.

(** Playing an open cell leaves one cell less to play. *)
Lemma remaining_played (bd : gmap str (gmap Z cell)) category row p q :
  bd !! category = Some row → row !! p = Some q → answered q = false →
  S (remaining (<[category := <[p := played q]> row]> bd)) = remaining bd.
Proof.
  intros Hrow Hq Hopen. unfold remaining.
  rewrite board_cells_insert, (board_cells_lookup bd category row Hrow).
  rewrite row_cells_insert, (row_cells_lookup row p q Hq).
  cbn [app]. rewrite !filter_cons. simpl. rewrite Hopen.
  by destruct (decide (false = false)).
Qed.

Lemma row_size_after f category ps : ∀ k (row : gmap Z cell),
  (size (row_after f k category ps row) ≤ size row + length ps)%nat.
Proof.
  induction ps as [|p ps IH]; intros k row; cbn [row_after length]; [lia|].
  etrans; [apply IH|].
  pose proof (map_size_insert p (new_cell (f k category p)) row) as Hs.
  destruct (row !! p); unfold id in Hs; lia.
Qed.

Lemma length_row_cells (row : gmap Z cell) :
  length (map_to_list row).*2 = size row.
Proof. by rewrite length_fmap, length_map_to_list. Qed.

Lemma length_board_cells_insert (bd : gmap str (gmap Z cell)) category row :
  (length (board_cells (<[category := row]> bd))
   ≤ size row + length (board_cells bd))%nat.
Proof.
  rewrite board_cells_insert, length_app, length_row_cells.
  destruct (bd !! category) as [row0|] eqn:Hrow.
  - rewrite (board_cells_lookup bd category row0 Hrow), length_app. lia.
  - by rewrite delete_id.
Qed.

Lemma length_board_after f cs ps : ∀ k bd,
  (length (board_cells (board_after f k cs ps bd))
   ≤ length (board_cells bd) + length cs * length ps)%nat.
Proof.
  induction cs as [|c cs IH]; intros k bd; cbn [board_after length]; [lia|].
  etrans; [apply IH|].
  pose proof (length_board_cells_insert bd c (row_after f k c ps ∅)).
  pose proof (row_size_after f c ps k ∅). rewrite map_size_empty in *. lia.
Qed.

Lemma remaining_board_after f cs ps :
  (remaining (board_after f 0 cs ps ∅) ≤ length cs * length ps)%nat.
Proof.
  unfold remaining. etrans; [apply length_filter|].
  etrans; [apply length_board_after|]. done.
Qed.

(** ** The board of a game in progress *)

Lemma playable_initialized g f :
  playable (with_board g (board_after f 0 (categories g) (points g) ∅)).
Proof.
  split.
  - intros category Hin. cbn [with_board categories points board] in *.
    destruct (board_after_rows f (categories g) (points g) 0 category Hin)
      as [k' Hl].
    eexists. split; [exact Hl|]. intros p Hp. by apply row_after_lookup_in.
  - intros category Hl. cbn [with_board categories points board] in *.
    by apply board_after_listed in Hl.
Qed.

Lemma rows_complete_grid g : rows_complete g → grid_complete g.
Proof.
  intros Hrows category p Hc Hp. unfold cell_at.
  destruct (Hrows category Hc) as (row & -> & Hrow). simpl. by apply Hrow.
Qed.

Lemma playable_after_turn g w category p row c ok :
  playable g → board g !! category = Some row → row !! p = Some c →
  playable (after_turn g w category p row c ok).1.
Proof.
  intros [Hrows Hlisted] Hrow Hc. unfold after_turn. cbn [fst]. split.
  - intros category' Hin. cbn [categories points board] in *.
    destruct (decide (category = category')) as [<-|Hne].
    + rewrite lookup_insert_eq. eexists. split; [done|].
      intros p' Hp'. destruct (decide (p = p')) as [<-|Hp].
      * rewrite lookup_insert_eq. by eexists.
      * rewrite lookup_insert_ne by done.
        destruct (Hrows category Hin) as (row' & Hrow' & Hall).
        rewrite Hrow in Hrow'. injection Hrow' as <-. by apply Hall.
    + rewrite lookup_insert_ne by done. by apply Hrows.
  - intros category' Hl. cbn [categories points board] in *.
    destruct (decide (category = category')) as [<-|Hne].
    + apply Hlisted. by rewrite Hrow.
    + rewrite lookup_insert_ne in Hl by done. by apply Hlisted.
Qed.

(** The lines of the cells that the initialization stores print, when the
    lines of the pairs that its calls return do. *)
Lemma board_prints_initialized g w :
  source_returns g w → source_prints g w →
  board_prints (board_after (qa_at w) 0 (categories g) (points g) ∅).
Proof.
  intros Hret Hprints category p c (i & j & Hi & Hj & ->)%board_after_cell.
  destruct (Hret i j category p Hi Hj) as [qa Hqa].
  rewrite Nat.add_0_l. rewrite (qa_at_returns w _ _ _ qa Hqa).
  by apply (Hprints i j).
Qed.

(** Playing a cell changes no line of the board. *)
Lemma board_prints_after_turn g w category p row c ok :
  board_prints (board g) →
  board g !! category = Some row → row !! p = Some c →
  board_prints (board (after_turn g w category p row c ok).1).
Proof.
  intros Hprints Hrow Hc category' p' c' Hc'.
  unfold after_turn in Hc'. cbn [fst board] in Hc'.
  pose proof (cells_kept_played (board g) category p row c category' p'
                Hrow Hc) as Hkept.
  rewrite Hc' in Hkept. inversion Hkept as [c0 c1 (Hq & Ha & _) Hc0|].
  symmetry in Hc0. destruct (Hprints category' p' c0 Hc0) as (Hh & Hq' & Ha').
  split; [done|]. split; [by rewrite Hq|by rewrite Ha].
Qed.

(** ** A player who keeps to the choices offered *)

Section safety.
Variable user : nat → game → prompts.
Hypothesis Hvalid : ∀ k g, valid_entries g (user k g).

Lemma play_turn_valid k s :
  playable (current s) → board_prints (board (current s)) →
  ∃ continue s',
    method (play_turn (user k (current s))) s = (Ok continue, s')
    ∧ playable (current s') ∧ board_prints (board (current s')).
Proof.
  intros Hplay Hprints. rewrite method_run.
  set (u := user k (current s)).
  destruct (continue_playing u) eqn:Hcont.
  2:{ rewrite (play_turn_declined u _ _ Hcont). by eexists _, _. }
  destruct (Hvalid k (current s) Hcont) as [Hcat Hpts]. fold u in Hcat, Hpts.
  destruct (proj1 Hplay _ Hcat) as (row & Hrow & _).
  destruct (available_points row) as [|x l] eqn:Hav.
  - rewrite (play_turn_exhausted_run u _ _ row Hcont Hrow Hav).
    by eexists _, _.
  - destruct (play_turn_open_run u (current s) (world_of s) row Hcont Hrow)
      as (p & c & ok & Hc & _ & ->).
    { apply Hpts; [done|]. by rewrite Hav. }
    { intros p c Hc. apply Hprints. unfold cell_at. by rewrite Hrow. }
    eexists _, _. split; [reflexivity|]. cbn [current]. split.
    + by apply (playable_after_turn _ (world_of s) _ _ row c ok).
    + by apply (board_prints_after_turn _ (world_of s) _ _ row c ok).
Qed.

Lemma game_loop_safe fuel : ∀ turn s,
  playable (current s) → board_prints (board (current s)) →
  ∀ e, (game_loop fuel user turn s).1 ≠ Raise e.
Proof.
  induction fuel as [|fuel IH]; intros turn s Hplay Hprints e; [done|].
  rewrite game_loop_unfold.
  rewrite display_board_run by (apply rows_complete_grid, Hplay).
  rewrite current_showing.
  destruct (all_answered (board (current s))); [done|].
  set (s1 := showing s _).
  destruct (play_turn_valid turn s1) as (continue & s2 & Hrun & Hplay2 & Hpr2);
    [done|done|].
  change (current s1) with (current s) in Hrun. rewrite Hrun.
  destruct continue; cbn [negb]; [by apply IH|done].
Qed.

End safety.

Lemma first_open_valid text g : valid_entries g (first_open text g).
Proof.
  unfold valid_entries, first_open.
  destruct (list_find _ _) as [[i category]|] eqn:Hfind; [|done].
  intros _. apply list_find_Some in Hfind as (Hi & Hopen & _).
  cbn [chosen_category chosen_points]. split.
  - by apply (list_elem_of_lookup_2 _ i).
  - intros row Hrow _. unfold open_points in *. rewrite Hrow in *.
    destruct (available_points row) as [|x l]; [done|]. simpl. left.
Qed.

Lemma first_open_picks text g :
  (∃ category, category ∈ categories g ∧ open_points g category ≠ []) →
  picks_open_cell g (first_open text g).
Proof.
  intros (category & Hin & Hopen). unfold picks_open_cell, first_open.
  destruct (list_find _ _) as [[i category']|] eqn:Hfind.
  - apply list_find_Some in Hfind as (Hi & Hopen' & _).
    cbn [continue_playing chosen_category chosen_points]. split; [done|].
    unfold open_points in *.
    destruct (board g !! category') as [row|]; [|done].
    exists row. split; [done|].
    destruct (available_points row) as [|x l]; [done|]. simpl. left.
  - exfalso. apply list_find_None in Hfind.
    by apply (proj1 (Forall_forall _ _) Hfind category Hin).
Qed.

(** The game after an initialization that went through. *)
Lemma play_game_generated fuel user s :
  progress_prints (categories (current s)) →
  source_returns (current s) (world_of s) →
  ∃ w' s0,
    initialize_board (current s, world_of s)
    = (Ok (), (with_board (current s)
                 (board_after (qa_at (world_of s)) 0
                    (categories (current s)) (points (current s)) ∅), w'))
    ∧ s0 = {| current := with_board (current s)
                           (board_after (qa_at (world_of s)) 0
                              (categories (current s)) (points (current s)) ∅);
              backend := backend s;
              requests_made := posts w';
              terminal := terminal s
                          ++ [Clear; Welcome; InitializingGameBoard]
                          ++ (Line <$> console w') |}
    ∧ play_game fuel user s
      = match game_loop fuel user 0 s0 with
        | (Ok _, s1) => (Ok (), showing s1 [GameOver (score (current s1))])
        | (Raise e, s1) => (Raise e, s1)
        | (Diverge, s1) => (Diverge, s1)
        end.
Proof.
  intros Hprog Hret.
  destruct (initialize_board_generates (current s) (world_of s) Hprog Hret)
    as (w' & Hrun & Hs & Hp).
  eexists w', _. split; [exact Hrun|]. split; [reflexivity|].
  rewrite play_game_unfold, initialize_board_session, Hrun.
  cbn [fst snd]. by rewrite Hs.
Qed.

(** X18.  When the library lets the game through (it prints the progress
    lines and the categories, the calls of [generate_question] return, and
    the lines of the cells they fill print) and the entries of every turn
    are among the choices that the prompts offer, [play_game] raises no
    exception, however long the game lasts. *)
Theorem play_game_never_raises fuel user s :
  prints_safely (current s) (world_of s) →
  (∀ k g, valid_entries g (user k g)) →
  ∀ e, (play_game fuel user s).1 ≠ Raise e.
Proof.
  intros (Hprog & _ & Hret & Hprints) Hvalid e.
  destruct (play_game_generated fuel user s Hprog Hret)
    as (w' & s0 & Hinit & -> & ->).
  match goal with |- context [game_loop fuel user 0 ?s0] =>
    pose proof (game_loop_safe user Hvalid fuel 0%nat s0
                  (playable_initialized _ _)
                  (board_prints_initialized _ _ Hret Hprints)) as Hsafe;
    destruct (game_loop fuel user 0 s0) as [[[]|e'|] s1] end;
    [done| |done].
  by destruct (Hsafe e').
Qed.

(** X19.  When the library prints the progress lines and the categories,
    the calls of [generate_question] return and the player declines at the
    first prompt, the game ends at once: the board has been generated and
    shown once, no cell is played, the score is the one the game started
    with, and the terminal ends with the thanks and the final score. *)
Theorem play_game_declined_at_once fuel user s :
  categories (current s) ≠ [] →
  points (current s) ≠ [] →
  progress_prints (categories (current s)) →
  (∀ category, category ∈ categories (current s) → prints category) →
  source_returns (current s) (world_of s) →
  (∀ g, continue_playing (user 0%nat g) = false) →
  ∃ bd w',
    initialize_board (current s, world_of s)
    = (Ok (), (with_board (current s) bd, w'))
    ∧ (∀ category p q, cell_at bd category p = Some q → answered q = false)
    ∧ play_game (S fuel) user s
      = (Ok (),
         {| current := with_board (current s) bd;
            backend := backend s;
            requests_made := posts w';
            terminal :=
              terminal s
              ++ [Clear; Welcome; InitializingGameBoard]
              ++ (Line <$> console w')
              ++ [Clear; BoardTable (board_table (with_board (current s) bd));
                  CurrentScore (score (current s));
                  ThanksForPlaying; GameOver (score (current s))] |}).
Proof.
  intros Hcs Hps Hprog _ Hret Hdecline.
  destruct (play_game_generated (S fuel) user s Hprog Hret)
    as (w' & s0 & Hinit & -> & ->).
  eexists _, w'. split; [exact Hinit|].
  split; [intros category p q; apply board_after_open|].
  rewrite game_loop_unfold.
  rewrite display_board_run
    by apply rows_complete_grid, playable_initialized.
  rewrite current_showing. cbn [current].
  assert (Hopen : all_answered
            (board (with_board (current s)
                      (board_after (qa_at (world_of s)) 0
                         (categories (current s)) (points (current s)) ∅)))
          = false).
  { destruct (categories (current s)) as [|category cs] eqn:Hc; [done|].
    destruct (points (current s)) as [|p ps] eqn:Hpt; [done|].
    destruct (all_answered _) eqn:Hall; [|done]. exfalso.
    cbn [board with_board] in Hall.
    destruct (board_after_rows (qa_at (world_of s)) (category :: cs) (p :: ps)
                0 category) as [k' Hrow]; [left|].
    destruct (row_after_lookup_in (qa_at (world_of s)) category (p :: ps)
                k' ∅ p) as [q Hq]; [left|].
    assert (Hcell : cell_at (board_after (qa_at (world_of s)) 0
                               (category :: cs) (p :: ps) ∅) category p
                    = Some q) by (unfold cell_at; by rewrite Hrow).
    pose proof (board_after_open _ _ _ _ _ _ _ Hcell) as Hq'.
    assert (Hin : q ∈ board_cells (board_after (qa_at (world_of s)) 0
                                     (category :: cs) (p :: ps) ∅))
      by (apply elem_of_board_cells; eauto).
    unfold all_answered in Hall. rewrite forallb_forall in Hall.
    apply list_elem_of_In, Hall in Hin. by rewrite Hq' in Hin. }
  rewrite Hopen. rewrite method_run.
  rewrite (play_turn_declined _ _ _ (Hdecline _)).
  cbn [fst snd negb]. rewrite show_run.
  unfold showing.
  cbn [current backend requests_made terminal score with_board console
       service posts world_of app fmap list_fmap].
  rewrite app_nil_r, <- !app_assoc. reflexivity.
Qed.

(** ** A player who keeps picking open cells *)

Section liveness.
Variable user : nat → game → prompts.
Hypothesis Hplayer : ∀ k g,
  (∃ category, category ∈ categories g ∧ open_points g category ≠ []) →
  picks_open_cell g (user k g).

Lemma game_loop_finishes : ∀ n fuel turn s,
  remaining (board (current s)) = n → (n < fuel)%nat →
  playable (current s) → board_prints (board (current s)) →
  ∃ s', game_loop fuel user turn s = (Ok (), s')
        ∧ all_answered (board (current s')) = true.
Proof.
  induction n as [|n IH]; intros fuel turn s Hn Hfuel Hplay Hprints;
    (destruct fuel as [|fuel]; [lia|]);
    rewrite game_loop_unfold;
    rewrite display_board_run by (apply rows_complete_grid, Hplay);
    rewrite current_showing.
  - apply all_answered_remaining in Hn. rewrite Hn. by eexists.
  - destruct (all_answered (board (current s))) eqn:Hall; [by eexists|].
    destruct (all_answered_false _ Hall) as (category & p & q & Hq & Hopen).
    unfold cell_at in Hq.
    destruct (board (current s) !! category) as [row|] eqn:Hrow; [|done].
    simpl in Hq.
    destruct (Hplayer turn (current s)) as (Hcont & row' & Hrow' & Hin).
    { exists category. split; [apply Hplay; by rewrite Hrow|].
      unfold open_points. rewrite Hrow.
      by apply (available_points_nonempty row p q). }
    rewrite method_run. cbn [current showing].
    change (world_of (showing s _)) with (world_of s).
    destruct (play_turn_open_run _ (current s) (world_of s) row' Hcont
                Hrow' Hin) as (p' & c' & ok & Hc' & Hopen' & ->).
    { intros p0 c0 Hc0. apply Hprints. unfold cell_at. by rewrite Hrow'. }
    cbn [fst snd negb].
    apply IH.
    + unfold after_turn. cbn [current board fst].
      pose proof (remaining_played _ _ _ _ _ Hrow' Hc' Hopen'). lia.
    + lia.
    + cbn [current].
      by apply (playable_after_turn _ (world_of s) _ _ row' c' ok).
    + cbn [current].
      by apply (board_prints_after_turn _ (world_of s) _ _ row' c' ok).
Qed.

End liveness.

(** X20.  When the library lets the game through, with a player who goes
    on and picks an open cell whenever a category has one, [play_game]
    returns: given one round of the loop per category and point value and
    one more, it ends with every cell played, and the last line printed is
    the final score. *)
Theorem play_game_finishes fuel user s :
  prints_safely (current s) (world_of s) →
  (∀ k g,
     (∃ category, category ∈ categories g ∧ open_points g category ≠ []) →
     picks_open_cell g (user k g)) →
  (length (categories (current s)) * length (points (current s)) < fuel)%nat →
  ∃ s', play_game fuel user s = (Ok (), s')
        ∧ all_answered (board (current s')) = true
        ∧ last (terminal s') = Some (GameOver (score (current s'))).
Proof.
  intros (Hprog & _ & Hret & Hprints) Hplayer Hfuel.
  destruct (play_game_generated fuel user s Hprog Hret)
    as (w' & s0 & Hinit & -> & ->).
  match goal with |- context [game_loop fuel user 0 ?s0] =>
    destruct (game_loop_finishes user Hplayer _ fuel 0%nat s0 eq_refl)
      as (s1 & -> & Hall) end.
  - cbn [current board with_board].
    pose proof (remaining_board_after (qa_at (world_of s))
                  (categories (current s)) (points (current s))). lia.
  - apply playable_initialized.
  - by apply board_prints_initialized.
  - eexists. split; [reflexivity|]. split; [done|].
    cbn [terminal showing current]. apply last_snoc.
Qed.

End with_library.

(* ================================================================== *)
(** * Examples on a console that reads markup *)
(* ================================================================== *)

#[local] Existing Instance markup_console.

Lemma generate_question_raises_from_handler_witness :
  generation_raises
    (service rejecting (posts rejecting)
       (generation_request (lit "Geography") 100)) bad_status
  ∧ print_raises (text_of (ErrorGeneratingQuestion bad_status))
    = Some MarkupError
  ∧ generation_fails
      (service rejecting (posts rejecting)
         (generation_request (lit "Geography") 100))
  ∧ generate_question (lit "Geography") 100 (init, rejecting)
    = (Raise MarkupError,
       (init, {| service := service rejecting; posts := 1; console := [] |})).
Proof.
  split; [by apply status_raises|]. split; [reflexivity|].
  apply (generate_question_raises_from_handler (lit "Geography") 100 init
           rejecting bad_status MarkupError).
  - by apply status_raises.
  - reflexivity.
Defined.

(** The service can store such an answer: the response of two lines whose
    second line is a closing tag parses, and the tag becomes the answer of
    the cell. *)
Lemma generate_question_bbcode :
  generate_question (lit "Science") 100 (init, replying bbcode_text)
  = (Ok {| qa_question := question bbcode_cell;
           qa_answer := answer bbcode_cell |},
     (init, posted (replying bbcode_text))).
Proof. vm_compute. reflexivity. Qed.

Lemma play_turn_raises_after_scoring_witness :
  check_answer (your_answer bbcode_turn) (answer bbcode_cell) = Ok false
  ∧ print_raises (lit "[red]Sorry, the correct answer was: [/b][/red]")
    = Some MarkupError
  ∧ ∃ g' w',
      play_turn bbcode_turn (bbcode_game, unreachable)
      = (Raise MarkupError, (g', w'))
      ∧ score g' = -100
      ∧ cell_at (board g') (lit "Science") 100 = Some bbcode_cell
      ∧ answered bbcode_cell = false.
Proof.
  split; [vm_compute; reflexivity|]. split; [reflexivity|].
  destruct (play_turn_raises_after_scoring bbcode_turn bbcode_game
              unreachable (lit "Science") 100 bbcode_row bbcode_cell
              MarkupError)
    as (g' & w' & Hrun & Hscore & _ & Hcell & _);
    [reflexivity | reflexivity | reflexivity | reflexivity | reflexivity
     | reflexivity | reflexivity | reflexivity | vm_compute; reflexivity
     | reflexivity |].
  exists g', w'. split; [exact Hrun|]. split; [exact Hscore|].
  split; [exact Hcell|reflexivity].
Defined.

(** A wrong answer on a cell whose lines print takes the score below
    zero. *)
Lemma play_turn_wrong_answer :
  ∃ g' w',
    play_turn {| continue_playing := true; chosen_category := lit "Geography";
                 chosen_points := lit "100"; your_answer := lit "london" |}
      (paris_game, unreachable) = (Ok true, (g', w'))
    ∧ score g' = -100
    ∧ console w' = [QuestionHeader (lit "Geography") 100;
                    QuestionText (lit "What is the capital of France?");
                    SorryTheCorrectAnswerWas (lit "paris")].
Proof. eexists _, _. split; [vm_compute; reflexivity|]. done. Qed.

(** The service that replies with the response about Paris returns the
    same pair at every call. *)
Lemma paris_source k category points :
  question_source (replying paris_text) k category points = Ok paris_pair.
Proof.
  unfold question_source.
  destruct (generate_question_parses category points init
              {| service := service (replying paris_text);
                 posts := (posts (replying paris_text) + k)%nat;
                 console := [] |} paris_text)
    as (line1 & line2 & rest & Hsplit & ->).
  - eexists _, _. split; [reflexivity|]. split; [reflexivity|].
    split; [reflexivity|]. split; [reflexivity|]. vm_compute. discriminate.
  - vm_compute in Hsplit. injection Hsplit as <- <- <-. reflexivity.
Qed.

(** A service that cannot be reached gives the backup pair at every call:
    the line that reports the exception prints. *)
Lemma unreachable_source k category points :
  question_source unreachable k category points
  = Ok (backup_question category points).
Proof.
  unfold question_source.
  by rewrite (generate_question_handles category points init _
                RequestException) by constructor.
Qed.

Lemma init_headers_print category p :
  category ∈ categories init → p ∈ points init →
  prints (text_of (QuestionHeader category p)).
Proof.
  intros Hc Hp.
  assert (Hall : forallb (λ category,
                    forallb (λ p,
                       printed_ok
                         (print_raises (text_of (QuestionHeader category p))))
                      (points init)) (categories init) = true)
    by (vm_compute; reflexivity).
  rewrite forallb_forall in Hall. apply list_elem_of_In, Hall in Hc.
  rewrite forallb_forall in Hc. apply list_elem_of_In, Hc in Hp.
  unfold prints. by destruct (print_raises _).
Qed.

Lemma init_categories_print category :
  category ∈ categories init → prints category.
Proof.
  intros Hc.
  assert (Hall : forallb (λ category, printed_ok (print_raises category))
                   (categories init) = true) by (vm_compute; reflexivity).
  rewrite forallb_forall in Hall. apply list_elem_of_In, Hall in Hc.
  unfold prints. by destruct (print_raises _).
Qed.

(** The game about Paris goes through. *)
Lemma paris_prints_safely : prints_safely init (replying paris_text).
Proof.
  split; [apply progress_prints_init|].
  split; [apply init_categories_print|]. split.
  - intros i j category p _ _. eexists. apply paris_source.
  - intros i j category p qa Hi Hj Hqa. rewrite paris_source in Hqa.
    injection Hqa as <-. split; [|split; reflexivity].
    apply init_headers_print; by eapply list_elem_of_lookup_2.
Qed.

Lemma initialize_board_fills_the_grid_witness :
  categories init !! 2%nat = Some (lit "Geography")
  ∧ JeopardyGame.points init !! 0%nat = Some 100
  ∧ ∃ bd' w',
      initialize_board (init, replying paris_text) = (Ok (), (reference_game bd' 0, w'))
      ∧ length (board_cells bd') = 25%nat
      ∧ cell_at bd' (lit "Geography") 100 = Some paris_cell.
Proof.
  split; [reflexivity|]. split; [reflexivity|].
  destruct (initialize_board_fills_the_grid ∅ 0 (replying paris_text))
    as (bd' & w' & Hrun & _ & Hlen & _ & _ & _ & Hcell).
  { intros i j category points _ _. eexists. apply paris_source. }
  exists bd', w'. split; [exact Hrun|]. split; [exact Hlen|].
  destruct (Hcell 2%nat 0%nat (lit "Geography") 100 eq_refl eq_refl)
    as (qa & Hqa & ->).
  rewrite paris_source in Hqa. injection Hqa as <-. reflexivity.
Defined.

Lemma generate_question_reports_exception_witness :
  generation_raises
    (service refused (posts refused) (generation_request (lit "Science") 100))
    connection_refused
  ∧ prints (text_of (ErrorGeneratingQuestion connection_refused))
  ∧ generate_question (lit "Science") 100 (init, refused)
    = (Ok (backup_question (lit "Science") 100),
       (init, {| service := service refused; posts := 1;
                 console := [ErrorGeneratingQuestion connection_refused] |}))
  ∧ occurs (lit "Error generating question: HTTPConnectionPool")
      (text_of (ErrorGeneratingQuestion connection_refused)) = true.
Proof.
  split; [constructor|]. split; [reflexivity|].
  destruct (generate_question_reports_exception (lit "Science") 100 init
              refused connection_refused) as [Hrun _];
    [constructor | reflexivity |].
  split; [exact Hrun|]. vm_compute. reflexivity.
Defined.

Lemma generate_question_silent_fallback_witness :
  ¬ two_lines (lit "Paris")
  ∧ generate_question (lit "Geography") 100 (init, replying (lit "Paris"))
    = (Ok (backup_question (lit "Geography") 100),
       (init, {| service := service (replying (lit "Paris")); posts := 1;
                 console := [] |})).
Proof.
  split; [vm_compute; intros H; apply H; reflexivity|].
  eapply (generate_question_silent_fallback (lit "Geography") 100 init
            (replying (lit "Paris"))); [reflexivity..|].
  vm_compute. intros H. apply H. reflexivity.
Defined.

Lemma generate_question_blank_second_line_witness :
  split_sep "010" (strip blank_line_text)
  = [lit "What is the capital of France?"; []; lit "Paris"]
  ∧ ∃ w', generate_question (lit "Geography") 100
            (init, replying blank_line_text)
          = (Ok {| qa_question := lit "What is the capital of France?";
                   qa_answer := [] |}, (init, w')).
Proof.
  split; [reflexivity|].
  apply (generate_question_blank_second_line (lit "Geography") 100 init
           (replying blank_line_text) blank_line_text
           (lit "What is the capital of France?") [] [lit "Paris"]).
  - eexists _, _. split; [reflexivity|]. split; [reflexivity|].
    split; [reflexivity|]. split; [reflexivity|]. vm_compute. discriminate.
  - reflexivity.
  - reflexivity.
Defined.

Lemma generate_question_removes_prefix_witness :
  lower (strip (lit "Answer: Paris")) = lit "answer:" ++ lit " paris"
  ∧ ∃ w', generate_question (lit "Geography") 100
            (init, replying prefixed_text)
          = (Ok {| qa_question := lit "What is the capital of France?";
                   qa_answer := lit "paris" |}, (init, w')).
Proof.
  split; [reflexivity|].
  apply (generate_question_removes_prefix (lit "Geography") 100 init
           (replying prefixed_text) prefixed_text
           (lit "What is the capital of France?") (lit "Answer: Paris") []
           (lit "answer:") (lit " paris")).
  - eexists _, _. split; [reflexivity|]. split; [reflexivity|].
    split; [reflexivity|]. split; [reflexivity|]. vm_compute. discriminate.
  - reflexivity.
  - by left.
  - reflexivity.
  - intros H%occurs_contains. vm_compute in H. discriminate.
  - intros H%occurs_contains. vm_compute in H. discriminate.
Defined.

Lemma initialize_board_any_game_witness :
  source_returns init (replying paris_text)
  ∧ ∃ bd' w',
      initialize_board (init, replying paris_text)
      = (Ok (), (with_board init bd', w'))
      ∧ posts w' = 25%nat
      ∧ dom bd' = list_to_set (categories init)
      ∧ ∀ category points c,
          cell_at bd' category points = Some c →
          answered c = false ∧ normalize (answer c) = answer c.
Proof.
  assert (Hret : source_returns init (replying paris_text))
    by apply paris_prints_safely.
  split; [exact Hret|].
  destruct (initialize_board_any_game init (replying paris_text)
              progress_prints_init Hret)
    as (bd' & w' & Hrun & _ & Hp & Hdom & _ & Hcells).
  exists bd', w'. split; [exact Hrun|]. split; [exact Hp|].
  split; [exact Hdom|exact Hcells].
Defined.

Lemma play_turn_follows_choice_witness :
  chosen_points paris_turn ∈ available_points paris_row
  ∧ cell_prints (lit "Geography") 100 paris_cell
  ∧ ∃ p c ok,
      chosen_points paris_turn = str_of_int p
      ∧ paris_row !! p = Some c
      ∧ answered c = false
      ∧ check_answer (your_answer paris_turn) (answer c) = Ok ok
      ∧ play_turn paris_turn (paris_game, unreachable)
        = (Ok true,
           after_turn paris_game unreachable (chosen_category paris_turn)
             p paris_row c ok).
Proof.
  assert (Hin : chosen_points paris_turn ∈ available_points paris_row)
    by (vm_compute; left).
  assert (Hprints : cell_prints (lit "Geography") 100 paris_cell)
    by (split; [|split]; reflexivity).
  split; [exact Hin|]. split; [exact Hprints|].
  apply (play_turn_follows_choice paris_turn paris_game unreachable
           paris_row); [reflexivity | reflexivity | exact Hin |].
  intros p c Hp Hc. unfold paris_row in Hc.
  apply lookup_singleton_Some in Hc as [<- <-]. exact Hprints.
Defined.

Lemma play_turn_exhausted_category_witness :
  play_turn paris_turn (played_game, unreachable)
  = (Ok true, (played_game,
               {| service := service unreachable; posts := 0;
                  console := [NoMoreQuestions] |})).
Proof.
  apply (play_turn_exhausted_category paris_turn played_game unreachable
           {[ 100 := played paris_cell ]}); [reflexivity | reflexivity |].
  intros p c [<- <-]%lookup_singleton_Some. reflexivity.
Defined.

Lemma play_turn_unknown_category_witness :
  play_turn paris_turn (init, unreachable)
  = (Raise KeyError, (init, unreachable)).
Proof.
  apply (play_turn_unknown_category paris_turn init unreachable);
    reflexivity.
Defined.

Lemma play_game_never_raises_witness :
  (play_game 30 (λ _, first_open (lit "paris"))
     (start init (replying paris_text))).1 ≠ Raise KeyError.
Proof.
  apply (play_game_never_raises 30 (λ _, first_open (lit "paris"))
           (start init (replying paris_text))).
  - apply paris_prints_safely.
  - intros k g. apply first_open_valid.
Defined.

Lemma play_game_declined_at_once_witness :
  ∃ bd w',
    initialize_board (init, world_of (start init unreachable))
    = (Ok (), (with_board init bd, w'))
    ∧ (∀ category p q, cell_at bd category p = Some q → answered q = false)
    ∧ play_game 1 (λ _ _, declining) (start init unreachable)
      = (Ok (),
         {| current := with_board init bd;
            backend := service unreachable;
            requests_made := posts w';
            terminal :=
              [Clear; Welcome; InitializingGameBoard]
              ++ (Line <$> console w')
              ++ [Clear; BoardTable (board_table (with_board init bd));
                  CurrentScore 0; ThanksForPlaying; GameOver 0] |}).
Proof.
  apply (play_game_declined_at_once 0 (λ _ _, declining)
           (start init unreachable)).
  - discriminate.
  - discriminate.
  - apply progress_prints_init.
  - apply init_categories_print.
  - intros i j category p _ _. eexists. apply unreachable_source.
  - reflexivity.
Defined.

Lemma play_game_finishes_witness :
  ∃ s', play_game 26 (λ _, first_open (lit "paris"))
          (start init (replying paris_text)) = (Ok (), s')
        ∧ all_answered (board (current s')) = true
        ∧ last (terminal s') = Some (GameOver (score (current s'))).
Proof.
  apply (play_game_finishes 26 (λ _, first_open (lit "paris"))
           (start init (replying paris_text))).
  - apply paris_prints_safely.
  - intros k g. apply first_open_picks.
  - simpl. lia.
Defined.

(** A whole game on a service that replies with a question that holds a
    closing tag: the board is generated, and the first turn raises when
    it prints the question, before any change of the score. *)
Lemma play_game_stops_at_the_question :
  (play_game 30 (λ _, first_open (lit "yes"))
     (start init (replying closing_tag_text))).1 = Raise MarkupError
  ∧ requests_made
      (play_game 30 (λ _, first_open (lit "yes"))
         (start init (replying closing_tag_text))).2 = 25%nat
  ∧ score (current
             (play_game 30 (λ _, first_open (lit "yes"))
                (start init (replying closing_tag_text))).2) = 0.
Proof. vm_compute. done. Qed.

(** On the service that answers with the bad status, the initialization
    stops at its first call. *)
Lemma initialize_board_stops_at_the_handler :
  (initialize_board (init, rejecting)).1 = Raise MarkupError
  ∧ posts (initialize_board (init, rejecting)).2.2 = 1%nat.
Proof. vm_compute. done. Qed.
